(** * go-onc/xdr: the type-directed XDR codec engine, embedded in Rocq

    The development follows the layout of the Go packages:

    - [reflect]: the fragment of Go's run-time type and value model that the
      codecs inspect (kinds, element types, struct fields, zero values);
    - [error]: Go's [error] interface, closed over the error values this
      program creates (internal/errors, io, fmt, strconv);
    - [tags]: the packed tag sequence [XDRTag] and the struct-tag parser;
    - [errors]: matching ([Is]) and path wrapping ([WithFieldError]);
    - [coder]: the wire layer ([encoder], [decoder]), the codec tree with
      its [Encode]/[Decode] methods, and the tag-to-codec compiler.

    Platform: a 64-bit build ([maxInt] = 2^63-1), the one on which the
    repository's own "[32-bit only]" tests are skipped.  The encoder writes
    into a [bytes.Buffer] (as [Coder.Marshal] does) and the decoder reads from
    a [bytes.Reader] (as [Coder.Unmarshal] does).  Types with methods
    ([Marshaler] implementations), caller-registered codecs and the
    registry's placeholder for types under construction run caller code or
    synchronise goroutines; they are outside this embedding, which covers
    every codec the library itself implements. *)

From Stdlib Require Import ZArith List String Ascii Bool Lia.
From Stdlib Require Import Strings.Byte.
Import ListNotations.

#[local] Set Warnings "-register-all".

Local Open Scope Z_scope.
Local Open Scope list_scope.

(** ** Bytes and big-endian words *)

Definition b2z (b : byte) : Z := Z.of_N (Byte.to_N b).

Definition z2b (z : Z) : byte :=
  match Byte.of_N (Z.to_N (z mod 256)) with
  | Some b => b
  | None => x00
  end.

(** Go's conversions between integer types: wrap to the width. *)
Definition uint8 (z : Z) : Z := z mod 2^8.
Definition uint16 (z : Z) : Z := z mod 2^16.
Definition uint32 (z : Z) : Z := z mod 2^32.
Definition uint64 (z : Z) : Z := z mod 2^64.
Definition int8 (z : Z) : Z := (z + 2^7) mod 2^8 - 2^7.
Definition int16 (z : Z) : Z := (z + 2^15) mod 2^16 - 2^15.
Definition int32 (z : Z) : Z := (z + 2^31) mod 2^32 - 2^31.
Definition int64 (z : Z) : Z := (z + 2^63) mod 2^64 - 2^63.

(** [maxInt = int(maxUint >> 1)] on the modelled platform. *)
Definition maxUint : Z := 2^64 - 1.
Definition maxInt : Z := Z.shiftr maxUint 1.
Definition MaxUint32 : Z := 2^32 - 1.

(** [make([]byte, n)] *)
Definition zeros (n : nat) : list byte := repeat x00 n.

(** ** A fragment of Go's [strings] package, on ASCII strings *)

Module strings.

Definition isSpace (a : ascii) : bool :=
  let n := nat_of_ascii a in
  (Nat.eqb n 9 || Nat.eqb n 10 || Nat.eqb n 11 || Nat.eqb n 12 ||
   Nat.eqb n 13 || Nat.eqb n 32)%bool.

Fixpoint TrimLeftSpace (s : string) : string :=
  match s with
  | EmptyString => EmptyString
  | String a r => if isSpace a then TrimLeftSpace r else s
  end.

(** Drops trailing white space: the tail is kept only when something
    other than white space remains in it. *)
Fixpoint TrimRightSpace (s : string) : string :=
  match s with
  | EmptyString => EmptyString
  | String a r =>
      match TrimRightSpace r with
      | EmptyString => if isSpace a then EmptyString else String a EmptyString
      | r' => String a r'
      end
  end.

Definition TrimSpace (s : string) : string :=
  TrimRightSpace (TrimLeftSpace s).

(** [strings.Split(s, sep)] for a one-character separator. *)
Fixpoint Split (s : string) (sep : ascii) : list string :=
  match s with
  | EmptyString => [EmptyString]
  | String a r =>
      if Ascii.eqb a sep then EmptyString :: Split r sep
      else match Split r sep with
           | h :: t => String a h :: t
           | [] => [String a EmptyString]
           end
  end.

Fixpoint HasPrefix (s p : string) {struct p} : bool :=
  match p, s with
  | EmptyString, _ => true
  | String b p', String a s' => Ascii.eqb a b && HasPrefix s' p'
  | String _ _, EmptyString => false
  end.

(** [s[n:]] *)
Fixpoint from (n : nat) (s : string) : string :=
  match n, s with
  | O, _ => s
  | S n', String _ r => from n' r
  | S _, EmptyString => EmptyString
  end.

Definition TrimPrefix (s p : string) : string :=
  if HasPrefix s p then from (String.length p) s else s.

(** [strings.Join(parts, sep)] *)
Fixpoint Join (parts : list string) (sep : string) : string :=
  match parts with
  | [] => EmptyString
  | [p] => p
  | p :: ps => (p ++ sep ++ Join ps sep)%string
  end.

End strings.

(** ** [fmt]'s [%x] verb on integers *)

Definition hexDigit (n : N) : ascii :=
  if (n <? 10)%N then ascii_of_N (48 + n) else ascii_of_N (87 + n).

Fixpoint hexPos (fuel : nat) (n : N) (acc : string) : string :=
  match fuel with
  | O => acc
  | S fuel' =>
      let acc' := String (hexDigit (n mod 16)%N) acc in
      if (n / 16 =? 0)%N then acc' else hexPos fuel' (n / 16)%N acc'
  end.

Definition fmt_x (z : Z) : string :=
  let digits n := hexPos (S (N.to_nat (N.log2 n))) n EmptyString in
  if z <? 0 then String "-"%char (digits (Z.to_N (- z))) else digits (Z.to_N z).

(** ** reflect: types and values *)

Module reflect.

Inductive Kind : Set :=
| Invalid | Bool
| Int | Int8 | Int16 | Int32 | Int64
| Uint | Uint8 | Uint16 | Uint32 | Uint64 | Uintptr
| Float32 | Float64 | Complex64 | Complex128
| Array | Chan | Func | Interface | Map | Ptr | Slice | String
| Struct | UnsafePointer.

Definition Kind_eqb (a b : Kind) : bool :=
  match a, b with
  | Invalid, Invalid | Bool, Bool | Int, Int | Int8, Int8 | Int16, Int16
  | Int32, Int32 | Int64, Int64 | Uint, Uint | Uint8, Uint8
  | Uint16, Uint16 | Uint32, Uint32 | Uint64, Uint64 | Uintptr, Uintptr
  | Float32, Float32 | Float64, Float64 | Complex64, Complex64
  | Complex128, Complex128 | Array, Array | Chan, Chan | Func, Func
  | Interface, Interface | Map, Map | Ptr, Ptr | Slice, Slice
  | String, String | Struct, Struct | UnsafePointer, UnsafePointer => true
  | _, _ => false
  end.

(** The kinds that carry no element type the codecs look at. *)
Inductive scalar : Set :=
| SBool
| SInt | SInt8 | SInt16 | SInt32 | SInt64
| SUint | SUint8 | SUint16 | SUint32 | SUint64 | SUintptr
| SFloat32 | SFloat64 | SComplex64 | SComplex128
| SString | SChan | SFunc | SInterface | SUnsafePointer.

(** [reflect.StructField]: the name, the type and the value of the [xdr]
    key of the field's tag ([f.Tag.Get("xdr")]). *)
Record StructField_ (T : Type) : Type := mkStructField {
  Name : string;
  Type_ : T;
  Tag : string
}.
Arguments mkStructField {T}.
Arguments Name {T}.
Arguments Type_ {T}.
Arguments Tag {T}.

(** [reflect.Type] *)
Inductive Type' : Type :=
| Scalar (s : scalar)
| ArrayOf (len : Z) (elem : Type')
| SliceOf (elem : Type')
| MapOf (key elem : Type')
| PtrTo (elem : Type')
| StructOf (name : string) (fields : list (StructField_ Type')).

Definition StructField := StructField_ Type'.

Definition kindOf (t : Type') : Kind :=
  match t with
  | Scalar SBool => Bool
  | Scalar SInt => Int | Scalar SInt8 => Int8 | Scalar SInt16 => Int16
  | Scalar SInt32 => Int32 | Scalar SInt64 => Int64
  | Scalar SUint => Uint | Scalar SUint8 => Uint8 | Scalar SUint16 => Uint16
  | Scalar SUint32 => Uint32 | Scalar SUint64 => Uint64
  | Scalar SUintptr => Uintptr
  | Scalar SFloat32 => Float32 | Scalar SFloat64 => Float64
  | Scalar SComplex64 => Complex64 | Scalar SComplex128 => Complex128
  | Scalar SString => String | Scalar SChan => Chan | Scalar SFunc => Func
  | Scalar SInterface => Interface | Scalar SUnsafePointer => UnsafePointer
  | ArrayOf _ _ => Array
  | SliceOf _ => Slice
  | MapOf _ _ => Map
  | PtrTo _ => Ptr
  | StructOf _ _ => Struct
  end.

(** [reflect.Value], by kind.  Integers hold their mathematical value,
    floats their IEEE-754 bit pattern, strings their bytes.  A nil slice,
    map or pointer is [None]. *)
Inductive Value : Type :=
| VBool (b : bool)
| VInt (i : Z)
| VUint (u : Z)
| VFloat32 (bits : Z)
| VFloat64 (bits : Z)
| VComplex64 (re im : Z)
| VComplex128 (re im : Z)
| VString (s : list byte)
| VArray (elems : list Value)
| VSlice (elems : option (list Value))
| VMap (entries : option (list (Value * Value)))
| VPtr (target : option Value)
| VStruct (fields : list Value)
| VNil.  (* the nil value of an interface, channel, function or unsafe
            pointer type *)

(** [reflect.Zero(t)] *)
Fixpoint Zero (t : Type') : Value :=
  match t with
  | Scalar SBool => VBool false
  | Scalar SInt | Scalar SInt8 | Scalar SInt16 | Scalar SInt32
  | Scalar SInt64 => VInt 0
  | Scalar SUint | Scalar SUint8 | Scalar SUint16 | Scalar SUint32
  | Scalar SUint64 | Scalar SUintptr => VUint 0
  | Scalar SFloat32 => VFloat32 0
  | Scalar SFloat64 => VFloat64 0
  | Scalar SComplex64 => VComplex64 0 0
  | Scalar SComplex128 => VComplex128 0 0
  | Scalar SString => VString []
  | Scalar SChan | Scalar SFunc | Scalar SInterface
  | Scalar SUnsafePointer => VNil
  | ArrayOf n e => VArray (repeat (Zero e) (Z.to_nat n))
  | SliceOf _ => VSlice None
  | MapOf _ _ => VMap None
  | PtrTo _ => VPtr None
  | StructOf _ fs =>
      VStruct ((fix zeros (fs : list (StructField_ Type')) : list Value :=
                  match fs with
                  | [] => []
                  | f :: fs' => Zero (Type_ f) :: zeros fs'
                  end) fs)
  end.

End reflect.

(** ** Go's [error] interface

    Closed over the error values the program creates: the sentinel
    [xerror] constants and the structured errors of internal/errors, the
    two end-of-input errors of [io], and the messages built by
    [fmt.Errorf] and [errors.New], kept as format and arguments. *)

Inductive xerror : Set :=
| ErrLengthExceedsMax
| ErrLengthExceedsPlatformLimit
| ErrLengthIncorrect
| ErrUnionSwitchArmUndefined
| ErrNotPointer
| ErrInvalidValue
| ErrNilPointer.

Inductive fmtArg_ (E : Type) : Type :=
| AString (s : string)
| AStrings (l : list string)
| AType (t : reflect.Type')
| ATag (t : list byte)
| AUint (u : Z)
| AErr (e : E).
Arguments AString {E}.
Arguments AStrings {E}.
Arguments AType {E}.
Arguments ATag {E}.
Arguments AUint {E}.
Arguments AErr {E}.

Inductive error : Type :=
| Xerror (x : xerror)
| InvalidTypeError (T : reflect.Type')
| InvalidTagForTypeError (T : reflect.Type') (Tag : list byte)
| LengthError (Actual Max : Z)
| FieldError (Underlying : error) (Path : string)
| EOF
| ErrUnexpectedEOF
| NumError (input : string)
| Errorf (format : string) (args : list (fmtArg_ error)).

Definition fmtArg := fmtArg_ error.

(** A Go call either returns or panics; [None] is the panic. *)
Definition panics (A : Type) : Type := option A.

Notation "x <- c1 ;; c2" :=
  (match c1 with Some x => c2 | None => None end)
  (at level 61, c1 at next level, right associativity).
Notation "' pat <- c1 ;; c2" :=
  (match c1 with Some pat => c2 | None => None end)
  (at level 61, pat pattern, c1 at next level, right associativity).

(** ** internal/tags *)

Module tags.

(** [type XDRTag []byte] *)
Definition XDRTag := list byte.
(** [type XDRTagKind byte] *)
Definition XDRTagKind := Z.

(** The constant block: [iota] counts every constant of the block. *)
Definition Noop : XDRTagKind := Z.lor 0x00 0.
Definition Skip : XDRTagKind := 1.
Definition Opt : XDRTagKind := 2.
Definition Opaque : XDRTagKind := 3.
Definition UnionSwitch : XDRTagKind := 4.
Definition UnionDefault : XDRTagKind := 5.
Definition Len : XDRTagKind := Z.lor 0x80 6.
Definition MaxLen : XDRTagKind := Z.lor 0x80 7.
Definition UnionCases : XDRTagKind := Z.lor 0xC0 8.

Definition len (t : XDRTag) : Z := Z.of_nat (List.length t).

Definition Empty (t : XDRTag) : bool := len t =? 0.

Definition Kind (t : XDRTag) : XDRTagKind :=
  match t with
  | b :: _ => b2z b
  | [] => Noop
  end.

(** [t[i]]: an index out of range panics. *)
Definition at_ (t : XDRTag) (i : Z) : panics Z :=
  if i <? 0 then None else option_map b2z (nth_error t (Z.to_nat i)).

(** [t[lo:]] and [t[0:hi]]: bounds out of range panic. *)
Definition sliceFrom (t : XDRTag) (lo : Z) : panics XDRTag :=
  if (0 <=? lo) && (lo <=? len t) then Some (skipn (Z.to_nat lo) t) else None.
Definition sliceTo (t : XDRTag) (hi : Z) : panics XDRTag :=
  if (0 <=? hi) && (hi <=? len t) then Some (firstn (Z.to_nat hi) t) else None.

(** [valAt]: in Go [|] and [+] bind alike and associate to the left. *)
Definition valAt (t : XDRTag) (offs : Z) : panics Z :=
  _ <- at_ t (offs + 3) ;;
  b0 <- at_ t offs ;;
  b1 <- at_ t (offs + 1) ;;
  b2 <- at_ t (offs + 2) ;;
  b3 <- at_ t (offs + 3) ;;
  Some (Z.lor (Z.lor (Z.shiftl b0 24) (Z.shiftl b1 16)) (Z.shiftl b2 8) + b3).

Definition thisLen (t : XDRTag) : panics Z :=
  match t with
  | [] => Some 0
  | b :: _ =>
      if b2z b <? 0x80 then Some 1
      else if b2z b <? 0xC0 then Some 5
      else v <- valAt t 1 ;; Some (5 + v * 4)
  end.

Definition Next (t : XDRTag) : panics XDRTag :=
  l <- thisLen t ;;
  if len t =? l then Some [] else sliceFrom t l.

Definition OnlyValue (t : XDRTag) : panics Z := valAt t 1.

Definition ValueRange (t : XDRTag) : panics (Z * Z) :=
  t0 <- at_ t 0 ;;
  if t0 <? 0x80 then Some (0, 0)
  else if t0 <? 0xC0 then _ <- at_ t 4 ;; Some (0, 1)
  else v <- valAt t 1 ;;
       let max := 1 + v in
       _ <- at_ t (4 * max) ;; Some (1, max).

Definition Value (t : XDRTag) (n : Z) : panics Z := valAt t (1 + 4 * n).

Definition be32 (v : Z) : list byte :=
  [z2b (Z.shiftr v 24); z2b (Z.shiftr v 16); z2b (Z.shiftr v 8); z2b v].

Definition Append (t : XDRTag) (k : XDRTagKind) (values : list Z)
  : panics XDRTag :=
  if k <? 0x80 then
    match values with
    | [] => Some (t ++ [z2b k])
    | _ => None
    end
  else if k <? 0xC0 then
    match values with
    | [v] => Some (t ++ z2b k :: be32 v)
    | _ => None
    end
  else
    let nv := uint32 (Z.of_nat (List.length values)) in
    Some (fold_left (fun tb v => tb ++ be32 v) values (t ++ z2b k :: be32 nv)).

Definition Prepend (t : XDRTag) (k : XDRTagKind) (values : list Z)
  : panics XDRTag :=
  nt <- Append [] k values ;; Some (nt ++ t).

(** The loop of [Trimmed]: [e] is the end of the entry at hand, [mark]
    the end of the last entry that was not a [Noop].  Every entry is at
    least one byte long, so [length t] rounds are enough. *)
Fixpoint trimLoop (fuel : nat) (ct : XDRTag) (e mark : Z) : panics Z :=
  if Empty ct then Some mark else
  match fuel with
  | O => Some mark
  | S fuel' =>
      l <- thisLen ct ;;
      let e := e + l in
      let mark := if Kind ct =? Noop then mark else e in
      ct' <- Next ct ;;
      trimLoop fuel' ct' e mark
  end.

Definition Trimmed (t : XDRTag) : panics XDRTag :=
  mark <- trimLoop (List.length t) t 0 0 ;; sliceTo t mark.

Definition Bytes (t : XDRTag) : list byte := t.

Definition emptyTag : XDRTag := [].
Definition skipTag : XDRTag := [z2b Skip].

Definition validForUnionSwitch (t : reflect.Type') : bool :=
  match reflect.kindOf t with
  | reflect.Bool
  | reflect.Int | reflect.Int8 | reflect.Int16 | reflect.Int32
  | reflect.Int64
  | reflect.Uint | reflect.Uint8 | reflect.Uint16 | reflect.Uint32 => true
  | _ => false
  end.

Definition canBeOpt (t : reflect.Type') : bool :=
  match reflect.kindOf t with
  | reflect.Interface | reflect.Ptr => true
  | _ => false
  end.

Inductive IsInUnion : Set := MaybeInUnion | NotInUnion | InUnion.

Definition IsInUnion_eqb (a b : IsInUnion) : bool :=
  match a, b with
  | MaybeInUnion, MaybeInUnion | NotInUnion, NotInUnion
  | InUnion, InUnion => true
  | _, _ => false
  end.

(** [t.Elem()], for the kinds [ParseTag] descends through. *)
Definition Elem (t : reflect.Type') : panics reflect.Type' :=
  match t with
  | reflect.ArrayOf _ e | reflect.SliceOf e | reflect.MapOf _ e
  | reflect.PtrTo e => Some e
  | _ => None
  end.

(** *** The struct-tag parser

    [strconv.ParseUint] is Go's; the parser is stated over any function
    of its signature [(s, base, bitSize) -> (value, error)]. *)
Section Parser.

Variable ParseUint : string -> Z -> Z -> Z * option error.

Definition parseU32 (s : string) : Z * option error :=
  let (u64, err) := ParseUint s 0 32 in (uint32 u64, err).

Fixpoint parseU32s_loop (vals : list string) (u32s : list Z)
  : list Z * option error :=
  match vals with
  | [] => (u32s, None)
  | v :: vals' =>
      let (u32, err) := parseU32 v in
      match err with
      | Some e => ([], Some e)
      | None => parseU32s_loop vals' (u32s ++ [u32])
      end
  end.

Definition parseU32s (s : string) : list Z * option error :=
  parseU32s_loop (strings.Split s ","%char) [].

(** What one round of the layer loop leaves behind: the tag so far,
    the type cursor, and the error that ends the parse, if any. *)
Definition layerStep (p : string) (xt : XDRTag) (t : reflect.Type')
  : panics (XDRTag * reflect.Type' * option error) :=
  if String.eqb p "" then
    xt <- Append xt Noop [] ;; Some (xt, t, None)
  else if String.eqb p "opt" then
    if negb (canBeOpt t) then
      Some (xt, t, Some (Errorf "Type %s cannot be 'opt'" [AType t]))
    else xt <- Append xt Opt [] ;; Some (xt, t, None)
  else if String.eqb p "opaque" then
    '(xt, t) <- match reflect.kindOf t with
                | reflect.Array | reflect.Slice =>
                    xt <- Append xt Noop [] ;;
                    t <- Elem t ;; Some (xt, t)
                | _ => Some (xt, t)
                end ;;
    match reflect.kindOf t with
    | reflect.Int8 | reflect.Uint8 =>
        xt <- Append xt Opaque [] ;; Some (xt, t, None)
    | _ =>
        Some (xt, t,
              Some (Errorf
                "'opaque' label applied to %s, but only applicable to bytes"
                [AType t]))
    end
  else if strings.HasPrefix p "len:" then
    let (len, err) := parseU32 (strings.from 4 p) in
    match err with
    | Some e =>
        Some (xt, t,
              Some (Errorf "Error parsing XDR `len:` tag: %v" [AErr e]))
    | None =>
        match reflect.kindOf t with
        | reflect.Array =>
            Some (xt, t,
                  Some (Errorf
                    "Cannot apply `len:` tag to an array; just specify length directly"
                    []))
        | reflect.String | reflect.Slice =>
            xt <- Append xt Len [len] ;; Some (xt, t, None)
        | _ =>
            Some (xt, t,
                  Some (Errorf
                    "Cannot apply `len:` tag to %s; must be slice, string or map"
                    [AType t]))
        end
    end
  else if strings.HasPrefix p "maxlen:" then
    let (len, err) := parseU32 (strings.from 7 p) in
    match err with
    | Some e =>
        Some (xt, t,
              Some (Errorf "Error parsing XDR `maxlen:` tag: %v" [AErr e]))
    | None =>
        match reflect.kindOf t with
        | reflect.String | reflect.Slice =>
            xt <- Append xt MaxLen [len] ;; Some (xt, t, None)
        | _ =>
            Some (xt, t,
                  Some (Errorf
                    "Cannot apply `maxlen:` tag to %s; must be slice, string or map"
                    [AType t]))
        end
    end
  else
    Some (xt, t, Some (Errorf "Unknown XDR tag '%s'" [AString p])).

(** The loop over the slash-separated layers, from [parts[i:]] on. *)
Fixpoint layers (parts : list string) (xt : XDRTag) (t : reflect.Type')
  : panics (XDRTag * option error) :=
  match parts with
  | [] => xt <- Trimmed xt ;; Some (xt, None)
  | part :: rest =>
      '(xt, t, err) <- layerStep (strings.TrimSpace part) xt t ;;
      match err with
      | Some e => Some (xt, Some e)
      | None =>
          match rest with
          | [] => layers rest xt t
          | _ :: _ =>
              match reflect.kindOf t with
              | reflect.Array | reflect.Map | reflect.Ptr
              | reflect.Slice =>
                  t <- Elem t ;; layers rest xt t
              | _ =>
                  Some (xt,
                        Some (Errorf
                          "Trailing tags (%v) after reaching type %s"
                          [AStrings parts; AType t]))
              end
          end
      end
  end.

(** [ParseTag(t, stags, isUnion)]: the tag, the error and the value
    left in [*isUnion]. *)
Definition ParseTag (t : reflect.Type') (stags : string)
  (isUnion : IsInUnion) : panics (XDRTag * option error * IsInUnion) :=
  let stags := strings.TrimSpace stags in
  if String.eqb stags "-" then Some (skipTag, None, isUnion) else
  let xt : XDRTag := [] in
  match strings.Split stags "/"%char with
  | [] => None
  | p :: parts' =>
      let continue xt isUnion parts :=
        '(xt, err) <- layers parts xt t ;; Some (xt, err, isUnion) in
      if strings.HasPrefix p "union:" then
        if String.eqb p "union:switch" then
          if negb (IsInUnion_eqb isUnion MaybeInUnion) then
            Some (xt,
                  Some (Errorf
                    "Found field annotated with `union:switch` tag which is not legal in a struct which is not a union or already has a switch"
                    []),
                  isUnion)
          else if negb (validForUnionSwitch t) then
            Some (xt,
                  Some (Errorf "Type %s not legal for union switch"
                          [AType t]),
                  isUnion)
          else
            xt <- Append xt UnionSwitch [] ;; continue xt InUnion parts'
        else if negb (IsInUnion_eqb isUnion InUnion) then
          Some (xt,
                Some (Errorf
                  "'%s' union tag not valid as we are not inside a union"
                  [AString p]),
                isUnion)
        else if String.eqb p "union:false" then
          xt <- Append xt UnionCases [0] ;; continue xt isUnion parts'
        else if String.eqb p "union:true" then
          xt <- Append xt UnionCases [1] ;; continue xt isUnion parts'
        else if String.eqb p "union:default" then
          xt <- Append xt UnionDefault [] ;; continue xt isUnion parts'
        else
          let (vals, err) := parseU32s (strings.TrimPrefix p "union:") in
          match err with
          | Some e =>
              Some (xt,
                    Some (Errorf "Parsing `union:` values: %v" [AErr e]),
                    isUnion)
          | None =>
              xt <- Append xt UnionCases vals ;;
              continue xt isUnion parts'
          end
      else if IsInUnion_eqb isUnion InUnion then
        Some (xt,
              Some (Errorf
                "Every field inside a union struct must have a `union:` leading tag"
                []),
              isUnion)
      else continue xt NotInUnion (p :: parts')
  end.

(** [ParseStructTag(t, rtag, isUnion)], with [rtag.Get("xdr")] applied. *)
Definition ParseStructTag (t : reflect.Type') (xdr : string)
  (isUnion : IsInUnion) : panics (XDRTag * option error * IsInUnion) :=
  ParseTag t xdr isUnion.

End Parser.

End tags.

(** ** internal/errors *)

Module errors.

Definition xerror_eqb (a b : xerror) : bool :=
  match a, b with
  | ErrLengthExceedsMax, ErrLengthExceedsMax
  | ErrLengthExceedsPlatformLimit, ErrLengthExceedsPlatformLimit
  | ErrLengthIncorrect, ErrLengthIncorrect
  | ErrUnionSwitchArmUndefined, ErrUnionSwitchArmUndefined
  | ErrNotPointer, ErrNotPointer
  | ErrInvalidValue, ErrInvalidValue
  | ErrNilPointer, ErrNilPointer => true
  | _, _ => false
  end.

(** [func (err LengthError) Is(target error) bool] *)
Definition LengthError_Is (Actual Max : Z) (target : xerror) : bool :=
  match target with
  | ErrLengthExceedsMax => Max <? Actual
  | ErrLengthExceedsPlatformLimit => uint64 maxInt <? Actual
  | _ => false
  end.

(** [func (err FieldError) Unwrap() error] *)
Definition Unwrap (err : error) : option error :=
  match err with
  | FieldError u _ => Some u
  | _ => None
  end.

(** Go's [errors.Is(err, target)] for a sentinel target: equal to it,
    or accepted by the error's own [Is], or so after [Unwrap]. *)
Fixpoint Is (err : error) (target : xerror) : bool :=
  match err with
  | Xerror x => xerror_eqb x target
  | LengthError a m => LengthError_Is a m target
  | FieldError u _ => Is u target
  | _ => false
  end.

Definition WithFieldError (err : option error) (parts : list string)
  : panics (option error) :=
  match err with
  | None => Some None
  | Some err =>
      match parts with
      | [] => None
      | p0 :: ps =>
          let parts :=
            (if String.eqb p0 "" then "<anonymous>"%string else p0) :: ps in
          let combined :=
            match parts with
            | [a] => a
            | [a; b; c] => (a ++ "." ++ b ++ "(" ++ c ++ ")")%string
            | _ => strings.Join parts "."
            end in
          match err with
          | FieldError u path =>
              Some (Some (FieldError u (combined ++ " " ++ path)%string))
          | _ => Some (Some (FieldError err combined))
          end
      end
  end.

End errors.

(** ** internal/coder *)

Module coder.

Import reflect.

(** *** [math]: floats as bit patterns *)

Definition isNaN32 (bits : Z) : bool :=
  (Z.land (Z.shiftr bits 23) 0xFF =? 0xFF) && negb (Z.land bits 0x7FFFFF =? 0).
Definition isNaN64 (bits : Z) : bool :=
  (Z.land (Z.shiftr bits 52) 0x7FF =? 0x7FF) &&
  negb (Z.land bits (2^52 - 1) =? 0).

(** [float32(float64(f))], the trip a [float32] makes through
    [reflect.Value.Float] and [SetFloat]: the value is kept; a signalling
    NaN comes back with its quiet bit set. *)
Definition viaFloat64 (bits : Z) : Z :=
  if isNaN32 bits then Z.lor bits 0x400000 else bits.

(** *** [io]: a [bytes.Reader] and a [bytes.Buffer] *)

Definition Reader := list byte.
Definition Buffer := list byte.

(** [io.ReadFull(r, buf)]: fills [buf] from the front, and reports [EOF]
    when nothing could be read and [ErrUnexpectedEOF] when the source
    ended part-way. *)
Definition ReadFull (r : Reader) (buf : list byte)
  : Reader * list byte * Z * option error :=
  let want := List.length buf in
  let got := firstn want r in
  let n := List.length got in
  let err := if Nat.eqb n want then None
             else if Nat.eqb n 0 then Some EOF
             else Some ErrUnexpectedEOF in
  (skipn want r, got ++ skipn n buf, Z.of_nat n, err).

(** [Write] and [WriteString] of a [bytes.Buffer]: they append. *)
Definition Write (w : Buffer) (p : list byte) : Buffer * option error :=
  (w ++ p, None).

(** *** decoder *)

Definition decoder := Reader.

Definition DecodeUnsignedInt (d : decoder) : decoder * Z * option error :=
  let '(d, b, _, err) := ReadFull d (zeros 4) in
  let at_ i := b2z (nth i b x00) in
  (d,
   Z.lor (Z.lor (Z.lor (Z.shiftl (at_ 0%nat) 24) (Z.shiftl (at_ 1%nat) 16))
                (Z.shiftl (at_ 2%nat) 8))
         (at_ 3%nat),
   err).

Definition DecodeBool (d : decoder) : decoder * bool * option error :=
  let '(d, i, err) := DecodeUnsignedInt d in
  if i =? 0 then (d, false, err)
  else if i =? 1 then (d, true, err)
  else match err with
       | Some e => (d, false, Some e)
       | None => (d, false, Some (Xerror ErrInvalidValue))
       end.

Definition DecodeInt (d : decoder) : decoder * Z * option error :=
  let '(d, u, err) := DecodeUnsignedInt d in (d, int32 u, err).

Definition DecodeUnsignedHyper (d : decoder) : decoder * Z * option error :=
  let '(d, b, _, err) := ReadFull d (zeros 8) in
  let at_ i := b2z (nth i b x00) in
  (d,
   Z.lor (Z.lor (Z.lor (Z.lor (Z.lor (Z.lor (Z.lor
     (Z.shiftl (at_ 0%nat) 56)
     (Z.shiftl (at_ 1%nat) 48))
     (Z.shiftl (at_ 2%nat) 40))
     (Z.shiftl (at_ 3%nat) 32))
     (Z.shiftl (at_ 4%nat) 24))
     (Z.shiftl (at_ 5%nat) 16))
     (Z.shiftl (at_ 6%nat) 8))
     (at_ 7%nat),
   err).

Definition DecodeHyper (d : decoder) : decoder * Z * option error :=
  let '(d, u, err) := DecodeUnsignedHyper d in (d, int64 u, err).

(** [math.Float32frombits] and [Float64frombits] are the identity on
    bit patterns. *)
Definition DecodeFloat (d : decoder) : decoder * Z * option error :=
  DecodeUnsignedInt d.

Definition DecodeDouble (d : decoder) : decoder * Z * option error :=
  DecodeUnsignedHyper d.

(** [DecodeOpaque(maxLen)]: a nil slice is [None]. *)
Definition DecodeOpaque (d : decoder) (maxLen : Z)
  : decoder * option (list byte) * option error :=
  let '(d, l, err) := DecodeUnsignedInt d in
  match err with
  | Some e => (d, None, Some e)
  | None =>
      if l =? 0 then (d, None, None)
      else if uint64 maxLen <? uint64 l then
        (d, None, Some (LengthError (uint64 l) (uint64 maxLen)))
      else
        let lPad := Z.land (l + 3) (Z.lnot 3) in
        let buf := zeros (Z.to_nat lPad) in
        let '(d, buf, _, err) := ReadFull d buf in
        (d, Some (firstn (Z.to_nat l) buf), None)
  end.

(** [DecodeFixedOpaque(buf)]: the buffer as it is left, and the error. *)
Definition DecodeFixedOpaque (d : decoder) (buf : list byte)
  : decoder * list byte * option error :=
  let '(d, buf, n, err) := ReadFull d buf in
  match err with
  | Some e => (d, buf, Some e)
  | None =>
      let n := Z.land (n + 3) (Z.lnot 3) - n in
      if negb (n =? 0) then
        let '(d, _, _, err) := ReadFull d (zeros (Z.to_nat n)) in
        (d, buf, err)
      else (d, buf, err)
  end.

Definition DecodeString (d : decoder) (maxLen : Z)
  : decoder * list byte * option error :=
  let '(d, b, err) := DecodeOpaque d maxLen in
  match err with
  | Some e => (d, [], Some e)
  | None => (d, match b with Some s => s | None => [] end, err)
  end.

(** [make([]byte, len)] panics on a negative length. *)
Definition DecodeFixedString (d : decoder) (len : Z)
  : panics (decoder * list byte * option error) :=
  if len <? 0 then None
  else Some (DecodeFixedOpaque d (zeros (Z.to_nat len))).

(** *** [OpaqueReader]

    The reader [OpaqueReader] hands out reads from the decoder's source:
    an [io.LimitedReader] over it, with the length of the padding that
    [Close] skips after the body.  The source is threaded through each
    call. *)

(** [bytes.Reader.Read(b)], for [len(b) = n]. *)
Definition bytesRead (r : Reader) (n : nat)
  : Reader * list byte * option error :=
  match r with
  | [] => (r, [], Some EOF)
  | _ :: _ => (skipn n r, firstn n r, None)
  end.

Record opaqueReader : Set := mkOpaqueReader {
  lrN : Z;      (* lr.N *)
  padLen : Z
}.

(** [newOpaqueReader(r, len)] *)
Definition newOpaqueReader (len : Z) : opaqueReader :=
  mkOpaqueReader len
    (uint8 (int64 (Z.land (int64 (len + 3)) (Z.lnot 3) - len))).

(** [io.LimitedReader.Read(p)], for [len(p) = n]; [opaqueReader.Read] is
    this call. *)
Definition limitedRead (o : opaqueReader) (r : Reader) (n : nat)
  : opaqueReader * Reader * list byte * option error :=
  if lrN o <=? 0 then (o, r, [], Some EOF)
  else
    let n := if lrN o <? Z.of_nat n then Z.to_nat (lrN o) else n in
    let '(r, got, err) := bytesRead r n in
    (mkOpaqueReader (int64 (lrN o - Z.of_nat (List.length got))) (padLen o),
     r, got, err).

(** [io.Copy(ioutil.Discard, &o.lr)]: [Discard] reads into a buffer of
    8192 bytes until the reader reports an error, and takes [io.EOF] for
    the end.  Every round but the last consumes a byte, so [fuel] rounds
    are enough for a source of fewer bytes; [None] is the fuel running
    out. *)
Fixpoint discardAll (fuel : nat) (o : opaqueReader) (r : Reader)
  : option (opaqueReader * Reader * option error) :=
  match fuel with
  | O => None
  | S fuel' =>
      let '(o, r, _, err) := limitedRead o r (Z.to_nat 8192) in
      match err with
      | Some EOF => Some (o, r, None)
      | Some e => Some (o, r, Some e)
      | None => discardAll fuel' o r
      end
  end.

(** [opaqueReader.Close()] *)
Definition Close (o : opaqueReader) (r : Reader)
  : option (opaqueReader * Reader * option error) :=
  let o := mkOpaqueReader (int64 (lrN o + int64 (padLen o))) (padLen o) in
  discardAll (S (List.length r)) o r.

(** [decoder.FixedOpaqueReader(len)] and [decoder.OpaqueReader(maxLen)]:
    the length, the reader if there is one, and the error. *)
Definition FixedOpaqueReader (len : Z) : opaqueReader :=
  newOpaqueReader (int64 len).

Definition OpaqueReader (d : decoder) (maxLen : Z)
  : decoder * Z * option opaqueReader * option error :=
  let '(d, l, err) := DecodeUnsignedInt d in
  match err with
  | Some e => (d, 0, None, Some e)
  | None =>
      if maxLen <? l then
        (d, l, None, Some (LengthError (uint64 l) (uint64 maxLen)))
      else (d, l, Some (FixedOpaqueReader l), None)
  end.

(** *** encoder *)

Definition encoder := Buffer.

Definition EncodeInt (w : encoder) (i : Z) : encoder * option error :=
  Write w [z2b (Z.shiftr i 24); z2b (Z.shiftr i 16); z2b (Z.shiftr i 8);
           z2b i].

Definition EncodeUnsignedInt (w : encoder) (i : Z) : encoder * option error :=
  EncodeInt w (int32 i).

Definition EncodeBool (w : encoder) (b : bool) : encoder * option error :=
  let i := if b then 1 else 0 in
  EncodeInt w (int32 i).

Definition EncodeHyper (w : encoder) (i : Z) : encoder * option error :=
  Write w [z2b (Z.shiftr i 56); z2b (Z.shiftr i 48); z2b (Z.shiftr i 40);
           z2b (Z.shiftr i 32); z2b (Z.shiftr i 24); z2b (Z.shiftr i 16);
           z2b (Z.shiftr i 8); z2b i].

Definition EncodeUnsignedHyper (w : encoder) (u : Z)
  : encoder * option error :=
  EncodeHyper w (int64 u).

Definition blen (buf : list byte) : Z := Z.of_nat (List.length buf).

Definition EncodeFixedOpaque (w : encoder) (buf : list byte)
  : encoder * option error :=
  let (w, err) := Write w buf in
  match err with
  | Some e => (w, Some e)
  | None =>
      let padding := Z.land (4 - Z.land (blen buf) 3) 3 in
      Write w (firstn (Z.to_nat padding) (zeros 4))
  end.

Definition EncodeOpaque (w : encoder) (buf : list byte)
  : encoder * option error :=
  if uint64 MaxUint32 <? uint64 (blen buf) then
    (w, Some (LengthError (uint64 (blen buf)) MaxUint32))
  else
    let (w, err) := EncodeUnsignedInt w (uint32 (blen buf)) in
    match err with
    | Some e => (w, Some e)
    | None => EncodeFixedOpaque w buf
    end.

Definition EncodeFixedString (w : encoder) (s : list byte)
  : encoder * option error :=
  let (w, err) := Write w s in
  match err with
  | Some e => (w, Some e)
  | None =>
      let padding := Z.land (4 - Z.land (blen s) 3) 3 in
      Write w (firstn (Z.to_nat padding) (zeros 4))
  end.

Definition EncodeString (w : encoder) (s : list byte)
  : encoder * option error :=
  if uint64 MaxUint32 <? uint64 (blen s) then
    (w, Some (LengthError (uint64 (blen s)) MaxUint32))
  else
    let (w, err) := EncodeUnsignedInt w (uint32 (blen s)) in
    match err with
    | Some e => (w, Some e)
    | None => EncodeFixedString w s
    end.

(** [math.Float32bits] and [Float64bits] are the identity on bit
    patterns. *)
Definition EncodeFloat (w : encoder) (f : Z) : encoder * option error :=
  EncodeUnsignedInt w f.

Definition EncodeDouble (w : encoder) (f : Z) : encoder * option error :=
  EncodeUnsignedHyper w f.

(** *** The codec tree

    One constructor per codec type of the package, with the fields of
    its Go struct ([size], an offset for pointer arithmetic, left out).
    A codec call returns an error, returns nil, or panics. *)

Definition outcome := panics (option error).

Inductive switchKind : Set :=
| switchKindBool | switchKindInt | switchKindUint.

Record field_ (C : Type) : Type := mkField {
  index : nat;
  codec : C;
  name : string
}.
Arguments mkField {C}.
Arguments index {C}.
Arguments codec {C}.
Arguments name {C}.

Inductive xCodec : Type :=
| boolCodec
| int8Codec | int16Codec | int32Codec
| uint8Codec | uint16Codec | uint32Codec
| hyperCodec | uhyperCodec
| floatCodec | doubleCodec
| complex64Codec | complex128Codec
| fixedStringCodec (len : Z)
| varStringCodec (maxlen : Z) (origMax : Z)
| opaqueArrayCodec (len : Z)
| arrayCodec (elem : xCodec) (len : Z)
| opaqueSliceCodec (maxlen : Z) (origMax : Z)
| sliceCodec (elem : xCodec) (t : Type') (maxlen : Z) (origMax : Z)
| mapCodec (keyCodec valueCodec : xCodec) (t kt vt : Type')
           (maxlen : Z) (origMax : Z)
| optCodec (elem : xCodec) (nilp : Value)
| ptrCodec (elem : xCodec) (elemt : Type')
| structCodec (name : string) (fields : list (field_ xCodec))
| unionCodec (name : string) (switchField : field_ xCodec)
             (bodyFields : list (option (field_ xCodec)))
             (cases : list (Z * Z)) (defaultCase : Z) (sk : switchKind)
| errorCodec (err : error).

Definition field := field_ xCodec.

(** *** [reflect.Value] methods the codecs call *)

(** [v.Field(i)] *)
Definition Field (p : Value) (i : nat) : panics Value :=
  match p with
  | VStruct fs => nth_error fs i
  | _ => None
  end.

Fixpoint setNth {A} (l : list A) (i : nat) (x : A) : list A :=
  match l, i with
  | [], _ => []
  | _ :: l', O => x :: l'
  | y :: l', S i' => y :: setNth l' i' x
  end.

(** Storing through the value [v.Field(i)] aliases. *)
Definition setField (p : Value) (i : nat) (x : Value) : Value :=
  match p with
  | VStruct fs => VStruct (setNth fs i x)
  | _ => p
  end.

(** [v.IsNil()] *)
Definition IsNil (v : Value) : panics bool :=
  match v with
  | VPtr None | VSlice None | VMap None | VNil => Some true
  | VPtr (Some _) | VSlice (Some _) | VMap (Some _) => Some false
  | _ => None
  end.

(** [v.Bytes()]: the elements must be of kind [Uint8]. *)
Fixpoint bytesOf (l : list Value) : panics (list byte) :=
  match l with
  | [] => Some []
  | VUint u :: l' => bs <- bytesOf l' ;; Some (z2b u :: bs)
  | _ :: _ => None
  end.

(** [reflect.ValueOf(s)] for a byte slice [s]. *)
Definition ofBytes (s : list byte) : list Value :=
  map (fun b => VUint (b2z b)) s.

(** Go's [==] on map keys.  Pointers compare by identity; every pointer
    the decoder stores is fresh, so only nil pointers compare equal. *)
Definition feq32 (x y : Z) : bool :=
  negb (isNaN32 x) && negb (isNaN32 y) &&
  ((x =? y) || ((Z.land x 0x7FFFFFFF =? 0) && (Z.land y 0x7FFFFFFF =? 0))).
Definition feq64 (x y : Z) : bool :=
  negb (isNaN64 x) && negb (isNaN64 y) &&
  ((x =? y) ||
   ((Z.land x (2^63 - 1) =? 0) && (Z.land y (2^63 - 1) =? 0))).

Fixpoint bytes_eqb (a b : list byte) : bool :=
  match a, b with
  | [], [] => true
  | x :: a', y :: b' => Byte.eqb x y && bytes_eqb a' b'
  | _, _ => false
  end.

Fixpoint keyEq (a b : Value) {struct a} : bool :=
  let all2 :=
    fix all2 (l1 l2 : list Value) {struct l1} : bool :=
      match l1, l2 with
      | [], [] => true
      | p :: l1', q :: l2' => keyEq p q && all2 l1' l2'
      | _, _ => false
      end in
  match a, b with
  | VBool x, VBool y => Bool.eqb x y
  | VInt x, VInt y => x =? y
  | VUint x, VUint y => x =? y
  | VFloat32 x, VFloat32 y => feq32 x y
  | VFloat64 x, VFloat64 y => feq64 x y
  | VComplex64 r1 i1, VComplex64 r2 i2 => feq32 r1 r2 && feq32 i1 i2
  | VComplex128 r1 i1, VComplex128 r2 i2 => feq64 r1 r2 && feq64 i1 i2
  | VString x, VString y => bytes_eqb x y
  | VArray x, VArray y => all2 x y
  | VStruct x, VStruct y => all2 x y
  | VPtr None, VPtr None => true
  | VNil, VNil => true
  | _, _ => false
  end.

(** [m.SetMapIndex(k, v)] *)
Fixpoint SetMapIndex (m : list (Value * Value)) (k v : Value)
  : list (Value * Value) :=
  match m with
  | [] => [(k, v)]
  | (k', v') :: m' =>
      if keyEq k' k then (k', v) :: m' else (k', v') :: SetMapIndex m' k v
  end.

(** *** The loops of the composite codecs

    Stated over the [Encode] or [Decode] method of the element codec, so
    that the tree walk below is structural. *)

Definition encFn := encoder -> Value -> encoder * outcome.
Definition decFn := decoder -> Value -> decoder * Value * outcome.

Definition ret {S} (r : S * option error) : S * outcome :=
  let (s, err) := r in (s, Some err).

(** [for i := 0; i < l; i++ { elem.Encode(e, v.Index(i)) }] *)
Fixpoint encodeElems (enc : encFn) (l : list Value) (e : encoder)
  : encoder * outcome :=
  match l with
  | [] => (e, Some None)
  | x :: l' =>
      match enc e x with
      | (e, Some None) => encodeElems enc l' e
      | (e, r) => (e, r)
      end
  end.

(** [for i := 0; i < l; i++ { elem.Decode(d, v.Index(i)) }]: the
    elements are decoded in place. *)
Fixpoint decodeElems (dec : decFn) (l : list Value) (d : decoder)
  : decoder * list Value * outcome :=
  match l with
  | [] => (d, [], Some None)
  | x :: l' =>
      match dec d x with
      | (d, x', Some None) =>
          let '(d, l'', r) := decodeElems dec l' d in (d, x' :: l'', r)
      | (d, x', r) => (d, x' :: l', r)
      end
  end.

(** The [MapRange] loop of [mapCodec.Encode]. *)
Fixpoint encodeEntries (kenc venc : encFn) (m : list (Value * Value))
  (e : encoder) : encoder * outcome :=
  match m with
  | [] => (e, Some None)
  | (k, v) :: m' =>
      match kenc e k with
      | (e, Some None) =>
          match venc e v with
          | (e, Some None) => encodeEntries kenc venc m' e
          | (e, r) => (e, r)
          end
      | (e, r) => (e, r)
      end
  end.

(** The loop of [mapCodec.Decode]: [n] fresh keys and values. *)
Fixpoint decodeEntries (kdec vdec : decFn) (kz vz : Value) (n : nat)
  (d : decoder) (m : list (Value * Value))
  : decoder * list (Value * Value) * outcome :=
  match n with
  | O => (d, m, Some None)
  | S n' =>
      match kdec d kz with
      | (d, k, Some None) =>
          match vdec d vz with
          | (d, vv, Some None) =>
              decodeEntries kdec vdec kz vz n' d (SetMapIndex m k vv)
          | (d, _, r) => (d, m, r)
          end
      | (d, _, r) => (d, m, r)
      end
  end.

(** A field with the method of its codec taken. *)
Record bound (F : Type) : Type := mkBound {
  bindex : nat;
  bname : string;
  bfn : F
}.
Arguments mkBound {F}.
Arguments bindex {F}.
Arguments bname {F}.
Arguments bfn {F}.

(** [func (f *field) encode(e, p) (reflect.Value, error)] *)
Definition field_encode (f : bound encFn) (e : encoder) (p : Value)
  : encoder * panics (Value * option error) :=
  match Field p (bindex f) with
  | None => (e, None)
  | Some v =>
      match bfn f e v with
      | (e, None) => (e, None)
      | (e, Some err) => (e, Some (v, err))
      end
  end.

(** [func (f *field) decode(d, p) (reflect.Value, error)]: the parent
    with the field as the codec left it, the field, and the error. *)
Definition field_decode (f : bound decFn) (d : decoder) (p : Value)
  : decoder * Value * panics (Value * option error) :=
  match Field p (bindex f) with
  | None => (d, p, None)
  | Some v =>
      match bfn f d v with
      | (d, v', None) => (d, setField p (bindex f) v', None)
      | (d, v', Some err) => (d, setField p (bindex f) v', Some (v', err))
      end
  end.

(** [structCodec.encodeReflect] *)
Fixpoint struct_encode (name : string) (fields : list (bound encFn))
  (e : encoder) (v : Value) : encoder * outcome :=
  match fields with
  | [] => (e, Some None)
  | f :: fields' =>
      match field_encode f e v with
      | (e, None) => (e, None)
      | (e, Some (_, Some err)) =>
          (e, errors.WithFieldError (Some err) [name; bname f])
      | (e, Some (_, None)) => struct_encode name fields' e v
      end
  end.

(** [structCodec.Decode] *)
Fixpoint struct_decode (name : string) (fields : list (bound decFn))
  (d : decoder) (v : Value) : decoder * Value * outcome :=
  match fields with
  | [] => (d, v, Some None)
  | f :: fields' =>
      match field_decode f d v with
      | (d, v, None) => (d, v, None)
      | (d, v, Some (_, Some err)) =>
          (d, v, errors.WithFieldError (Some err) [name; bname f])
      | (d, v, Some (_, None)) => struct_decode name fields' d v
      end
  end.

(** The discriminant as the case table is keyed. *)
Definition swValOf (sk : switchKind) (swv : Value) : panics Z :=
  match sk with
  | switchKindBool =>
      match swv with
      | VBool b => Some (if b then 1 else 0)
      | _ => None
      end
  | switchKindUint =>
      match swv with
      | VUint u => Some (uint32 u)
      | _ => None
      end
  | switchKindInt =>
      match swv with
      | VInt i => Some (uint32 i)
      | _ => None
      end
  end.

(** [c.cases[swVal]] *)
Fixpoint lookupCase (cases : list (Z * Z)) (swVal : Z) : option Z :=
  match cases with
  | [] => None
  | (k, i) :: cases' => if k =? swVal then Some i else lookupCase cases' swVal
  end.

(** [c.bodyFields[caseField]]; a slot no field was stored in holds the
    zero [field], whose nil codec cannot be called. *)
Definition bodyAt {F} (body : list (option (bound F))) (caseField : Z)
  : panics (bound F) :=
  if caseField <? 0 then None
  else match nth_error body (Z.to_nat caseField) with
       | Some (Some f) => Some f
       | _ => None
       end.

Definition unionPath (n : Z) : string := ("union:0x" ++ fmt_x n)%string.

(** [unionCodec.encodeReflect] *)
Definition union_encode (name : string) (switchField : bound encFn)
  (bodyFields : list (option (bound encFn))) (cases : list (Z * Z))
  (defaultCase : Z) (sk : switchKind) (e : encoder) (v : Value)
  : encoder * outcome :=
  match field_encode switchField e v with
  | (e, None) => (e, None)
  | (e, Some (_, Some err)) =>
      (e, errors.WithFieldError (Some err)
            [name; bname switchField; "union:switch"%string])
  | (e, Some (swv, None)) =>
      match swValOf sk swv with
      | None => (e, None)
      | Some swVal =>
          let caseField :=
            match lookupCase cases swVal with
            | Some i => i
            | None => defaultCase
            end in
          if caseField =? -1 then
            (e, errors.WithFieldError
                  (Some (Xerror ErrUnionSwitchArmUndefined))
                  [name; "?"%string; unionPath caseField])
          else
            match bodyAt bodyFields caseField with
            | None => (e, None)
            | Some f =>
                match field_encode f e v with
                | (e, None) => (e, None)
                | (e, Some (_, Some err)) =>
                    (e, errors.WithFieldError (Some err)
                          [name; bname f; unionPath swVal])
                | (e, Some (_, None)) => (e, Some None)
                end
            end
      end
  end.

(** [unionCodec.Decode] *)
Definition union_decode (name : string) (switchField : bound decFn)
  (bodyFields : list (option (bound decFn))) (cases : list (Z * Z))
  (defaultCase : Z) (sk : switchKind) (d : decoder) (v : Value)
  : decoder * Value * outcome :=
  match field_decode switchField d v with
  | (d, v, None) => (d, v, None)
  | (d, v, Some (_, Some err)) =>
      (d, v, errors.WithFieldError (Some err)
               [name; bname switchField; "union:switch"%string])
  | (d, v, Some (swv, None)) =>
      match swValOf sk swv with
      | None => (d, v, None)
      | Some swVal =>
          let caseField :=
            match lookupCase cases swVal with
            | Some i => i
            | None => defaultCase
            end in
          if caseField =? -1 then
            (d, v, errors.WithFieldError
                     (Some (Xerror ErrUnionSwitchArmUndefined))
                     [name; "?"%string; unionPath caseField])
          else
            match bodyAt bodyFields caseField with
            | None => (d, v, None)
            | Some f =>
                match field_decode f d v with
                | (d, v, None) => (d, v, None)
                | (d, v, Some (_, Some err)) =>
                    (d, v, errors.WithFieldError (Some err)
                             [name; bname f; unionPath swVal])
                | (d, v, Some (_, None)) => (d, v, Some None)
                end
            end
      end
  end.

(** *** [Encode]

    The reflection methods of each codec ([Encode]/[Decode]; the
    [encodeUnsafe]/[decodeUnsafe] twins do the same on raw memory).  A
    value of another kind than the codec's makes the [reflect] accessor
    panic. *)

Definition bindEnc (enc : xCodec -> encFn) (f : field_ xCodec) : bound encFn :=
  mkBound (index f) (name f) (enc (codec f)).

Fixpoint Encode (c : xCodec) (e : encoder) (v : Value) {struct c}
  : encoder * outcome :=
  match c with
  | boolCodec =>
      match v with
      | VBool b => ret (EncodeBool e b)
      | _ => (e, None)
      end
  | int8Codec | int16Codec | int32Codec =>
      match v with
      | VInt i => ret (EncodeInt e (int32 i))
      | _ => (e, None)
      end
  | uint8Codec | uint16Codec | uint32Codec =>
      match v with
      | VUint u => ret (EncodeUnsignedInt e (uint32 u))
      | _ => (e, None)
      end
  | hyperCodec =>
      match v with
      | VInt i => ret (EncodeHyper e i)
      | _ => (e, None)
      end
  | uhyperCodec =>
      match v with
      | VUint u => ret (EncodeUnsignedHyper e u)
      | _ => (e, None)
      end
  | floatCodec =>
      match v with
      | VFloat32 f => ret (EncodeFloat e (viaFloat64 f))
      | _ => (e, None)
      end
  | doubleCodec =>
      match v with
      | VFloat64 f => ret (EncodeDouble e f)
      | _ => (e, None)
      end
  | complex64Codec =>
      match v with
      | VComplex64 re im =>
          match EncodeFloat e (viaFloat64 re) with
          | (e, Some err) => (e, Some (Some err))
          | (e, None) => ret (EncodeFloat e (viaFloat64 im))
          end
      | _ => (e, None)
      end
  | complex128Codec =>
      match v with
      | VComplex128 re im =>
          match EncodeDouble e re with
          | (e, Some err) => (e, Some (Some err))
          | (e, None) => ret (EncodeDouble e im)
          end
      | _ => (e, None)
      end
  | fixedStringCodec len =>
      match v with
      | VString s =>
          if uint64 (blen s) =? uint64 len then ret (EncodeFixedString e s)
          else (e, Some (Some (Xerror ErrLengthIncorrect)))
      | _ => (e, None)
      end
  | varStringCodec maxlen origMax =>
      match v with
      | VString s =>
          if uint64 (blen s) <=? uint64 maxlen then ret (EncodeString e s)
          else (e, Some (Some (LengthError (uint64 (blen s))
                                           (uint64 origMax))))
      | _ => (e, None)
      end
  | opaqueArrayCodec len =>
      match v with
      | VArray l =>
          match bytesOf l with
          | Some s => ret (EncodeFixedOpaque e s)
          | None => (e, None)
          end
      | _ => (e, None)
      end
  | arrayCodec elem len =>
      match v with
      | VArray l => encodeElems (Encode elem) l e
      | _ => (e, None)
      end
  | opaqueSliceCodec maxlen origMax =>
      match v with
      | VSlice l =>
          match bytesOf (match l with Some l => l | None => [] end) with
          | Some s =>
              if maxlen <? blen s then
                (e, Some (Some (LengthError (uint64 (blen s))
                                            (uint64 origMax))))
              else ret (EncodeOpaque e s)
          | None => (e, None)
          end
      | _ => (e, None)
      end
  | sliceCodec elem t maxlen origMax =>
      match v with
      | VSlice l =>
          let l := match l with Some l => l | None => [] end in
          let n := Z.of_nat (List.length l) in
          if uint64 maxlen <? uint64 n then
            (e, Some (Some (LengthError (uint64 n) (uint64 origMax))))
          else
            match EncodeUnsignedInt e (uint32 n) with
            | (e, Some err) => (e, Some (Some err))
            | (e, None) => encodeElems (Encode elem) l e
            end
      | _ => (e, None)
      end
  | mapCodec keyCodec valueCodec t kt vt maxlen origMax =>
      match v with
      | VMap m =>
          let m := match m with Some m => m | None => [] end in
          let n := Z.of_nat (List.length m) in
          if uint64 maxlen <? uint64 n then
            (e, Some (Some (LengthError (uint64 n) (uint64 origMax))))
          else
            match EncodeUnsignedInt e (uint32 n) with
            | (e, Some err) => (e, Some (Some err))
            | (e, None) =>
                encodeEntries (Encode keyCodec) (Encode valueCodec) m e
            end
      | _ => (e, None)
      end
  | optCodec elem nilp =>
      match IsNil v with
      | None => (e, None)
      | Some isNil =>
          match EncodeBool e (negb isNil) with
          | (e, Some err) => (e, Some (Some err))
          | (e, None) =>
              if isNil then (e, Some None) else Encode elem e v
          end
      end
  | ptrCodec elem elemt =>
      match v with
      | VPtr None => (e, Some (Some (Xerror ErrNilPointer)))
      | VPtr (Some x) => Encode elem e x
      | _ => (e, None)
      end
  | structCodec name fields =>
      struct_encode name (map (bindEnc Encode) fields) e v
  | unionCodec name switchField bodyFields cases defaultCase sk =>
      union_encode name (bindEnc Encode switchField)
        (map (option_map (bindEnc Encode)) bodyFields)
        cases defaultCase sk e v
  | errorCodec err => (e, Some (Some err))
  end.

(** *** [Decode]

    [Decode c d v] decodes into the slot that holds [v] and returns
    what the slot holds afterwards.  The setters ([SetBool], [SetInt],
    ...) overwrite the slot; [SetInt] and [SetUint] keep the low bits
    that fit the slot's width, which is the width the codec was built
    for. *)

Definition bindDec (dec : xCodec -> decFn) (f : field_ xCodec) : bound decFn :=
  mkBound (index f) (name f) (dec (codec f)).

Definition decodeInt (wrap : Z -> Z) (d : decoder) : decoder * Value * outcome :=
  let '(d, i, err) := DecodeInt d in (d, VInt (wrap i), Some err).

Definition decodeUint (wrap : Z -> Z) (d : decoder)
  : decoder * Value * outcome :=
  let '(d, i, err) := DecodeUnsignedInt d in (d, VUint (wrap i), Some err).

Fixpoint Decode (c : xCodec) (d : decoder) (v : Value) {struct c}
  : decoder * Value * outcome :=
  match c with
  | boolCodec =>
      let '(d, b, err) := DecodeBool d in (d, VBool b, Some err)
  | int8Codec => decodeInt int8 d
  | int16Codec => decodeInt int16 d
  | int32Codec => decodeInt int32 d
  | uint8Codec => decodeUint uint8 d
  | uint16Codec => decodeUint uint16 d
  | uint32Codec => decodeUint uint32 d
  | hyperCodec =>
      let '(d, i, err) := DecodeHyper d in (d, VInt i, Some err)
  | uhyperCodec =>
      let '(d, i, err) := DecodeUnsignedHyper d in (d, VUint i, Some err)
  | floatCodec =>
      let '(d, f, err) := DecodeFloat d in
      (d, VFloat32 (viaFloat64 f), Some err)
  | doubleCodec =>
      let '(d, f, err) := DecodeDouble d in (d, VFloat64 f, Some err)
  | complex64Codec =>
      match DecodeFloat d with
      | (d, _, Some err) => (d, v, Some (Some err))
      | (d, re, None) =>
          match DecodeFloat d with
          | (d, _, Some err) => (d, v, Some (Some err))
          | (d, im, None) =>
              (d, VComplex64 (viaFloat64 re) (viaFloat64 im), Some None)
          end
      end
  | complex128Codec =>
      match DecodeDouble d with
      | (d, _, Some err) => (d, v, Some (Some err))
      | (d, re, None) =>
          match DecodeDouble d with
          | (d, _, Some err) => (d, v, Some (Some err))
          | (d, im, None) => (d, VComplex128 re im, Some None)
          end
      end
  | fixedStringCodec len =>
      match DecodeFixedString d len with
      | None => (d, v, None)
      | Some (d, s, err) => (d, VString s, Some err)
      end
  | varStringCodec maxlen origMax =>
      let '(d, s, err) := DecodeString d maxlen in
      let err :=
        match err with
        | Some (LengthError a _) => Some (LengthError a (uint64 origMax))
        | _ => err
        end in
      (d, VString s, Some err)
  | opaqueArrayCodec len =>
      match v with
      | VArray l =>
          match bytesOf l with
          | Some s =>
              let '(d, s, err) := DecodeFixedOpaque d s in
              (d, VArray (ofBytes s), Some err)
          | None => (d, v, None)
          end
      | _ => (d, v, None)
      end
  | arrayCodec elem len =>
      match v with
      | VArray l =>
          let '(d, l, r) := decodeElems (Decode elem) l d in (d, VArray l, r)
      | _ => (d, v, None)
      end
  | opaqueSliceCodec maxlen origMax =>
      let '(d, s, err) := DecodeOpaque d maxlen in
      (d, VSlice (option_map ofBytes s), Some err)
  | sliceCodec elem t maxlen origMax =>
      match DecodeUnsignedInt d with
      | (d, _, Some err) => (d, v, Some (Some err))
      | (d, l, None) =>
          if l =? 0 then (d, Zero t, Some None)
          else if uint32 maxlen <? l then
            (d, v, Some (Some (LengthError (uint64 l) (uint64 origMax))))
          else
            match t with
            | SliceOf et =>
                let '(d, l, r) :=
                  decodeElems (Decode elem)
                    (repeat (Zero et) (Z.to_nat l)) d in
                (d, VSlice (Some l), r)
            | _ => (d, v, None)
            end
      end
  | mapCodec keyCodec valueCodec t kt vt maxlen origMax =>
      match DecodeUnsignedInt d with
      | (d, _, Some err) => (d, v, Some (Some err))
      | (d, l, None) =>
          if uint32 maxlen <? l then
            (d, v, Some (Some (LengthError (uint64 l) (uint64 origMax))))
          else
            let '(d, m, r) :=
              decodeEntries (Decode keyCodec) (Decode valueCodec)
                (Zero kt) (Zero vt) (Z.to_nat l) d [] in
            (d, VMap (Some m), r)
      end
  | optCodec elem nilp =>
      match DecodeBool d with
      | (d, _, Some err) => (d, nilp, Some (Some err))
      | (d, isNonNil, None) =>
          if isNonNil then Decode elem d nilp else (d, nilp, Some None)
      end
  | ptrCodec elem elemt =>
      let '(d, x, r) := Decode elem d (Zero elemt) in (d, VPtr (Some x), r)
  | structCodec name fields =>
      struct_decode name (map (bindDec Decode) fields) d v
  | unionCodec name switchField bodyFields cases defaultCase sk =>
      union_decode name (bindDec Decode switchField)
        (map (option_map (bindDec Decode)) bodyFields)
        cases defaultCase sk d v
  | errorCodec err => (d, v, Some (Some err))
  end.

(** *** The tag-to-codec compiler

    [getCodec] memoises [buildCodec] in the registry; the codec it
    returns for a type and tag is the one [buildCodec] builds for them.
    A builder returns a codec (an [errorCodec] when the construction
    fails) or panics. *)

Section Builder.

Variable ParseUint : string -> Z -> Z -> Z * option error.

Definition getCodecFn := tags.XDRTag -> panics xCodec.

(** Caps a length at [maxInt]: [i := maxInt; maxlen = uint32(i)]. *)
Definition capAtMaxInt (maxlen : Z) : Z :=
  if uint64 maxInt <? uint64 maxlen then uint32 maxInt else maxlen.

Definition makeStringCodec (t : Type') (tag : tags.XDRTag)
  : panics xCodec :=
  next <- tags.Next tag ;;
  if negb (tags.Empty next) then
    Some (errorCodec
            (Errorf "string must not gave any following tags (%s)"
               [ATag tag]))
  else
    let k := tags.Kind tag in
    sel <- (if k =? tags.Len then
              v <- tags.OnlyValue tag ;; Some (inr (v, true))
            else if k =? tags.MaxLen then
              v <- tags.OnlyValue tag ;; Some (inr (v, false))
            else if k =? tags.Noop then
              Some (inr (uint32 (Z.lnot 0), false))
            else Some (inl (errorCodec (InvalidTagForTypeError t tag)))) ;;
    match sel with
    | inl c => Some c
    | inr (len, fixed) =>
        let origMax := len in
        if (uint64 maxInt <? uint64 len) && fixed then
          Some (errorCodec (LengthError (uint64 len) (uint64 len)))
        else
          let len := capAtMaxInt len in
          if fixed then Some (fixedStringCodec len)
          else Some (varStringCodec len origMax)
    end.

Definition makeArrayCodec (getElem : getCodecFn) (t : Type') (len : Z)
  (tag : tags.XDRTag) : panics xCodec :=
  if negb (tags.Kind tag =? tags.Noop) then
    Some (errorCodec (InvalidTagForTypeError t tag))
  else
    next <- tags.Next tag ;;
    if tags.Kind next =? tags.Opaque then Some (opaqueArrayCodec len)
    else
      elem <- getElem next ;;
      Some (arrayCodec elem len).

(** The maximum a [maxlen:] tag or its absence gives a slice or map. *)
Definition maxlenOf (t : Type') (tag : tags.XDRTag)
  : panics (xCodec + Z) :=
  let k := tags.Kind tag in
  if k =? tags.MaxLen then v <- tags.OnlyValue tag ;; Some (inr v)
  else if k =? tags.Noop then Some (inr (uint32 (Z.lnot 0)))
  else Some (inl (errorCodec (InvalidTagForTypeError t tag))).

Definition makeSliceCodec (getElem : getCodecFn) (t : Type')
  (tag : tags.XDRTag) : panics xCodec :=
  m <- maxlenOf t tag ;;
  match m with
  | inl c => Some c
  | inr maxlen =>
      let origMax := maxlen in
      let maxlen := capAtMaxInt maxlen in
      next <- tags.Next tag ;;
      if tags.Kind next =? tags.Opaque then
        Some (opaqueSliceCodec maxlen origMax)
      else
        elem <- getElem next ;;
        Some (sliceCodec elem t maxlen origMax)
  end.

Definition makeMapCodec (getKey getElem : getCodecFn) (t kt vt : Type')
  (tag : tags.XDRTag) : panics xCodec :=
  m <- maxlenOf t tag ;;
  match m with
  | inl c => Some c
  | inr maxlen =>
      let origMax := maxlen in
      let maxlen := capAtMaxInt maxlen in
      keyCodec <- getKey [] ;;
      next <- tags.Next tag ;;
      valueCodec <- getElem next ;;
      Some (mapCodec keyCodec valueCodec t kt vt maxlen origMax)
  end.

(** [makeOptCodec]: [get] is [getCodec] at the same type. *)
Definition makeOptCodec (get : getCodecFn) (t : Type')
  (tag : tags.XDRTag) : panics xCodec :=
  next <- tags.Next tag ;;
  tag <- tags.Prepend next tags.Noop [] ;;
  tag <- tags.Trimmed tag ;;
  elem <- get tag ;;
  Some (optCodec elem (Zero t)).

Definition makePtrCodec (getElem : getCodecFn) (elemt : Type')
  (tag : tags.XDRTag) : panics xCodec :=
  next <- tags.Next tag ;;
  c <- getElem next ;;
  Some (ptrCodec c elemt).

(** [makeField]: the [i]-th field of the struct has [Index] [[i]]. *)
Definition makeField (get : getCodecFn) (i : nat) (f : StructField)
  (tag : tags.XDRTag) : panics field :=
  c <- get tag ;; Some (mkField i c (Name f)).

Definition fieldErr (t : Type') (f : StructField) (err : error) : xCodec :=
  errorCodec (Errorf "Parsing tag of field '%s' of '%s': %v"
                [AString (Name f); AType t; AErr err]).

(** Where the first loop of [makeStructCodec] stops. *)
Inductive classified : Type :=
| Undetermined
| Determined (isUnion : tags.IsInUnion) (f : StructField)
    (get : getCodecFn) (tag : tags.XDRTag) (i : nat)
    (rest : list (StructField * getCodecFn))
| Failed (c : xCodec).

(** "Iterate until we figure out if we're a union or not". *)
Fixpoint classify (t : Type') (fs : list (StructField * getCodecFn))
  (i : nat) : panics classified :=
  match fs with
  | [] => Some Undetermined
  | (f, get) :: fs' =>
      '(tag, err, isUnion) <-
        tags.ParseStructTag ParseUint (Type_ f) (Tag f)
          tags.MaybeInUnion ;;
      match err with
      | Some e => Some (Failed (fieldErr t f e))
      | None =>
          let undecided := tags.IsInUnion_eqb isUnion tags.MaybeInUnion in
          if negb (tags.Kind tag =? tags.Skip) && undecided then None
          else if undecided then classify t fs' (S i)
          else Some (Determined isUnion f get tag (S i) fs')
      end
  end.

(** The loop over the remaining fields of a struct. *)
Fixpoint structFields (t : Type') (fs : list (StructField * getCodecFn))
  (i : nat) (isUnion : tags.IsInUnion) (fields : list field)
  : panics (xCodec + list field) :=
  match fs with
  | [] => Some (inr fields)
  | (f, get) :: fs' =>
      '(tag, err, isUnion) <-
        tags.ParseStructTag ParseUint (Type_ f) (Tag f) isUnion ;;
      match err with
      | Some e => Some (inl (fieldErr t f e))
      | None =>
          if tags.Kind tag =? tags.Skip then
            structFields t fs' (S i) isUnion fields
          else
            fld <- makeField get i f tag ;;
            structFields t fs' (S i) isUnion (fields ++ [fld])
      end
  end.

(** [for j, e := tag.ValueRange(); j < e; j++]: [n] rounds from [j]. *)
Fixpoint unionCases (t : Type') (tag : tags.XDRTag) (n : nat) (j : Z)
  (i : Z) (cases : list (Z * Z)) : panics (xCodec + list (Z * Z)) :=
  match n with
  | O => Some (inr cases)
  | S n' =>
      v <- tags.Value tag j ;;
      match lookupCase cases v with
      | Some _ =>
          Some (inl (errorCodec
                       (Errorf "Union value 0x%08x of %s duplicated"
                          [AUint v; AType t])))
      | None => unionCases t tag n' (j + 1) i (cases ++ [(v, i)])
      end
  end.

(** The loop over the arms of a union. *)
Fixpoint unionArms (t : Type') (fs : list (StructField * getCodecFn))
  (i : nat) (isUnion : tags.IsInUnion)
  (bodyFields : list (option field)) (cases : list (Z * Z))
  (defaultCase : Z)
  : panics (xCodec + (list (option field) * list (Z * Z) * Z)) :=
  match fs with
  | [] => Some (inr (bodyFields, cases, defaultCase))
  | (f, get) :: fs' =>
      '(tag, err, isUnion) <-
        tags.ParseStructTag ParseUint (Type_ f) (Tag f) isUnion ;;
      match err with
      | Some e => Some (inl (fieldErr t f e))
      | None =>
          if tags.Kind tag =? tags.Skip then
            unionArms t fs' (S i) isUnion bodyFields cases defaultCase
          else
            next <- tags.Next tag ;;
            fld <- makeField get i f next ;;
            if (i <? List.length bodyFields)%nat then
              let bodyFields := setNth bodyFields i (Some fld) in
              if tags.Kind tag =? tags.UnionCases then
                '(j, e) <- tags.ValueRange tag ;;
                r <- unionCases t tag (Z.to_nat (e - j)) j (Z.of_nat i)
                       cases ;;
                match r with
                | inl c => Some (inl c)
                | inr cases =>
                    unionArms t fs' (S i) isUnion bodyFields cases
                      defaultCase
                end
              else if tags.Kind tag =? tags.UnionDefault then
                if negb (defaultCase =? -1) then
                  Some (inl (errorCodec
                               (Errorf "Default case of %s duplicated"
                                  [AType t])))
                else
                  unionArms t fs' (S i) isUnion bodyFields cases
                    (Z.of_nat i)
              else
                unionArms t fs' (S i) isUnion bodyFields cases defaultCase
            else None
      end
  end.

(** [makeStructCodec(cr, t)], with [getCodec] at each field's type. *)
Definition makeStructCodec (t : Type') (name : string)
  (fs : list (StructField * getCodecFn)) : panics xCodec :=
  let fieldCount := List.length fs in
  cl <- classify t fs 0 ;;
  match cl with
  | Failed c => Some c
  | Undetermined => Some (structCodec name [])
  | Determined tags.MaybeInUnion _ _ _ _ _ => Some (structCodec name [])
  | Determined tags.NotInUnion f get tag i rest =>
      fld <- makeField get (pred i) f tag ;;
      r <- structFields t rest i tags.NotInUnion [fld] ;;
      match r with
      | inl c => Some c
      | inr fields => Some (structCodec name fields)
      end
  | Determined tags.InUnion f get tag i rest =>
      if negb (tags.Kind tag =? tags.UnionSwitch) then None
      else
        sk <- match kindOf (Type_ f) with
              | Int32 => Some switchKindInt
              | Uint32 => Some switchKindUint
              | Bool => Some switchKindBool
              | _ => None
              end ;;
        next <- tags.Next tag ;;
        sw <- makeField get (pred i) f next ;;
        r <- unionArms t rest i tags.InUnion (repeat None fieldCount) []
               (-1) ;;
        match r with
        | inl c => Some c
        | inr (bodyFields, cases, defaultCase) =>
            Some (unionCodec name sw bodyFields cases defaultCase sk)
        end
  end.

(** [buildCodec(t, tag)].  [makeOptCodec] comes back to the same type
    with [Opt] replaced by [Noop], and goes on to the switch on the
    kind. *)
Fixpoint buildCodec (t : Type') (tag : tags.XDRTag) {struct t}
  : panics xCodec :=
  let byKind (tag : tags.XDRTag) : panics xCodec :=
    let invalidTag := Some (errorCodec (InvalidTagForTypeError t tag)) in
    let plain (c : xCodec) :=
      if negb (tags.Empty tag) then invalidTag else Some c in
    match t with
    | PtrTo elemt => makePtrCodec (buildCodec elemt) elemt tag
    | Scalar SString => makeStringCodec t tag
    | ArrayOf len elemt => makeArrayCodec (buildCodec elemt) t len tag
    | SliceOf elemt => makeSliceCodec (buildCodec elemt) t tag
    | MapOf kt vt =>
        makeMapCodec (buildCodec kt) (buildCodec vt) t kt vt tag
    | Scalar SBool => plain boolCodec
    | Scalar SInt8 => plain int8Codec
    | Scalar SInt16 => plain int16Codec
    | Scalar SInt32 => plain int32Codec
    | Scalar SUint8 => plain uint8Codec
    | Scalar SUint16 => plain uint16Codec
    | Scalar SUint32 => plain uint32Codec
    | Scalar SInt64 => plain hyperCodec
    | Scalar SUint64 => plain uhyperCodec
    | Scalar SFloat32 => plain floatCodec
    | Scalar SFloat64 => plain doubleCodec
    | Scalar SComplex64 => plain complex64Codec
    | Scalar SComplex128 => plain complex128Codec
    | StructOf name fields =>
        if negb (tags.Empty tag) then invalidTag
        else
          makeStructCodec t name
            (map (fun f => (f, buildCodec (Type_ f))) fields)
    | Scalar _ => plain (errorCodec (InvalidTypeError t))
    end in
  if tags.Kind tag =? tags.Opt then makeOptCodec byKind t tag
  else byKind tag.

Definition getCodec (t : Type') (tag : tags.XDRTag) : panics xCodec :=
  buildCodec t tag.

Definition getBaseCodec (t : Type') : panics xCodec := getCodec t [].

(** [Coder.Marshal(o)], for a value [o] of type [t]: the bytes and the
    error. *)
Definition Marshal (t : Type') (o : Value) : list byte * outcome :=
  match getBaseCodec t with
  | Some c => Encode c [] o
  | None => ([], None)
  end.

(** [Coder.Unmarshal(buf, op)], where [op] points to a variable of
    type [t] holding [v]: what the variable holds afterwards, and the
    error. *)
Definition Unmarshal (t : Type') (buf : list byte) (v : Value)
  : Value * outcome :=
  match getCodec t [] with
  | Some c => let '(_, v, r) := Decode c buf v in (v, r)
  | None => (v, None)
  end.

End Builder.

End coder.

(** ** A numeral reader to run the parser with

    What [strconv.ParseUint(s, 0, bitSize)] reads of decimal numerals and of
    hexadecimal ones after [0x]: enough for the tags of the repository's
    tests.  Other bases and digit separators are reported as errors. *)

Module strconv.

Definition digitVal (base : N) (a : ascii) : option N :=
  let n := N_of_ascii a in
  let d := if ((48 <=? n) && (n <=? 57))%N then Some (n - 48)%N
           else if ((97 <=? n) && (n <=? 102))%N then Some (n - 87)%N
           else if ((65 <=? n) && (n <=? 70))%N then Some (n - 55)%N
           else None in
  match d with
  | Some v => if (v <? base)%N then Some v else None
  | None => None
  end.

Fixpoint digits (base : N) (s : string) (acc : N) : option N :=
  match s with
  | EmptyString => Some acc
  | String a r =>
      match digitVal base a with
      | Some v => digits base r (acc * base + v)%N
      | None => None
      end
  end.

Definition ParseUint (s : string) (base bitSize : Z) : Z * option error :=
  let bad := (0, Some (NumError s)) in
  let finish (r : option N) :=
    match r with
    | Some n =>
        if Z.of_N n <? 2 ^ bitSize then (Z.of_N n, None)
        else (2 ^ bitSize - 1, Some (NumError s))
    | None => bad
    end in
  match s with
  | EmptyString => bad
  | String "0" EmptyString => (0, None)
  | String "0" (String x r) =>
      if ((Ascii.eqb x "x") || (Ascii.eqb x "X"))%bool then
        match r with
        | EmptyString => bad
        | _ => finish (digits 16 r 0)
        end
      else bad
  | _ => finish (digits 10 s 0)
  end.

End strconv.

(** ** Vocabulary of the statements *)

(** The tag sequence of the single entry [maxlen:M], and of [len:N]. *)
Definition maxlenTag (M : Z) : tags.XDRTag := z2b tags.MaxLen :: tags.be32 M.
Definition lenTag (N : Z) : tags.XDRTag := z2b tags.Len :: tags.be32 N.

(** A tag token free of white space and of the layer separator. *)
Fixpoint token (s : string) : bool :=
  match s with
  | EmptyString => true
  | String a r =>
      negb (strings.isSpace a) && negb (Ascii.eqb a "/") && token r
  end.

(** The zero bytes that round [n] bytes up to a multiple of four. *)
Definition padOf (n : Z) : list byte := zeros (Z.to_nat ((- n) mod 4)).

(** The codec [buildCodec] gives the switch field of each kind of union,
    and the value a switch field holds for a wire word [w]. *)
Definition switchCodec (sk : coder.switchKind) : coder.xCodec :=
  match sk with
  | coder.switchKindBool => coder.boolCodec
  | coder.switchKindInt => coder.int32Codec
  | coder.switchKindUint => coder.uint32Codec
  end.

Definition discriminant (sk : coder.switchKind) (w : Z) : reflect.Value :=
  match sk with
  | coder.switchKindBool => reflect.VBool (w =? 1)
  | coder.switchKindInt => reflect.VInt (int32 w)
  | coder.switchKindUint => reflect.VUint w
  end.

(** ** Induction on the codec tree *)

Definition onField (P : coder.xCodec -> Prop) (f : coder.field) : Prop :=
  P (coder.codec f).
Definition onArm (P : coder.xCodec -> Prop) (o : option coder.field) : Prop :=
  match o with
  | Some f => P (coder.codec f)
  | None => True
  end.

Section CodecInduction.

Import coder.

Variable P : xCodec -> Prop.
Hypothesis Hbool : P boolCodec.
Hypothesis Hint8 : P int8Codec.
Hypothesis Hint16 : P int16Codec.
Hypothesis Hint32 : P int32Codec.
Hypothesis Huint8 : P uint8Codec.
Hypothesis Huint16 : P uint16Codec.
Hypothesis Huint32 : P uint32Codec.
Hypothesis Hhyper : P hyperCodec.
Hypothesis Huhyper : P uhyperCodec.
Hypothesis Hfloat : P floatCodec.
Hypothesis Hdouble : P doubleCodec.
Hypothesis Hcomplex64 : P complex64Codec.
Hypothesis Hcomplex128 : P complex128Codec.
Hypothesis HfixedString : forall len, P (fixedStringCodec len).
Hypothesis HvarString : forall maxlen origMax, P (varStringCodec maxlen origMax).
Hypothesis HopaqueArray : forall len, P (opaqueArrayCodec len).
Hypothesis Harray : forall elem len, P elem -> P (arrayCodec elem len).
Hypothesis HopaqueSlice :
  forall maxlen origMax, P (opaqueSliceCodec maxlen origMax).
Hypothesis Hslice :
  forall elem t maxlen origMax, P elem -> P (sliceCodec elem t maxlen origMax).
Hypothesis Hmap :
  forall kc vc t kt vt maxlen origMax,
    P kc -> P vc -> P (mapCodec kc vc t kt vt maxlen origMax).
Hypothesis Hopt : forall elem nilp, P elem -> P (optCodec elem nilp).
Hypothesis Hptr : forall elem elemt, P elem -> P (ptrCodec elem elemt).
Hypothesis Hstruct :
  forall name fields, Forall (onField P) fields -> P (structCodec name fields).
Hypothesis Hunion :
  forall name sw body cases defaultCase sk,
    P (codec sw) -> Forall (onArm P) body ->
    P (unionCodec name sw body cases defaultCase sk).
Hypothesis Herror : forall err, P (errorCodec err).

Fixpoint xCodec_rect' (c : xCodec) : P c :=
  match c with
  | boolCodec => Hbool
  | int8Codec => Hint8
  | int16Codec => Hint16
  | int32Codec => Hint32
  | uint8Codec => Huint8
  | uint16Codec => Huint16
  | uint32Codec => Huint32
  | hyperCodec => Hhyper
  | uhyperCodec => Huhyper
  | floatCodec => Hfloat
  | doubleCodec => Hdouble
  | complex64Codec => Hcomplex64
  | complex128Codec => Hcomplex128
  | fixedStringCodec len => HfixedString len
  | varStringCodec maxlen origMax => HvarString maxlen origMax
  | opaqueArrayCodec len => HopaqueArray len
  | arrayCodec elem len => Harray elem len (xCodec_rect' elem)
  | opaqueSliceCodec maxlen origMax => HopaqueSlice maxlen origMax
  | sliceCodec elem t maxlen origMax =>
      Hslice elem t maxlen origMax (xCodec_rect' elem)
  | mapCodec kc vc t kt vt maxlen origMax =>
      Hmap kc vc t kt vt maxlen origMax (xCodec_rect' kc) (xCodec_rect' vc)
  | optCodec elem nilp => Hopt elem nilp (xCodec_rect' elem)
  | ptrCodec elem elemt => Hptr elem elemt (xCodec_rect' elem)
  | structCodec name fields =>
      Hstruct name fields
        ((fix all (fs : list field) : Forall (onField P) fs :=
            match fs with
            | [] => Forall_nil _
            | f :: fs' => Forall_cons f (xCodec_rect' (codec f)) (all fs')
            end) fields)
  | unionCodec name sw body cases defaultCase sk =>
      Hunion name sw body cases defaultCase sk (xCodec_rect' (codec sw))
        ((fix all (os : list (option field)) : Forall (onArm P) os :=
            match os with
            | [] => Forall_nil _
            | o :: os' =>
                Forall_cons o
                  (match o return onArm P o with
                   | Some f => xCodec_rect' (codec f)
                   | None => I
                   end)
                  (all os')
            end) body)
  | errorCodec err => Herror err
  end.

End CodecInduction.


(** [e'] is [e] followed by a whole number of four-byte words. *)
Definition extends (e e' : coder.encoder) : Prop :=
  exists bs, e' = e ++ bs /\ Nat.divide 4 (List.length bs).

Definition aligned (enc : coder.encFn) : Prop :=
  forall e v, extends e (fst (enc e v)).

(** *** Values of a codec's type, and what decoding leaves behind *)

Definition olist {A} (o : option (list A)) : list A :=
  match o with
  | Some l => l
  | None => []
  end.

Definition inRange (lo hi x : Z) : bool := (lo <=? x) && (x <? hi).

Definition isByteValue (v : reflect.Value) : bool :=
  match v with
  | reflect.VUint u => inRange 0 (2^8) u
  | _ => false
  end.

Fixpoint nodupb (l : list nat) : bool :=
  match l with
  | [] => true
  | x :: l' => negb (existsb (Nat.eqb x) l') && nodupb l'
  end.

Definition zlength {A} (l : list A) : Z := Z.of_nat (List.length l).

Section Fits.

Import reflect coder.

(** [fits c v]: [v] is a value of the type the codec [c] was built for.
    Integers lie in the range of their width, floats are bit patterns of
    theirs, an array has the length of its type, no Go length exceeds
    [maxInt], a struct has the fields the codec names, each of its type;
    and the codec's own parameters are what the builders produce
    (maximums that fit their 32-bit origin, the zero value of the element
    type being a value of the element codec). *)
Fixpoint fits (c : xCodec) (v : Value) {struct c} : bool :=
  match c, v with
  | boolCodec, VBool _ => true
  | int8Codec, VInt i => inRange (- 2^7) (2^7) i
  | int16Codec, VInt i => inRange (- 2^15) (2^15) i
  | int32Codec, VInt i => inRange (- 2^31) (2^31) i
  | uint8Codec, VUint u => inRange 0 (2^8) u
  | uint16Codec, VUint u => inRange 0 (2^16) u
  | uint32Codec, VUint u => inRange 0 (2^32) u
  | hyperCodec, VInt i => inRange (- 2^63) (2^63) i
  | uhyperCodec, VUint u => inRange 0 (2^64) u
  | floatCodec, VFloat32 f => inRange 0 (2^32) f
  | doubleCodec, VFloat64 f => inRange 0 (2^64) f
  | complex64Codec, VComplex64 re im =>
      inRange 0 (2^32) re && inRange 0 (2^32) im
  | complex128Codec, VComplex128 re im =>
      inRange 0 (2^64) re && inRange 0 (2^64) im
  | fixedStringCodec len, VString s =>
      inRange 0 (maxInt + 1) len && (blen s <=? maxInt)
  | varStringCodec maxlen _, VString s =>
      inRange 0 (maxInt + 1) maxlen && (blen s <=? maxInt)
  | opaqueArrayCodec len, VArray l =>
      (zlength l =? len) && forallb isByteValue l
  | arrayCodec elem len, VArray l =>
      (zlength l =? len) && forallb (fits elem) l
  | opaqueSliceCodec maxlen _, VSlice o =>
      inRange 0 (maxInt + 1) maxlen && (zlength (olist o) <=? maxInt)
      && forallb isByteValue (olist o)
  | sliceCodec elem t maxlen _, VSlice o =>
      inRange 0 (2^32) maxlen
      && match t with
         | SliceOf et => fits elem (Zero et)
         | _ => false
         end
      && (zlength (olist o) <=? maxInt)
      && forallb (fits elem) (olist o)
  | mapCodec keyCodec valueCodec _ kt vt maxlen _, VMap o =>
      inRange 0 (2^32) maxlen
      && fits keyCodec (Zero kt) && fits valueCodec (Zero vt)
      && (zlength (olist o) <=? maxInt)
      && forallb (fun p => fits keyCodec (fst p) && fits valueCodec (snd p))
           (olist o)
  | optCodec elem nilp, _ =>
      fits elem nilp
      && match IsNil v with
         | Some true => true
         | Some false => fits elem v
         | None => false
         end
  | ptrCodec elem elemt, VPtr o =>
      fits elem (Zero elemt)
      && match o with
         | Some x => fits elem x
         | None => true
         end
  | structCodec _ fields, VStruct fs =>
      nodupb (map index fields)
      && (fix all (l : list (field_ xCodec)) : bool :=
            match l with
            | [] => true
            | f :: l' =>
                match nth_error fs (index f) with
                | Some x => fits (codec f) x
                | None => false
                end && all l'
            end) fields
  | unionCodec _ switchField bodyFields _ _ _, VStruct fs =>
      match nth_error fs (index switchField) with
      | Some x => fits (codec switchField) x
      | None => false
      end
      && (fix all (l : list (option (field_ xCodec))) : bool :=
            match l with
            | [] => true
            | None :: l' => all l'
            | Some f :: l' =>
                negb (Nat.eqb (index f) (index switchField))
                && match nth_error fs (index f) with
                   | Some x => fits (codec f) x
                   | None => false
                   end
                && all l'
            end) bodyFields
  | errorCodec _, _ => true
  | _, _ => false
  end.

(** *** What [Decode] leaves in the destination *)

Definition ovFn := Value -> Value -> Value.

Fixpoint overlayElems (ov : ovFn) (ld lv : list Value) : list Value :=
  match ld, lv with
  | d :: ld', x :: lv' => ov d x :: overlayElems ov ld' lv'
  | _, _ => ld
  end.

Definition overlayField (f : bound ovFn) (dest v : Value) : Value :=
  match Field dest (bindex f), Field v (bindex f) with
  | Some d, Some x => setField dest (bindex f) (bfn f d x)
  | _, _ => dest
  end.

Definition overlayFields (fields : list (bound ovFn)) (dest v : Value)
  : Value :=
  fold_left (fun d f => overlayField f d v) fields dest.

Definition overlayUnion (switchField : bound ovFn)
  (bodyFields : list (option (bound ovFn))) (cases : list (Z * Z))
  (defaultCase : Z) (sk : switchKind) (dest v : Value) : Value :=
  let dest := overlayField switchField dest v in
  match Field v (bindex switchField) with
  | Some swv =>
      match swValOf sk swv with
      | Some swVal =>
          let caseField :=
            match lookupCase cases swVal with
            | Some i => i
            | None => defaultCase
            end in
          match bodyAt bodyFields caseField with
          | Some f => overlayField f dest v
          | None => dest
          end
      | None => dest
      end
  | None => dest
  end.

Definition overlayEntries (ovk ovv : Value -> Value)
  (m acc : list (Value * Value)) : list (Value * Value) :=
  fold_left (fun acc p => SetMapIndex acc (ovk (fst p)) (ovv (snd p))) m acc.

Definition bindOv (ov : xCodec -> ovFn) (f : field_ xCodec) : bound ovFn :=
  mkBound (index f) (name f) (ov (codec f)).

(** [overlay c dest v]: the destination [dest] with every component the
    codec [c] transmits replaced by that of [v].  A skipped field and an
    arm the discriminant does not select keep what [dest] held; a sequence
    without elements comes back as the nil slice and a nil map as an empty
    map; a [float32] has been through [viaFloat64]. *)
Fixpoint overlay (c : xCodec) (dest v : Value) {struct c} : Value :=
  match c with
  | floatCodec =>
      match v with
      | VFloat32 f => VFloat32 (viaFloat64 f)
      | _ => v
      end
  | complex64Codec =>
      match v with
      | VComplex64 re im => VComplex64 (viaFloat64 re) (viaFloat64 im)
      | _ => v
      end
  | arrayCodec elem _ =>
      match dest, v with
      | VArray ld, VArray lv => VArray (overlayElems (overlay elem) ld lv)
      | _, _ => v
      end
  | opaqueSliceCodec _ _ =>
      match v with
      | VSlice (Some (_ :: _)) => v
      | _ => VSlice None
      end
  | sliceCodec elem t _ _ =>
      match v, t with
      | VSlice (Some ((_ :: _) as l)), SliceOf et =>
          VSlice (Some (map (overlay elem (Zero et)) l))
      | _, _ => VSlice None
      end
  | mapCodec keyCodec valueCodec _ kt vt _ _ =>
      match v with
      | VMap o =>
          VMap (Some (overlayEntries (overlay keyCodec (Zero kt))
                        (overlay valueCodec (Zero vt)) (olist o) []))
      | _ => v
      end
  | optCodec elem nilp =>
      match IsNil v with
      | Some false => overlay elem nilp v
      | _ => nilp
      end
  | ptrCodec elem elemt =>
      match v with
      | VPtr (Some x) => VPtr (Some (overlay elem (Zero elemt) x))
      | _ => v
      end
  | structCodec _ fields =>
      overlayFields (map (bindOv overlay) fields) dest v
  | unionCodec _ switchField bodyFields cases defaultCase sk =>
      overlayUnion (bindOv overlay switchField)
        (map (option_map (bindOv overlay)) bodyFields)
        cases defaultCase sk dest v
  | _ => v
  end.

(** Equality of values as the tests compare them: component by
    component, two NaNs of a width being equal whatever their bits (and
    the two zeros of a width too); more leniently than Go, a nil and an
    empty slice or map are taken for equal, and a pointer is followed. *)
Definition sameFloat32 (x y : Z) : bool :=
  (isNaN32 x && isNaN32 y) || feq32 x y.
Definition sameFloat64 (x y : Z) : bool :=
  (isNaN64 x && isNaN64 y) || feq64 x y.

Fixpoint sameValue (a b : Value) {struct a} : bool :=
  let all2 :=
    fix all2 (l1 l2 : list Value) {struct l1} : bool :=
      match l1, l2 with
      | [], [] => true
      | x :: l1', y :: l2' => sameValue x y && all2 l1' l2'
      | _, _ => false
      end in
  let entries :=
    fix entries (l1 l2 : list (Value * Value)) {struct l1} : bool :=
      match l1, l2 with
      | [], [] => true
      | (k1, x1) :: l1', (k2, x2) :: l2' =>
          sameValue k1 k2 && sameValue x1 x2 && entries l1' l2'
      | _, _ => false
      end in
  match a, b with
  | VBool x, VBool y => Bool.eqb x y
  | VInt x, VInt y => x =? y
  | VUint x, VUint y => x =? y
  | VFloat32 x, VFloat32 y => sameFloat32 x y
  | VFloat64 x, VFloat64 y => sameFloat64 x y
  | VComplex64 r1 i1, VComplex64 r2 i2 =>
      sameFloat32 r1 r2 && sameFloat32 i1 i2
  | VComplex128 r1 i1, VComplex128 r2 i2 =>
      sameFloat64 r1 r2 && sameFloat64 i1 i2
  | VString x, VString y => bytes_eqb x y
  | VArray x, VArray y => all2 x y
  | VStruct x, VStruct y => all2 x y
  | VSlice x, VSlice y =>
      match x with
      | Some l => all2 l (olist y)
      | None => match olist y with [] => true | _ :: _ => false end
      end
  | VMap x, VMap y =>
      match x with
      | Some l => entries l (olist y)
      | None => match olist y with [] => true | _ :: _ => false end
      end
  | VPtr None, VPtr None => true
  | VPtr (Some x), VPtr (Some y) => sameValue x y
  | VNil, VNil => true
  | _, _ => false
  end.

(** *** The round trip

    [roundTripsFn fit enc dec ov]: whenever [enc] succeeds on a value of
    the type, it has appended some bytes [bs] to the buffer, and [dec]
    on any input that starts with [bs], into any destination of the type,
    succeeds, consumes exactly [bs], and leaves [ov dest v] in the
    destination. *)
Definition roundTripsFn (fit : Value -> bool) (enc : encFn) (dec : decFn)
  (ov : ovFn) : Prop :=
  forall v dest e e',
    fit v = true -> fit dest = true ->
    enc e v = (e', Some None) ->
    exists bs,
      e' = e ++ bs
      /\ forall rest, dec (bs ++ rest) dest = (rest, ov dest v, Some None).

Definition roundTrips (c : xCodec) : Prop :=
  roundTripsFn (fits c) (Encode c) (Decode c) (overlay c).

(** The two loops of [fits], by name. *)
Fixpoint fieldsFit (fs : list Value) (l : list field) : bool :=
  match l with
  | [] => true
  | f :: l' =>
      match nth_error fs (index f) with
      | Some x => fits (codec f) x
      | None => false
      end && fieldsFit fs l'
  end.

Fixpoint armsFit (fs : list Value) (sw : nat) (l : list (option field))
  : bool :=
  match l with
  | [] => true
  | None :: l' => armsFit fs sw l'
  | Some f :: l' =>
      negb (Nat.eqb (index f) sw)
      && match nth_error fs (index f) with
         | Some x => fits (codec f) x
         | None => false
         end
      && armsFit fs sw l'
  end.

(** The struct [nested] of the repository's tests. *)
Definition nested : Type' :=
  StructOf "nested"
    [mkStructField "S" (Scalar SString) "maxlen:16";
     mkStructField "Skip" (Scalar SInt32) "-";
     mkStructField "I" (Scalar SInt32) EmptyString].

End Fits.

(** One entry of a tag sequence, whole: a flag byte, a kind byte with its
    value, or a kind byte with its count and that many values. *)
Definition isEntry (e : tags.XDRTag) : bool :=
  match tags.thisLen e with
  | Some l => (0 <? l) && (l =? tags.len e)
  | None => false
  end.

(** A run of [Read] calls on an [OpaqueReader], with buffers of the lengths
    [ns]: the reader and the source afterwards, and all that was read. *)
Fixpoint readRun (ns : list nat) (o : coder.opaqueReader) (r : coder.Reader)
  : coder.opaqueReader * coder.Reader * list byte :=
  match ns with
  | [] => (o, r, [])
  | n :: ns' =>
      let '(o, r, got, _) := coder.limitedRead o r n in
      let '(o, r, more) := readRun ns' o r in
      (o, r, got ++ more)
  end.

(** A tag sequence made of whole entries. *)
Definition wellFormed (xt : tags.XDRTag) : Prop :=
  exists es, Forall (fun e => isEntry e = true) es /\ xt = List.concat es.

(** ** Induction on the types *)

Section TypeInduction.

Import reflect.

Variable P : Type' -> Prop.
Hypothesis Hscalar : forall s, P (Scalar s).
Hypothesis Harray : forall n e, P e -> P (ArrayOf n e).
Hypothesis Hslice : forall e, P e -> P (SliceOf e).
Hypothesis Hmap : forall k e, P k -> P e -> P (MapOf k e).
Hypothesis Hptr : forall e, P e -> P (PtrTo e).
Hypothesis Hstruct :
  forall name fields,
    Forall (fun f => P (Type_ f)) fields -> P (StructOf name fields).


End TypeInduction.






(** * Properties *)

Import reflect coder.

(** ** Bytes and words *)

Lemma b2z_range (b : byte) : 0 <= b2z b < 256.
Proof.
  unfold b2z. pose proof (Byte.to_N_bounded b). lia.
Qed.

Lemma z2b_b2z (b : byte) : z2b (b2z b) = b.
Proof.
  unfold z2b. pose proof (b2z_range b) as H.
  rewrite Z.mod_small by assumption.
  unfold b2z. rewrite N2Z.id, Byte.of_to_N. reflexivity.
Qed.

Lemma b2z_z2b (z : Z) : b2z (z2b z) = z mod 256.
Proof.
  unfold z2b.
  assert (H : 0 <= z mod 256 < 256) by (apply Z.mod_pos_bound; lia).
  destruct (Byte.of_N (Z.to_N (z mod 256))) as [b|] eqn:E.
  - apply Byte.to_of_N in E. unfold b2z. rewrite E. lia.
  - apply Byte.of_N_None_iff in E. lia.
Qed.

(** The value of four bytes read as a big-endian word. *)
Definition wordValue (b0 b1 b2 b3 : byte) : Z :=
  b2z b0 * 2^24 + b2z b1 * 2^16 + b2z b2 * 2^8 + b2z b3.

Lemma wordValue_range b0 b1 b2 b3 : 0 <= wordValue b0 b1 b2 b3 < 2^32.
Proof.
  unfold wordValue.
  pose proof (b2z_range b0); pose proof (b2z_range b1);
  pose proof (b2z_range b2); pose proof (b2z_range b3). lia.
Qed.

(** [a | b] is [a + b] when [a] is a multiple of [2^k] and [b] is below it. *)
Lemma lor_disjoint_add (a b k : Z) :
  0 <= k -> a mod 2^k = 0 -> 0 <= b < 2^k -> Z.lor a b = a + b.
Proof.
  intros Hk Ha Hb.
  assert (Hland : Z.land a b = 0).
  { apply Z.bits_inj'. intros n Hn.
    rewrite Z.land_spec, Z.bits_0.
    destruct (Z.ltb_spec n k) as [Hlt|Hge].
    - assert (Hbit : Z.testbit a n = false).
      { rewrite <- (Z.mod_pow2_bits_low a k n) by lia.
        rewrite Ha. apply Z.bits_0. }
      rewrite Hbit. reflexivity.
    - assert (Hbit : Z.testbit b n = false).
      { destruct (Z.eq_dec b 0) as [->|Hnz]; [apply Z.bits_0|].
        apply Z.bits_above_log2; [lia|].
        apply Z.log2_lt_pow2; [lia|].
        apply Z.lt_le_trans with (2^k); [lia|].
        apply Z.pow_le_mono_r; lia. }
      rewrite Hbit. apply andb_false_r. }
  rewrite <- Z.lxor_lor by assumption.
  symmetry. apply Z.add_nocarry_lxor. assumption.
Qed.

Lemma mul_pow2_mod (a j k : Z) : 0 <= k <= j -> (a * 2^j) mod 2^k = 0.
Proof.
  intros H. replace j with ((j - k) + k) by lia.
  rewrite Z.pow_add_r by lia.
  rewrite Z.mul_assoc. apply Z.mod_mul. apply Z.pow_nonzero; lia.
Qed.

Lemma word_lor (b0 b1 b2 b3 : byte) :
  Z.lor (Z.lor (Z.lor (Z.shiftl (b2z b0) 24) (Z.shiftl (b2z b1) 16))
               (Z.shiftl (b2z b2) 8)) (b2z b3)
  = wordValue b0 b1 b2 b3.
Proof.
  pose proof (b2z_range b0); pose proof (b2z_range b1);
  pose proof (b2z_range b2); pose proof (b2z_range b3).
  rewrite !Z.shiftl_mul_pow2 by lia.
  rewrite (lor_disjoint_add (b2z b0 * 2^24) (b2z b1 * 2^16) 24);
    [| lia | apply mul_pow2_mod; lia | lia].
  rewrite (lor_disjoint_add _ (b2z b2 * 2^8) 16);
    [| lia | | lia].
  2:{ rewrite Z.add_mod by lia.
      rewrite (mul_pow2_mod _ 24 16), (mul_pow2_mod _ 16 16) by lia.
      reflexivity. }
  rewrite (lor_disjoint_add _ (b2z b3) 8); [| lia | | lia].
  2:{ rewrite Z.add_mod by lia.
      rewrite (Z.add_mod (b2z b0 * 2^24)) by lia.
      rewrite (mul_pow2_mod _ 24 8), (mul_pow2_mod _ 16 8),
        (mul_pow2_mod _ 8 8) by lia.
      reflexivity. }
  reflexivity.
Qed.

Lemma DecodeUnsignedInt_word b0 b1 b2 b3 rest :
  DecodeUnsignedInt (b0 :: b1 :: b2 :: b3 :: rest)
  = (rest, wordValue b0 b1 b2 b3, None).
Proof.
  unfold DecodeUnsignedInt, ReadFull. cbn [zeros repeat List.length firstn skipn
    Nat.eqb app nth]. rewrite word_lor. reflexivity.
Qed.

(** ** C3 *)

(** C3.  Every four-byte wire word read as a boolean: the word of value 0
    gives [false], the word of value 1 gives [true], both without error,
    and every other word (00 00 00 02, say) fails with [ErrInvalidValue]. *)
Theorem C3_DecodeBool_domain (b0 b1 b2 b3 : byte) (rest : list byte) :
  let w := wordValue b0 b1 b2 b3 in
  DecodeBool (b0 :: b1 :: b2 :: b3 :: rest)
  = (rest, w =? 1,
     if (w =? 0) || (w =? 1) then None else Some (Xerror ErrInvalidValue)).
Proof.
  intros w. unfold DecodeBool. rewrite DecodeUnsignedInt_word. fold w.
  destruct (Z.eqb_spec w 0) as [H0|H0].
  - rewrite H0. reflexivity.
  - destruct (Z.eqb_spec w 1) as [H1|H1]; reflexivity.
Qed.

Example DecodeBool_third_value :
  DecodeBool [x00; x00; x00; x02] = ([], false, Some (Xerror ErrInvalidValue)).
Proof. reflexivity. Qed.

(** ** The wire layer, word by word *)

(** The four bytes [EncodeInt] writes, and the eight of [EncodeHyper]. *)
Definition bytes4 (i : Z) : list byte :=
  [z2b (Z.shiftr i 24); z2b (Z.shiftr i 16); z2b (Z.shiftr i 8); z2b i].

Definition bytes8 (i : Z) : list byte :=
  [z2b (Z.shiftr i 56); z2b (Z.shiftr i 48); z2b (Z.shiftr i 40);
   z2b (Z.shiftr i 32); z2b (Z.shiftr i 24); z2b (Z.shiftr i 16);
   z2b (Z.shiftr i 8); z2b i].

Lemma EncodeInt_eq w i : EncodeInt w i = (w ++ bytes4 i, None).
Proof. reflexivity. Qed.

Lemma EncodeHyper_eq w i : EncodeHyper w i = (w ++ bytes8 i, None).
Proof. reflexivity. Qed.

Lemma wordValue_bytes4 (i : Z) :
  wordValue (z2b (Z.shiftr i 24)) (z2b (Z.shiftr i 16)) (z2b (Z.shiftr i 8))
    (z2b i) = i mod 2^32.
Proof.
  unfold wordValue. rewrite !b2z_z2b, !Z.shiftr_div_pow2 by lia.
  Z.div_mod_to_equations; lia.
Qed.

Lemma DecodeUnsignedInt_bytes4 (i : Z) (rest : list byte) :
  DecodeUnsignedInt (bytes4 i ++ rest) = (rest, uint32 i, None).
Proof.
  unfold bytes4. cbn [app]. rewrite DecodeUnsignedInt_word, wordValue_bytes4.
  reflexivity.
Qed.

Lemma z2b_congr (x y : Z) : x mod 256 = y mod 256 -> z2b x = z2b y.
Proof. intros H. unfold z2b. rewrite H. reflexivity. Qed.

Ltac bytes_congr :=
  repeat (apply f_equal2;
          [apply z2b_congr; Z.div_mod_to_equations; lia|]);
  reflexivity.

Lemma bytes4_wordValue b0 b1 b2 b3 :
  bytes4 (wordValue b0 b1 b2 b3) = [b0; b1; b2; b3].
Proof.
  pose proof (b2z_range b0); pose proof (b2z_range b1);
  pose proof (b2z_range b2); pose proof (b2z_range b3).
  unfold bytes4, wordValue. rewrite !Z.shiftr_div_pow2 by lia.
  transitivity [z2b (b2z b0); z2b (b2z b1); z2b (b2z b2); z2b (b2z b3)];
    [bytes_congr | rewrite !z2b_b2z; reflexivity].
Qed.

Lemma bytes4_congr (x y : Z) : x mod 2^32 = y mod 2^32 -> bytes4 x = bytes4 y.
Proof.
  intros H. unfold bytes4. rewrite !Z.shiftr_div_pow2 by lia.
  bytes_congr.
Qed.

Lemma bytes8_congr (x y : Z) : x mod 2^64 = y mod 2^64 -> bytes8 x = bytes8 y.
Proof.
  intros H. unfold bytes8. rewrite !Z.shiftr_div_pow2 by lia.
  bytes_congr.
Qed.

Lemma int32_mod (x : Z) : (int32 x) mod 2^32 = x mod 2^32.
Proof. unfold int32. Z.div_mod_to_equations; lia. Qed.

Lemma int64_mod (x : Z) : (int64 x) mod 2^64 = x mod 2^64.
Proof. unfold int64. Z.div_mod_to_equations; lia. Qed.

Lemma EncodeUnsignedInt_eq w i : EncodeUnsignedInt w i = (w ++ bytes4 i, None).
Proof.
  unfold EncodeUnsignedInt. rewrite EncodeInt_eq.
  rewrite (bytes4_congr (int32 i) i) by apply int32_mod. reflexivity.
Qed.

Lemma EncodeUnsignedHyper_eq w i :
  EncodeUnsignedHyper w i = (w ++ bytes8 i, None).
Proof.
  unfold EncodeUnsignedHyper. rewrite EncodeHyper_eq.
  rewrite (bytes8_congr (int64 i) i) by apply int64_mod. reflexivity.
Qed.

Lemma hyper_lor (b0 b1 b2 b3 b4 b5 b6 b7 : byte) :
  Z.lor (Z.lor (Z.lor (Z.lor (Z.lor (Z.lor (Z.lor
    (Z.shiftl (b2z b0) 56) (Z.shiftl (b2z b1) 48)) (Z.shiftl (b2z b2) 40))
    (Z.shiftl (b2z b3) 32)) (Z.shiftl (b2z b4) 24)) (Z.shiftl (b2z b5) 16))
    (Z.shiftl (b2z b6) 8)) (b2z b7)
  = b2z b0 * 2^56 + b2z b1 * 2^48 + b2z b2 * 2^40 + b2z b3 * 2^32
    + b2z b4 * 2^24 + b2z b5 * 2^16 + b2z b6 * 2^8 + b2z b7.
Proof.
  pose proof (b2z_range b0); pose proof (b2z_range b1);
  pose proof (b2z_range b2); pose proof (b2z_range b3);
  pose proof (b2z_range b4); pose proof (b2z_range b5);
  pose proof (b2z_range b6); pose proof (b2z_range b7).
  rewrite !Z.shiftl_mul_pow2 by lia.
  rewrite (lor_disjoint_add _ (b2z b1 * 2^48) 56);
    [| lia | Z.div_mod_to_equations; lia | lia].
  rewrite (lor_disjoint_add _ (b2z b2 * 2^40) 48);
    [| lia | Z.div_mod_to_equations; lia | lia].
  rewrite (lor_disjoint_add _ (b2z b3 * 2^32) 40);
    [| lia | Z.div_mod_to_equations; lia | lia].
  rewrite (lor_disjoint_add _ (b2z b4 * 2^24) 32);
    [| lia | Z.div_mod_to_equations; lia | lia].
  rewrite (lor_disjoint_add _ (b2z b5 * 2^16) 24);
    [| lia | Z.div_mod_to_equations; lia | lia].
  rewrite (lor_disjoint_add _ (b2z b6 * 2^8) 16);
    [| lia | Z.div_mod_to_equations; lia | lia].
  rewrite (lor_disjoint_add _ (b2z b7) 8);
    [| lia | Z.div_mod_to_equations; lia | lia].
  reflexivity.
Qed.

Lemma DecodeUnsignedHyper_bytes8 (i : Z) (rest : list byte) :
  DecodeUnsignedHyper (bytes8 i ++ rest) = (rest, uint64 i, None).
Proof.
  unfold DecodeUnsignedHyper, ReadFull, bytes8.
  cbn [zeros repeat List.length firstn skipn Nat.eqb app nth].
  rewrite hyper_lor, !b2z_z2b, !Z.shiftr_div_pow2 by lia.
  unfold uint64. f_equal. f_equal. Z.div_mod_to_equations; lia.
Qed.

Lemma maxInt_eq : maxInt = 2^63 - 1.
Proof. reflexivity. Qed.

Lemma uint64_small (x : Z) : 0 <= x < 2^64 -> uint64 x = x.
Proof. intros H. unfold uint64. apply Z.mod_small. assumption. Qed.

Lemma uint32_small (x : Z) : 0 <= x < 2^32 -> uint32 x = x.
Proof. intros H. unfold uint32. apply Z.mod_small. assumption. Qed.

(** ** C10 *)

(** C10.  An 8- or 16-bit integer field is decoded from a full four-byte
    word; whatever the word's value, no error is raised, and the field
    receives the one value of its range that agrees with the word modulo
    2^8 or 2^16: the low-order bits. *)
Theorem C10_narrow_integer_decode_truncates
  (b0 b1 b2 b3 : byte) (rest : list byte) (v : Value) :
  let w := wordValue b0 b1 b2 b3 in
  let d := b0 :: b1 :: b2 :: b3 :: rest in
  (exists x, Decode int8Codec d v = (rest, VInt x, Some None)
             /\ - 2^7 <= x < 2^7 /\ x mod 2^8 = w mod 2^8) /\
  (exists x, Decode int16Codec d v = (rest, VInt x, Some None)
             /\ - 2^15 <= x < 2^15 /\ x mod 2^16 = w mod 2^16) /\
  Decode uint8Codec d v = (rest, VUint (w mod 2^8), Some None) /\
  Decode uint16Codec d v = (rest, VUint (w mod 2^16), Some None).
Proof.
  intros w d. subst d.
  cbn [Decode]. unfold decodeInt, decodeUint, DecodeInt.
  rewrite DecodeUnsignedInt_word. fold w.
  repeat split.
  - exists (int8 (int32 w)). split; [reflexivity|].
    unfold int8, int32. split; Z.div_mod_to_equations; lia.
  - exists (int16 (int32 w)). split; [reflexivity|].
    unfold int16, int32. split; Z.div_mod_to_equations; lia.
Qed.

(** ** C5 *)

(** C5.  Evaluation at the failing input: the length prefix announces four
    bytes, the source ends after two.  [DecodeOpaque] returns the
    zero-filled buffer and a nil error, and so does the string codec on
    top of it: the [ErrUnexpectedEOF] of [io.ReadFull] is not returned,
    although [DecodeFixedOpaque] on the same body does return it. *)
Theorem C5_DecodeOpaque_drops_read_error :
  let wire := [x00; x00; x00; x04; x41; x42] in
  DecodeOpaque wire 16 = ([], Some [x41; x42; x00; x00], None)
  /\ Decode (varStringCodec 16 16) wire (VString [])
     = ([], VString [x41; x42; x00; x00], Some None)
  /\ Decode (opaqueSliceCodec 16 16) wire (VSlice None)
     = ([], VSlice (Some [VUint 65; VUint 66; VUint 0; VUint 0]), Some None)
  /\ DecodeFixedOpaque [x41; x42] (zeros 4)
     = ([], [x41; x42; x00; x00], Some ErrUnexpectedEOF).
Proof. repeat split. Qed.

(** The read error is lost for every body, not only at that input. *)
Lemma DecodeOpaque_never_reports_body_error
  (b0 b1 b2 b3 : byte) (body : list byte) (maxLen : Z) :
  snd (DecodeOpaque (b0 :: b1 :: b2 :: b3 :: body) maxLen) = None
  \/ exists a m, snd (DecodeOpaque (b0 :: b1 :: b2 :: b3 :: body) maxLen)
                 = Some (LengthError a m).
Proof.
  unfold DecodeOpaque. rewrite DecodeUnsignedInt_word.
  destruct (wordValue b0 b1 b2 b3 =? 0); [left; reflexivity|].
  destruct (uint64 maxLen <? uint64 (wordValue b0 b1 b2 b3)).
  - right. eexists _, _. reflexivity.
  - left. unfold ReadFull. reflexivity.
Qed.

(** ** Tags of one entry *)

Lemma Append_MaxLen (M : Z) :
  tags.Append [] tags.MaxLen [M] = Some (maxlenTag M).
Proof. reflexivity. Qed.

Lemma Append_Len (N : Z) : tags.Append [] tags.Len [N] = Some (lenTag N).
Proof. reflexivity. Qed.

Lemma Append_Opaque (t : tags.XDRTag) :
  tags.Append t tags.Opaque [] = Some (t ++ [z2b tags.Opaque]).
Proof. reflexivity. Qed.

Lemma valAt_be32 (k : byte) (v : Z) (rest : tags.XDRTag) :
  tags.valAt (k :: tags.be32 v ++ rest) 1 = Some (uint32 v).
Proof.
  transitivity
    (Some (Z.lor (Z.lor (Z.shiftl (b2z (z2b (Z.shiftr v 24))) 24)
                        (Z.shiftl (b2z (z2b (Z.shiftr v 16))) 16))
                 (Z.shiftl (b2z (z2b (Z.shiftr v 8))) 8)
           + b2z (z2b v))); [reflexivity|].
  f_equal.
  pose proof (b2z_range (z2b (Z.shiftr v 24))).
  pose proof (b2z_range (z2b (Z.shiftr v 16))).
  pose proof (b2z_range (z2b (Z.shiftr v 8))).
  pose proof (b2z_range (z2b v)).
  rewrite !Z.shiftl_mul_pow2 by lia.
  rewrite (lor_disjoint_add _ (b2z (z2b (Z.shiftr v 16)) * 2^16) 24);
    [| lia | Z.div_mod_to_equations; lia | lia].
  rewrite (lor_disjoint_add _ (b2z (z2b (Z.shiftr v 8)) * 2^8) 16);
    [| lia | Z.div_mod_to_equations; lia | lia].
  rewrite !b2z_z2b, !Z.shiftr_div_pow2 by lia.
  unfold uint32. Z.div_mod_to_equations; lia.
Qed.

Lemma Next_single (k : byte) (v : Z) (rest : tags.XDRTag) :
  0x80 <= b2z k < 0xC0 ->
  tags.Next (k :: tags.be32 v ++ rest) = Some rest.
Proof.
  intros Hk. unfold tags.Next, tags.thisLen.
  destruct (Z.ltb_spec (b2z k) 0x80); [lia|].
  destruct (Z.ltb_spec (b2z k) 0xC0); [|lia].
  unfold tags.len. cbn [List.length tags.be32 app].
  destruct rest as [|r rest'].
  - reflexivity.
  - cbn [List.length].
    destruct (Z.eqb_spec
                (Z.of_nat (S (S (S (S (S (S (List.length rest'))))))))
                5); [lia|].
    unfold tags.sliceFrom, tags.len. cbn [List.length].
    destruct (Z.leb_spec 5
                (Z.of_nat (S (S (S (S (S (S (List.length rest')))))))));
      [|lia].
    reflexivity.
Qed.

Lemma Next_maxlenTag (M : Z) (rest : tags.XDRTag) :
  tags.Next (maxlenTag M ++ rest) = Some rest.
Proof.
  unfold maxlenTag. cbn [app].
  apply Next_single. change (b2z (z2b tags.MaxLen)) with 135. lia.
Qed.

Lemma Next_lenTag (N : Z) (rest : tags.XDRTag) :
  tags.Next (lenTag N ++ rest) = Some rest.
Proof.
  unfold lenTag. cbn [app].
  apply Next_single. change (b2z (z2b tags.Len)) with 134. lia.
Qed.

Lemma capAtMaxInt_u32 (M : Z) : 0 <= M < 2^32 -> capAtMaxInt M = M.
Proof.
  intros H. unfold capAtMaxInt. rewrite maxInt_eq.
  rewrite !uint64_small by lia.
  destruct (Z.ltb_spec (2^63 - 1) M); [lia | reflexivity].
Qed.

Lemma maxlenOf_maxlenTag (t : Type') (M : Z) (rest : tags.XDRTag) :
  0 <= M < 2^32 -> maxlenOf t (maxlenTag M ++ rest) = Some (inr M).
Proof.
  intros H. unfold maxlenOf.
  change (tags.Kind (maxlenTag M ++ rest)) with 135.
  change (135 =? tags.MaxLen) with true. cbv iota.
  unfold tags.OnlyValue, maxlenTag. cbn [app].
  rewrite valAt_be32, uint32_small by lia. reflexivity.
Qed.

(** ** C4 *)

Section LengthGuard.

Variable ParseUint : string -> Z -> Z -> Z * option error.

Lemma getCodec_string_maxlen (M : Z) :
  0 <= M < 2^32 ->
  getCodec ParseUint (Scalar SString) (maxlenTag M)
  = Some (varStringCodec M M).
Proof.
  intros H. unfold getCodec. cbn [buildCodec].
  change (tags.Kind (maxlenTag M)) with 135.
  change (135 =? tags.Opt) with false. cbv iota.
  unfold makeStringCodec.
  rewrite <- (app_nil_r (maxlenTag M)), Next_maxlenTag.
  change (tags.Empty []) with true. cbn [negb]. cbv iota.
  change (tags.Kind (maxlenTag M ++ [])) with 135.
  change (135 =? tags.Len) with false.
  change (135 =? tags.MaxLen) with true. cbv iota.
  unfold tags.OnlyValue, maxlenTag. cbn [app].
  rewrite valAt_be32, uint32_small by lia.
  rewrite capAtMaxInt_u32 by lia.
  rewrite andb_false_r. reflexivity.
Qed.

Lemma getCodec_opaque_maxlen (M : Z) :
  0 <= M < 2^32 ->
  getCodec ParseUint (SliceOf (Scalar SUint8))
    (maxlenTag M ++ [z2b tags.Opaque])
  = Some (opaqueSliceCodec M M).
Proof.
  intros H. unfold getCodec. cbn [buildCodec].
  change (tags.Kind (maxlenTag M ++ [z2b tags.Opaque])) with 135.
  change (135 =? tags.Opt) with false. cbv iota.
  unfold makeSliceCodec.
  rewrite maxlenOf_maxlenTag, Next_maxlenTag by assumption.
  rewrite capAtMaxInt_u32 by lia. reflexivity.
Qed.

Lemma getCodec_slice_maxlen (M : Z) (et : Type') (elem : xCodec) :
  0 <= M < 2^32 ->
  getCodec ParseUint et [] = Some elem ->
  getCodec ParseUint (SliceOf et) (maxlenTag M)
  = Some (sliceCodec elem (SliceOf et) M M).
Proof.
  intros H He. unfold getCodec in *. cbn [buildCodec].
  change (tags.Kind (maxlenTag M)) with 135.
  change (135 =? tags.Opt) with false. cbv iota.
  unfold makeSliceCodec.
  rewrite <- (app_nil_r (maxlenTag M)).
  rewrite maxlenOf_maxlenTag, Next_maxlenTag by assumption.
  rewrite capAtMaxInt_u32 by lia.
  change (tags.Kind [] =? tags.Opaque) with false. cbv iota.
  rewrite He. reflexivity.
Qed.

(** C4.  Under a schema maximum M, the codecs of a string, of an opaque
    byte sequence and of a variable-length sequence refuse a value longer
    than M before anything is written (the encoder is returned as it
    was), and refuse a wire length prefix greater than M right after the
    prefix; in both directions the error is a [LengthError] that matches
    [ErrLengthExceedsMax]. *)
Theorem C4_length_exceeds_max (M : Z) (HM : 0 <= M < 2^32) :
  (getCodec ParseUint (Scalar SString) (maxlenTag M)
   = Some (varStringCodec M M)
   /\ getCodec ParseUint (SliceOf (Scalar SUint8))
        (maxlenTag M ++ [z2b tags.Opaque])
      = Some (opaqueSliceCodec M M)
   /\ forall et elem,
        getCodec ParseUint et [] = Some elem ->
        getCodec ParseUint (SliceOf et) (maxlenTag M)
        = Some (sliceCodec elem (SliceOf et) M M))
  /\ (forall e s,
        M < blen s <= maxInt ->
        Encode (varStringCodec M M) e (VString s)
        = (e, Some (Some (LengthError (blen s) M))))
  /\ (forall e l s,
        bytesOf l = Some s -> M < blen s <= maxInt ->
        Encode (opaqueSliceCodec M M) e (VSlice (Some l))
        = (e, Some (Some (LengthError (blen s) M))))
  /\ (forall elem t e l,
        M < Z.of_nat (List.length l) <= maxInt ->
        Encode (sliceCodec elem t M M) e (VSlice (Some l))
        = (e, Some (Some (LengthError (Z.of_nat (List.length l)) M))))
  /\ (forall b0 b1 b2 b3 rest v,
        let w := wordValue b0 b1 b2 b3 in
        let d := b0 :: b1 :: b2 :: b3 :: rest in
        M < w ->
        Decode (varStringCodec M M) d v
        = (rest, VString [], Some (Some (LengthError w M)))
        /\ Decode (opaqueSliceCodec M M) d v
           = (rest, VSlice None, Some (Some (LengthError w M)))
        /\ forall elem t,
             Decode (sliceCodec elem t M M) d v
             = (rest, v, Some (Some (LengthError w M))))
  /\ (forall a, M < a ->
        errors.Is (LengthError a M) ErrLengthExceedsMax = true).
Proof.
  assert (HmaxInt := maxInt_eq).
  split; [|split; [|split; [|split; [|split]]]].
  - split; [apply getCodec_string_maxlen; assumption|].
    split; [apply getCodec_opaque_maxlen; assumption|].
    intros et elem He. apply getCodec_slice_maxlen; assumption.
  - intros e s Hs. cbn [Encode].
    rewrite !uint64_small by lia.
    destruct (Z.leb_spec (blen s) M); [lia | reflexivity].
  - intros e l s Hb Hs. cbn [Encode]. rewrite Hb.
    rewrite !uint64_small by lia.
    destruct (Z.ltb_spec M (blen s)); [reflexivity | lia].
  - intros elem t e l Hl. cbn [Encode].
    rewrite !uint64_small by lia.
    destruct (Z.ltb_spec M (Z.of_nat (List.length l))); [reflexivity | lia].
  - intros b0 b1 b2 b3 rest v w d Hw. subst d.
    pose proof (wordValue_range b0 b1 b2 b3) as Hr. fold w in Hr.
    assert (Hop : DecodeOpaque (b0 :: b1 :: b2 :: b3 :: rest) M
                  = (rest, None, Some (LengthError w M))).
    { unfold DecodeOpaque. rewrite DecodeUnsignedInt_word. fold w.
      destruct (Z.eqb_spec w 0); [lia|].
      rewrite !uint64_small by lia.
      destruct (Z.ltb_spec M w); [reflexivity | lia]. }
    split; [|split].
    + cbn [Decode]. unfold DecodeString. rewrite Hop.
      rewrite uint64_small by lia. reflexivity.
    + cbn [Decode]. rewrite Hop. reflexivity.
    + intros elem t. cbn [Decode]. rewrite DecodeUnsignedInt_word. fold w.
      destruct (Z.eqb_spec w 0); [lia|].
      rewrite uint32_small, !uint64_small by lia.
      destruct (Z.ltb_spec M w); [reflexivity | lia].
  - intros a Ha. cbn. apply Z.ltb_lt. assumption.
Qed.

End LengthGuard.

(** The case of the repository's tests: [maxlen:4] and five elements. *)
Lemma C4_witness :
  0 <= 4 < 2^32
  /\ Encode (varStringCodec 4 4) [] (VString [x48; x65; x6c; x6c; x6f])
     = ([], Some (Some (LengthError 5 4)))
  /\ Decode (varStringCodec 4 4)
       [x00; x00; x00; x05; x48; x65; x6c; x6c; x6f; x00; x00; x00]
       (VString [])
     = ([x48; x65; x6c; x6c; x6f; x00; x00; x00], VString [],
        Some (Some (LengthError 5 4))).
Proof.
  assert (H : 0 <= 4 < 2^32) by lia.
  split; [exact H|].
  destruct (C4_length_exceeds_max strconv.ParseUint 4 H)
    as (_ & Henc & _ & _ & Hdec & _).
  split.
  - apply (Henc [] [x48; x65; x6c; x6c; x6f]). vm_compute.
    split; [reflexivity | discriminate].
  - apply (Hdec x00 x00 x00 x05 [x48; x65; x6c; x6c; x6f; x00; x00; x00]
             (VString [])).
    reflexivity.
Defined.

(** ** C9 *)

Section EmptyStruct.

Variable ParseUint : string -> Z -> Z -> Z * option error.

Lemma classify_all_skipped (t : Type')
  (fs : list (StructField * getCodecFn)) (i : nat) :
  Forall (fun p => Tag (fst p) = "-"%string) fs ->
  classify ParseUint t fs i = Some Undetermined.
Proof.
  intros H. revert i. induction H as [|[f get] fs Hf _ IH]; intros i.
  - reflexivity.
  - cbn [classify]. cbn [fst] in Hf. rewrite Hf.
    change (tags.ParseStructTag ParseUint (Type_ f) "-" tags.MaybeInUnion)
      with (Some (tags.skipTag, @None error, tags.MaybeInUnion)).
    cbv iota beta.
    change (tags.Kind tags.skipTag =? tags.Skip) with true.
    cbn [negb andb tags.IsInUnion_eqb]. apply IH.
Qed.

(** C9.  A struct type without fields, or whose fields are all tagged
    [-], compiles to a struct codec without fields; that codec encodes
    any value to zero bytes and decodes by consuming zero bytes, leaving
    the destination as it was, and succeeds in both directions. *)
Theorem C9_empty_struct_is_void (name : string) (fields : list StructField)
  (Hskip : Forall (fun f => Tag f = "-"%string) fields) :
  getCodec ParseUint (StructOf name fields) [] = Some (structCodec name [])
  /\ (forall e v, Encode (structCodec name []) e v = (e, Some None))
  /\ (forall d v, Decode (structCodec name []) d v = (d, v, Some None)).
Proof.
  split; [|split; reflexivity].
  unfold getCodec. cbn [buildCodec].
  change (tags.Kind [] =? tags.Opt) with false.
  change (tags.Empty []) with true. cbn [negb]. cbv iota.
  unfold makeStructCodec. rewrite classify_all_skipped; [reflexivity|].
  apply Forall_forall. intros [f get] Hin. cbn [fst].
  apply in_map_iff in Hin. destruct Hin as (f' & Heq & Hin).
  inversion Heq; subst.
  rewrite Forall_forall in Hskip. apply Hskip. assumption.
Qed.

End EmptyStruct.

Lemma C9_witness :
  getCodec strconv.ParseUint
    (StructOf "hidden"
       [mkStructField "A" (Scalar SInt32) "-";
        mkStructField "B" (Scalar SString) "-"]) []
  = Some (structCodec "hidden" [])
  /\ Encode (structCodec "hidden" []) [] (VStruct [VInt 7; VString [x41]])
     = ([], Some None)
  /\ Decode (structCodec "hidden" []) [x01] (VStruct [VInt 7; VString [x41]])
     = ([x01], VStruct [VInt 7; VString [x41]], Some None).
Proof.
  destruct (C9_empty_struct_is_void strconv.ParseUint "hidden"
              [mkStructField "A" (Scalar SInt32) "-";
               mkStructField "B" (Scalar SString) "-"]) as (Hc & He & Hd).
  - repeat constructor.
  - split; [exact Hc|]. split; [apply He | apply Hd].
Defined.

(** ** C6 *)

(** The part of the rule the parser does enforce: a [union:switch] that
    is not on the first non-skipped field finds the struct already
    classified, and is rejected. *)
Lemma union_switch_only_first
  (ParseUint : string -> Z -> Z -> Z * option error)
  (t : Type') (isUnion : tags.IsInUnion) :
  isUnion <> tags.MaybeInUnion ->
  exists err,
    tags.ParseTag ParseUint t "union:switch" isUnion
    = Some ([], Some err, isUnion).
Proof.
  intros H. destruct isUnion; [congruence| |]; eexists; reflexivity.
Qed.

(** C6.  Evaluation at the failing input, a struct whose first field is
    a 16-bit integer tagged [union:switch]: the parser accepts the tag and
    classifies the struct as a union, and [makeStructCodec] then panics
    ("Switch field of union not valid (must be int32, uint32 or bool)")
    instead of returning an error; with a 32-bit switch the same struct
    compiles to a union codec. *)
Theorem C6_union_switch_width_unchecked
  (ParseUint : string -> Z -> Z -> Z * option error) :
  let U (sw : scalar) :=
    StructOf "U" [mkStructField "Switch" (Scalar sw) "union:switch";
                  mkStructField "Arm" (Scalar SInt32) "union:default"] in
  tags.validForUnionSwitch (Scalar SInt16) = true
  /\ tags.ParseTag ParseUint (Scalar SInt16) "union:switch" tags.MaybeInUnion
     = Some ([z2b tags.UnionSwitch], None, tags.InUnion)
  /\ getCodec ParseUint (U SInt16) [] = None
  /\ getCodec ParseUint (U SInt32) []
     = Some (unionCodec "U" (mkField 0%nat int32Codec "Switch")
               [None; Some (mkField 1%nat int32Codec "Arm")] [] 1
               switchKindInt).
Proof. repeat split. Qed.

(** Every integer kind but [Uint64] passes the parser's check, and every
    one of them other than the two 32-bit kinds makes the builder panic. *)
Lemma union_switch_panics
  (ParseUint : string -> Z -> Z -> Z * option error) (sw : scalar) :
  In sw [SInt; SInt8; SInt16; SInt64; SUint; SUint8; SUint16] ->
  tags.validForUnionSwitch (Scalar sw) = true
  /\ getCodec ParseUint
       (StructOf "U" [mkStructField "Switch" (Scalar sw) "union:switch"]) []
     = None.
Proof.
  intros H. cbn [In] in H.
  repeat (destruct H as [<-|H]; [split; reflexivity|]). contradiction.
Qed.

(** ** C7 *)

Lemma TrimRightSpace_token (s : string) :
  token s = true -> strings.TrimRightSpace s = s.
Proof.
  induction s as [|a r IH]; [reflexivity|].
  cbn [token]. intros H.
  apply andb_prop in H. destruct H as [H Hr].
  apply andb_prop in H. destruct H as [Ha _].
  cbn [strings.TrimRightSpace]. rewrite (IH Hr).
  destruct r; [|reflexivity].
  apply negb_true_iff in Ha. rewrite Ha. reflexivity.
Qed.

Lemma Split_token (s : string) :
  token s = true -> strings.Split s "/" = [s].
Proof.
  induction s as [|a r IH]; [reflexivity|].
  cbn [token]. intros H.
  apply andb_prop in H. destruct H as [H Hr].
  apply andb_prop in H. destruct H as [_ Ha].
  cbn [strings.Split]. apply negb_true_iff in Ha. rewrite Ha.
  rewrite (IH Hr). reflexivity.
Qed.

Lemma land_3 (x : Z) : Z.land x 3 = x mod 4.
Proof. change 3 with (Z.ones 2). rewrite Z.land_ones by lia. reflexivity. Qed.

Lemma padding_eq (n : Z) : Z.land (4 - Z.land n 3) 3 = (- n) mod 4.
Proof. rewrite !land_3. Z.div_mod_to_equations; lia. Qed.

Lemma firstn_zeros (k n : nat) : (k <= n)%nat -> firstn k (zeros n) = zeros k.
Proof.
  unfold zeros. revert n. induction k as [|k IH]; intros n H; [reflexivity|].
  destruct n as [|n]; [lia|]. cbn [repeat firstn]. f_equal. apply IH. lia.
Qed.

Lemma EncodeFixedString_eq (w : encoder) (s : list byte) :
  EncodeFixedString w s = (w ++ s ++ padOf (blen s), None).
Proof.
  unfold EncodeFixedString, Write, padOf. rewrite padding_eq.
  rewrite firstn_zeros, <- app_assoc; [reflexivity|].
  assert (0 <= (- blen s) mod 4 < 4) by (apply Z.mod_pos_bound; lia). lia.
Qed.

Lemma EncodeFixedOpaque_eq (w : encoder) (buf : list byte) :
  EncodeFixedOpaque w buf = (w ++ buf ++ padOf (blen buf), None).
Proof. exact (EncodeFixedString_eq w buf). Qed.

Section LenTag.

Variable ParseUint : string -> Z -> Z -> Z * option error.

Lemma Trimmed_lenTag (N : Z) : tags.Trimmed (lenTag N) = Some (lenTag N).
Proof. reflexivity. Qed.

Lemma ParseTag_len (t : Type') (s : string) (N : Z) (isU : tags.IsInUnion) :
  token s = true -> isU <> tags.InUnion ->
  ParseUint s 0 32 = (N, None) -> 0 <= N < 2^32 ->
  tags.ParseTag ParseUint t ("len:" ++ s)%string isU
  = match kindOf t with
    | Array =>
        Some ([], Some (Errorf
                "Cannot apply `len:` tag to an array; just specify length directly"
                []), tags.NotInUnion)
    | String | Slice => Some (lenTag N, None, tags.NotInUnion)
    | _ =>
        Some ([], Some (Errorf
                "Cannot apply `len:` tag to %s; must be slice, string or map"
                [AType t]), tags.NotInUnion)
    end.
Proof.
  intros Htok HisU HPU HN.
  set (p := ("len:" ++ s)%string).
  assert (Htok' : token p = true) by exact Htok.
  assert (Htrim : strings.TrimSpace p = p).
  { unfold strings.TrimSpace.
    replace (strings.TrimLeftSpace p) with p by reflexivity.
    apply TrimRightSpace_token. exact Htok'. }
  assert (E1 : (p =? "-")%string = false) by reflexivity.
  assert (E2 : strings.HasPrefix p "union:" = false) by reflexivity.
  assert (E3 : (p =? "")%string = false) by reflexivity.
  assert (E4 : (p =? "opt")%string = false) by reflexivity.
  assert (E5 : (p =? "opaque")%string = false) by reflexivity.
  assert (E6 : strings.HasPrefix p "len:" = true) by reflexivity.
  assert (E7 : strings.from 4 p = s) by reflexivity.
  assert (HnotIn : tags.IsInUnion_eqb isU tags.InUnion = false)
    by (destruct isU; [reflexivity | reflexivity | congruence]).
  clearbody p.
  unfold tags.ParseTag. rewrite Htrim, E1, (Split_token _ Htok'), E2, HnotIn.
  cbn [tags.layers]. rewrite Htrim.
  unfold tags.layerStep. rewrite E3, E4, E5, E6, E7.
  unfold tags.parseU32. rewrite HPU, uint32_small by assumption.
  destruct t as [[]| | | | |]; cbn [kindOf]; reflexivity.
Qed.

Lemma getCodec_string_len (N : Z) :
  0 <= N < 2^32 ->
  getCodec ParseUint (Scalar SString) (lenTag N) = Some (fixedStringCodec N).
Proof.
  intros H. unfold getCodec. cbn [buildCodec].
  replace (tags.Kind (lenTag N) =? tags.Opt) with false by reflexivity.
  unfold makeStringCodec.
  rewrite <- (app_nil_r (lenTag N)), Next_lenTag.
  replace (tags.Empty []) with true by reflexivity. cbn [negb].
  replace (tags.Kind (lenTag N ++ []) =? tags.Len) with true by reflexivity.
  unfold tags.OnlyValue, lenTag. cbn [app].
  rewrite valAt_be32, uint32_small by lia.
  rewrite capAtMaxInt_u32 by lia.
  rewrite maxInt_eq, !uint64_small by lia.
  destruct (Z.ltb_spec (2^63 - 1) N); [lia | reflexivity].
Qed.

Lemma getCodec_slice_len (et : Type') (N : Z) :
  getCodec ParseUint (SliceOf et) (lenTag N)
  = Some (errorCodec (InvalidTagForTypeError (SliceOf et) (lenTag N))).
Proof. reflexivity. Qed.

(** C7, as the code has it.  For a field tagged [len:N] (N a numeral
    [ParseUint] reads, the struct not a union): on a fixed-size array the
    parser rejects the tag; on a string the tag parses to [Len(N)] and
    compiles to the fixed-length string codec, which writes the N bytes
    and their padding with no length prefix and fails with
    [ErrLengthIncorrect] on any other length; on a slice the tag parses
    to [Len(N)] too, but the slice builder takes only [maxlen:] and
    compiles it to an error codec: every encode and decode of the field
    fails with [InvalidTagForTypeError]. *)
Theorem C7_len_tag (s : string) (N : Z) (isU : tags.IsInUnion)
  (Htok : token s = true) (HisU : isU <> tags.InUnion)
  (Hnum : ParseUint s 0 32 = (N, None)) (HN : 0 <= N < 2^32) :
  (forall n et,
     exists err,
       tags.ParseTag ParseUint (ArrayOf n et) ("len:" ++ s)%string isU
       = Some ([], Some err, tags.NotInUnion))
  /\ (tags.ParseTag ParseUint (Scalar SString) ("len:" ++ s)%string isU
      = Some (lenTag N, None, tags.NotInUnion)
      /\ getCodec ParseUint (Scalar SString) (lenTag N)
         = Some (fixedStringCodec N)
      /\ (forall e v,
            blen v = N ->
            Encode (fixedStringCodec N) e (VString v)
            = (e ++ v ++ padOf N, Some None))
      /\ (forall e v,
            blen v <> N -> blen v <= maxInt ->
            Encode (fixedStringCodec N) e (VString v)
            = (e, Some (Some (Xerror ErrLengthIncorrect)))))
  /\ (forall et,
        let err := InvalidTagForTypeError (SliceOf et) (lenTag N) in
        tags.ParseTag ParseUint (SliceOf et) ("len:" ++ s)%string isU
        = Some (lenTag N, None, tags.NotInUnion)
        /\ getCodec ParseUint (SliceOf et) (lenTag N) = Some (errorCodec err)
        /\ (forall e v, Encode (errorCodec err) e v = (e, Some (Some err)))
        /\ (forall d v,
              Decode (errorCodec err) d v = (d, v, Some (Some err)))).
Proof.
  split; [|split].
  - intros n et. eexists.
    rewrite (ParseTag_len _ s N isU) by assumption. reflexivity.
  - split; [rewrite (ParseTag_len _ s N isU) by assumption; reflexivity|].
    split; [apply getCodec_string_len; assumption|].
    split.
    + intros e v Hv. cbn [Encode]. rewrite Hv, Z.eqb_refl.
      rewrite EncodeFixedString_eq, Hv. reflexivity.
    + intros e v Hv Hmax. cbn [Encode]. rewrite maxInt_eq in Hmax.
      assert (0 <= blen v) by (unfold blen; lia).
      rewrite !uint64_small by lia.
      destruct (Z.eqb_spec (blen v) N); [contradiction | reflexivity].
  - intros et err.
    split; [rewrite (ParseTag_len _ s N isU) by assumption; reflexivity|].
    split; [apply getCodec_slice_len|]. split; reflexivity.
Qed.

End LenTag.

Lemma C7_witness :
  tags.ParseTag strconv.ParseUint (Scalar SString) "len:4" tags.MaybeInUnion
  = Some (lenTag 4, None, tags.NotInUnion)
  /\ Encode (fixedStringCodec 4) [] (VString [x48; x69; x21; x21])
     = ([x48; x69; x21; x21], Some None)
  /\ getCodec strconv.ParseUint (SliceOf (Scalar SInt32)) (lenTag 4)
     = Some (errorCodec
               (InvalidTagForTypeError (SliceOf (Scalar SInt32)) (lenTag 4))).
Proof.
  assert (Hnot : tags.MaybeInUnion <> tags.InUnion) by discriminate.
  assert (HN : 0 <= 4 < 2^32) by lia.
  destruct (C7_len_tag strconv.ParseUint "4" 4 tags.MaybeInUnion
              eq_refl Hnot eq_refl HN)
    as (_ & (Hp & _ & Henc & _) & Hslice).
  split; [exact Hp|]. split.
  - apply (Henc [] [x48; x69; x21; x21]). reflexivity.
  - destruct (Hslice (Scalar SInt32)) as (_ & Hc & _). exact Hc.
Defined.

(** C7 as the claim states it fails on slices: a two-element slice under
    [len:2] is not written as two elements without a length prefix; the
    struct that holds it does not encode at all. *)
Lemma C7_counterexample :
  let T := StructOf "T" [mkStructField "X" (SliceOf (Scalar SInt32)) "len:2"] in
  Marshal strconv.ParseUint T (VStruct [VSlice (Some [VInt 1; VInt 2])])
  = ([], Some (Some (FieldError
                       (InvalidTagForTypeError (SliceOf (Scalar SInt32))
                          (lenTag 2))
                       "T.X")))
  /\ Marshal strconv.ParseUint T (VStruct [VSlice (Some [VInt 1; VInt 2])])
     <> (bytes4 1 ++ bytes4 2, Some None).
Proof. split; [reflexivity | discriminate]. Qed.

(** ** C8 *)

Lemma nth_error_setNth_eq {A} (l : list A) (i : nat) (x y : A) :
  nth_error l i = Some y -> nth_error (setNth l i x) i = Some x.
Proof.
  revert i. induction l as [|a l IH]; intros [|i] H; cbn in *;
    try discriminate; [reflexivity | apply IH; assumption].
Qed.

Lemma setNth_setNth {A} (l : list A) (i : nat) (x y : A) :
  setNth (setNth l i x) i y = setNth l i y.
Proof.
  revert i. induction l as [|a l IH]; intros [|i]; cbn; try reflexivity.
  f_equal. apply IH.
Qed.

Lemma int32_idem (x : Z) : int32 (int32 x) = int32 x.
Proof. unfold int32. Z.div_mod_to_equations; lia. Qed.

Lemma Encode_switch (sk : switchKind) (e : encoder) (b0 b1 b2 b3 : byte) :
  let w := wordValue b0 b1 b2 b3 in
  (sk = switchKindBool -> w = 0 \/ w = 1) ->
  Encode (switchCodec sk) e (discriminant sk w)
  = (e ++ [b0; b1; b2; b3], Some None)
  /\ swValOf sk (discriminant sk w) = Some w.
Proof.
  intros w Hb. pose proof (wordValue_range b0 b1 b2 b3) as Hr. fold w in Hr.
  destruct sk; cbn [switchCodec discriminant Encode swValOf].
  - destruct (Hb eq_refl) as [H|H]; rewrite H; cbn [Z.eqb Pos.eqb];
      unfold EncodeBool; rewrite EncodeInt_eq; cbn [ret];
      rewrite <- bytes4_wordValue; fold w; rewrite H; split; reflexivity.
  - rewrite EncodeInt_eq. cbn [ret].
    rewrite (bytes4_congr (int32 (int32 w)) w)
      by (rewrite !int32_mod; reflexivity).
    unfold w at 1. rewrite bytes4_wordValue. split; [reflexivity|].
    unfold uint32. rewrite int32_mod. f_equal. apply Z.mod_small. lia.
  - rewrite EncodeUnsignedInt_eq. cbn [ret].
    rewrite uint32_small by lia.
    unfold w at 1. rewrite bytes4_wordValue. split; reflexivity.
Qed.

Lemma Decode_switch (sk : switchKind) (b0 b1 b2 b3 : byte)
  (rest : list byte) (old : Value) :
  let w := wordValue b0 b1 b2 b3 in
  (sk = switchKindBool -> w = 0 \/ w = 1) ->
  Decode (switchCodec sk) (b0 :: b1 :: b2 :: b3 :: rest) old
  = (rest, discriminant sk w, Some None).
Proof.
  intros w Hb. pose proof (wordValue_range b0 b1 b2 b3) as Hr. fold w in Hr.
  destruct sk; cbn [switchCodec discriminant Decode].
  - rewrite C3_DecodeBool_domain. fold w.
    destruct (Hb eq_refl) as [H|H]; rewrite H; reflexivity.
  - unfold decodeInt, DecodeInt. rewrite DecodeUnsignedInt_word. fold w.
    rewrite int32_idem. reflexivity.
  - unfold decodeUint. rewrite DecodeUnsignedInt_word. fold w.
    rewrite uint32_small by lia. reflexivity.
Qed.

(** C8.  A union codec whose case table has no entry for the discriminant
    and which has no default arm ([defaultCase] is -1): decoding reads the
    discriminant word and nothing more, stores it in the switch field,
    touches no arm and fails; encoding a value with that discriminant
    writes the discriminant word and fails.  The error is
    [ErrUnionSwitchArmUndefined] under its field path. *)
Theorem C8_union_arm_undefined
  (uname swname : string) (idx : nat) (sk : switchKind)
  (body : list (option field)) (cases : list (Z * Z))
  (fs : list Value) (old : Value) (b0 b1 b2 b3 : byte) (rest : list byte) :
  let w := wordValue b0 b1 b2 b3 in
  let c := unionCodec uname (mkField idx (switchCodec sk) swname) body cases
             (-1) sk in
  nth_error fs idx = Some old ->
  lookupCase cases w = None ->
  (sk = switchKindBool -> w = 0 \/ w = 1) ->
  exists path,
    let err := FieldError (Xerror ErrUnionSwitchArmUndefined) path in
    Decode c (b0 :: b1 :: b2 :: b3 :: rest) (VStruct fs)
    = (rest, VStruct (setNth fs idx (discriminant sk w)), Some (Some err))
    /\ (forall e,
          Encode c e (VStruct (setNth fs idx (discriminant sk w)))
          = (e ++ [b0; b1; b2; b3], Some (Some err)))
    /\ errors.Is err ErrUnionSwitchArmUndefined = true.
Proof.
  intros w c Hold Hcase Hb.
  exists (((if String.eqb uname "" then "<anonymous>" else uname)
           ++ "." ++ "?" ++ "(" ++ unionPath (-1) ++ ")")%string).
  cbv zeta. subst c. split; [|split].
  - cbn [Decode]. unfold union_decode, field_decode, bindDec.
    cbn [bindex bfn bname index codec name Field]. rewrite Hold.
    rewrite (Decode_switch sk b0 b1 b2 b3 rest old Hb). fold w.
    cbn [setField].
    destruct (Encode_switch sk [] b0 b1 b2 b3 Hb) as [_ Hsw]. fold w in Hsw.
    rewrite Hsw, Hcase. cbn [Z.eqb Pos.eqb]. cbv iota.
    unfold errors.WithFieldError.
    destruct (String.eqb uname ""); reflexivity.
  - intros e. cbn [Encode]. unfold union_encode, field_encode, bindEnc.
    cbn [bindex bfn bname index codec name Field].
    rewrite (nth_error_setNth_eq _ _ _ _ Hold).
    destruct (Encode_switch sk e b0 b1 b2 b3 Hb) as [Henc Hsw].
    fold w in Henc, Hsw. rewrite Henc, Hsw, Hcase.
    cbn [Z.eqb Pos.eqb]. cbv iota.
    unfold errors.WithFieldError.
    destruct (String.eqb uname ""); reflexivity.
  - reflexivity.
Qed.

(** The union of the repository's tests, cut down to one arm, at the
    discriminant 7. *)
Lemma C8_witness :
  getCodec strconv.ParseUint
    (StructOf "U" [mkStructField "S" (Scalar SUint32) "union:switch";
                   mkStructField "I" (Scalar SInt32) "union:0"]) []
  = Some (unionCodec "U" (mkField 0%nat (switchCodec switchKindUint) "S")
            [None; Some (mkField 1%nat int32Codec "I")] [(0, 1)] (-1)
            switchKindUint)
  /\ exists path,
       Decode (unionCodec "U" (mkField 0%nat (switchCodec switchKindUint) "S")
                 [None; Some (mkField 1%nat int32Codec "I")] [(0, 1)] (-1)
                 switchKindUint)
         [x00; x00; x00; x07; x12; x34; x56; x78]
         (VStruct [VUint 0; VInt 0])
       = ([x12; x34; x56; x78], VStruct [VUint 7; VInt 0],
          Some (Some (FieldError (Xerror ErrUnionSwitchArmUndefined) path))).
Proof.
  split; [reflexivity|].
  destruct (C8_union_arm_undefined "U" "S" 0%nat switchKindUint
              [None; Some (mkField 1%nat int32Codec "I")] [(0, 1)]
              [VUint 0; VInt 0] (VUint 0) x00 x00 x00 x07
              [x12; x34; x56; x78] eq_refl eq_refl)
    as (path & Hd & _).
  - discriminate.
  - exists path. exact Hd.
Defined.

(** ** C2 *)

Lemma extends_refl e : extends e e.
Proof. exists []. rewrite app_nil_r. split; [reflexivity | apply Nat.divide_0_r]. Qed.

Lemma extends_trans e1 e2 e3 : extends e1 e2 -> extends e2 e3 -> extends e1 e3.
Proof.
  intros (b1 & -> & H1) (b2 & -> & H2). exists (b1 ++ b2).
  rewrite app_assoc, length_app. split; [reflexivity|].
  apply Nat.divide_add_r; assumption.
Qed.

Lemma extends_app e bs : Nat.divide 4 (List.length bs) -> extends e (e ++ bs).
Proof. intros H. exists bs. split; [reflexivity | assumption]. Qed.

Lemma padOf_length (n : Z) : (List.length (padOf n) < 4)%nat.
Proof.
  unfold padOf, zeros. rewrite repeat_length.
  assert (0 <= (- n) mod 4 < 4) by (apply Z.mod_pos_bound; lia). lia.
Qed.

Lemma padded_length (buf : list byte) :
  Nat.divide 4 (List.length (buf ++ padOf (blen buf))).
Proof.
  rewrite length_app. unfold padOf, zeros, blen. rewrite repeat_length.
  set (n := List.length buf).
  assert (Hr : 0 <= (- Z.of_nat n) mod 4 < 4) by (apply Z.mod_pos_bound; lia).
  exists (Z.to_nat ((Z.of_nat n + (- Z.of_nat n) mod 4) / 4)).
  apply Nat2Z.inj. rewrite Nat2Z.inj_add, Nat2Z.inj_mul, !Z2Nat.id; try lia.
  - Z.div_mod_to_equations; lia.
  - Z.div_mod_to_equations; lia.
Qed.

Lemma extends_ret4 e i : extends e (fst (ret (EncodeInt e i))).
Proof. rewrite EncodeInt_eq. apply extends_app. exists 1%nat. reflexivity. Qed.

Lemma extends_retU4 e i : extends e (fst (ret (EncodeUnsignedInt e i))).
Proof. apply extends_ret4. Qed.

Lemma extends_ret8 e i : extends e (fst (ret (EncodeHyper e i))).
Proof. rewrite EncodeHyper_eq. apply extends_app. exists 2%nat. reflexivity. Qed.

Lemma extends_fixed e s : extends e (fst (EncodeFixedString e s)).
Proof. rewrite EncodeFixedString_eq. apply extends_app, padded_length. Qed.

Lemma extends_string e s : extends e (fst (EncodeString e s)).
Proof.
  unfold EncodeString. destruct (uint64 MaxUint32 <? uint64 (blen s)).
  - apply extends_refl.
  - rewrite EncodeUnsignedInt_eq.
    eapply extends_trans; [|apply extends_fixed].
    apply extends_app. exists 1%nat. reflexivity.
Qed.

Lemma fst_ret {S} (r : S * option error) : fst (ret r) = fst r.
Proof. destruct r. reflexivity. Qed.

Lemma encodeElems_aligned (enc : encFn) (l : list Value) :
  aligned enc -> forall e, extends e (fst (encodeElems enc l e)).
Proof.
  intros Henc. induction l as [|x l IH]; intros e; cbn [encodeElems].
  - apply extends_refl.
  - pose proof (Henc e x) as Hx. destruct (enc e x) as [e' [[err|]|]];
      cbn [fst] in *; try assumption.
    eapply extends_trans; [exact Hx | apply IH].
Qed.

Lemma encodeEntries_aligned (kenc venc : encFn) (m : list (Value * Value)) :
  aligned kenc -> aligned venc ->
  forall e, extends e (fst (encodeEntries kenc venc m e)).
Proof.
  intros Hk Hv. induction m as [|[k v] m IH]; intros e; cbn [encodeEntries].
  - apply extends_refl.
  - pose proof (Hk e k) as Hx. destruct (kenc e k) as [e' [[err|]|]];
      cbn [fst] in *; try assumption.
    pose proof (Hv e' v) as Hy. destruct (venc e' v) as [e'' [[err|]|]];
      cbn [fst] in *; try (eapply extends_trans; eassumption).
    eapply extends_trans; [exact Hx|].
    eapply extends_trans; [exact Hy | apply IH].
Qed.

Lemma field_encode_aligned (f : bound encFn) (e : encoder) (p : Value) :
  aligned (bfn f) -> extends e (fst (field_encode f e p)).
Proof.
  intros H. unfold field_encode. destruct (Field p (bindex f)) as [v|].
  - pose proof (H e v) as Hv. destruct (bfn f e v) as [e' [err|]]; exact Hv.
  - apply extends_refl.
Qed.

Lemma struct_encode_aligned name (fields : list (bound encFn)) :
  Forall (fun f => aligned (bfn f)) fields ->
  aligned (struct_encode name fields).
Proof.
  intros H e v. revert e. induction H as [|f fields Hf _ IH]; intros e;
    cbn [struct_encode].
  - apply extends_refl.
  - pose proof (field_encode_aligned f e v Hf) as Hx.
    destruct (field_encode f e v) as [e' [[x [err|]]|]]; cbn [fst] in *;
      try assumption.
    eapply extends_trans; [exact Hx | apply IH].
Qed.

Lemma union_encode_aligned name sw body cases defaultCase sk :
  aligned (bfn sw) ->
  Forall (fun o => match o with
                   | Some f => aligned (bfn f)
                   | None => True
                   end) body ->
  aligned (union_encode name sw body cases defaultCase sk).
Proof.
  intros Hsw Hbody e v. unfold union_encode.
  pose proof (field_encode_aligned sw e v Hsw) as Hx.
  destruct (field_encode sw e v) as [e' [[swv [err|]]|]]; cbn [fst] in *;
    try assumption.
  destruct (swValOf sk swv) as [swVal|]; [|assumption].
  match goal with |- context [if ?c then _ else _] => destruct c end;
    [assumption|].
  match goal with |- context [bodyAt body ?i] =>
    destruct (bodyAt body i) as [f|] eqn:Hf end; [|assumption].
  assert (Hal : aligned (bfn f)).
  { unfold bodyAt in Hf.
    match type of Hf with context [if ?c then _ else _] => destruct c end;
      [discriminate|].
    match type of Hf with context [nth_error body ?n] =>
      destruct (nth_error body n) as [[g|]|] eqn:Hn end; try discriminate.
    inversion Hf; subst g.
    apply nth_error_In in Hn. rewrite Forall_forall in Hbody.
    exact (Hbody _ Hn). }
  pose proof (field_encode_aligned f e' v Hal) as Hy.
  destruct (field_encode f e' v) as [e'' [[y [err|]]|]]; cbn [fst] in *;
    eapply extends_trans; eassumption.
Qed.


Lemma extends_fst_ret e (r : encoder * option error) :
  extends e (fst r) -> extends e (fst (ret r)).
Proof. destruct r. exact (fun H => H). Qed.

Lemma extends_EncodeInt e i : extends e (fst (EncodeInt e i)).
Proof. rewrite EncodeInt_eq. apply extends_app. exists 1%nat. reflexivity. Qed.

Lemma extends_EncodeHyper e i : extends e (fst (EncodeHyper e i)).
Proof. rewrite EncodeHyper_eq. apply extends_app. exists 2%nat. reflexivity. Qed.

Lemma extends_EncodeOpaque e s : extends e (fst (EncodeOpaque e s)).
Proof. exact (extends_string e s). Qed.

Ltac leaf :=
  intros e v; cbn [Encode]; destruct v; try apply extends_refl.

Lemma Encode_aligned (c : xCodec) : aligned (Encode c).
Proof.
  induction c using xCodec_rect'.
  - leaf. apply extends_fst_ret, extends_EncodeInt.
  - leaf. apply extends_fst_ret, extends_EncodeInt.
  - leaf. apply extends_fst_ret, extends_EncodeInt.
  - leaf. apply extends_fst_ret, extends_EncodeInt.
  - leaf. apply extends_fst_ret, extends_EncodeInt.
  - leaf. apply extends_fst_ret, extends_EncodeInt.
  - leaf. apply extends_fst_ret, extends_EncodeInt.
  - leaf. apply extends_fst_ret, extends_EncodeHyper.
  - leaf. apply extends_fst_ret, extends_EncodeHyper.
  - leaf. apply extends_fst_ret, extends_EncodeInt.
  - leaf. apply extends_fst_ret, extends_EncodeHyper.
  - leaf. unfold EncodeFloat. rewrite !EncodeUnsignedInt_eq.
    cbn [ret fst]. rewrite <- app_assoc. apply extends_app.
    exists 2%nat. reflexivity.
  - leaf. unfold EncodeDouble. rewrite !EncodeUnsignedHyper_eq.
    cbn [ret fst]. rewrite <- app_assoc. apply extends_app.
    exists 4%nat. reflexivity.
  - leaf. destruct (uint64 (blen s) =? uint64 len);
      [apply extends_fst_ret, extends_fixed | apply extends_refl].
  - leaf. destruct (uint64 (blen s) <=? uint64 maxlen);
      [apply extends_fst_ret, extends_string | apply extends_refl].
  - leaf. destruct (bytesOf elems); [|apply extends_refl].
    apply extends_fst_ret. exact (extends_fixed e l).
  - leaf. apply encodeElems_aligned. assumption.
  - leaf. destruct (bytesOf _); [|apply extends_refl].
    destruct (maxlen <? blen l); [apply extends_refl|].
    apply extends_fst_ret, extends_EncodeOpaque.
  - leaf. match goal with |- context [if ?b then _ else _] => destruct b end;
      [apply extends_refl|].
    rewrite EncodeUnsignedInt_eq.
    eapply extends_trans; [|apply encodeElems_aligned; assumption].
    apply extends_app. exists 1%nat. reflexivity.
  - leaf. match goal with |- context [if ?b then _ else _] => destruct b end;
      [apply extends_refl|].
    rewrite EncodeUnsignedInt_eq.
    eapply extends_trans; [|apply encodeEntries_aligned; assumption].
    apply extends_app. exists 1%nat. reflexivity.
  - intros e v. cbn [Encode]. destruct (IsNil v) as [isNil|];
      [|apply extends_refl].
    unfold EncodeBool. rewrite EncodeInt_eq.
    assert (H4 : extends e (e ++ bytes4 (int32 (if negb isNil then 1 else 0)))).
    { apply extends_app. exists 1%nat. reflexivity. }
    destruct isNil; [exact H4|].
    eapply extends_trans; [exact H4 | apply IHc].
  - leaf. destruct target; [apply IHc | apply extends_refl].
  - intros e v. cbn [Encode]. apply struct_encode_aligned.
    apply Forall_map. eapply Forall_impl; [|eassumption].
    intros f Hf. exact Hf.
  - intros e v. cbn [Encode]. apply union_encode_aligned.
    + exact IHc.
    + apply Forall_map. eapply Forall_impl; [|eassumption].
      intros [f|] Hf; [exact Hf | exact I].
  - intros e v. apply extends_refl.
Qed.

(** C2.  Whatever the codec and the value, and whether the call returns
    nil, an error or panics part-way, what [Encode] has added to the output
    is a whole number of four-byte words; so is all [Marshal] returns.  In
    particular a fixed opaque or string body is followed by the fewer than
    four zero bytes ([padOf]) that round its length up to a multiple of
    four. *)
Theorem C2_encoding_is_word_aligned :
  (forall (c : xCodec) (e : encoder) (v : Value),
     exists bs,
       fst (Encode c e v) = e ++ bs /\ Nat.divide 4 (List.length bs))
  /\ (forall ParseUint (t : Type') (o : Value),
        Nat.divide 4 (List.length (fst (Marshal ParseUint t o))))
  /\ (forall (w : encoder) (buf : list byte),
        EncodeFixedOpaque w buf = (w ++ buf ++ padOf (blen buf), None)
        /\ EncodeFixedString w buf = (w ++ buf ++ padOf (blen buf), None)
        /\ padOf (blen buf) = zeros (List.length (padOf (blen buf)))
        /\ (List.length (padOf (blen buf)) < 4)%nat
        /\ Nat.divide 4 (List.length (buf ++ padOf (blen buf)))).
Proof.
  split; [|split].
  - intros c e v. exact (Encode_aligned c e v).
  - intros PU t o. unfold Marshal.
    destruct (getBaseCodec PU t) as [c|].
    + destruct (Encode_aligned c [] o) as (bs & Hbs & Hdiv).
      cbn [app] in Hbs. subst bs. exact Hdiv.
    + apply Nat.divide_0_r.
  - intros w buf.
    split; [apply EncodeFixedOpaque_eq|].
    split; [apply EncodeFixedString_eq|].
    split; [|split; [apply padOf_length | apply padded_length]].
    unfold padOf, zeros. rewrite repeat_length. reflexivity.
Qed.

(** ** The wire layer, there and back *)

Lemma land_lnot_3 (x : Z) : Z.land x (Z.lnot 3) = x - x mod 4.
Proof.
  rewrite <- Z.ldiff_land. change 3 with (Z.ones 2).
  rewrite Z.ldiff_ones_r by lia.
  rewrite Z.shiftl_mul_pow2, Z.shiftr_div_pow2 by lia.
  Z.div_mod_to_equations; lia.
Qed.

Lemma pad_after (n : Z) : Z.land (n + 3) (Z.lnot 3) - n = (- n) mod 4.
Proof. rewrite land_lnot_3. Z.div_mod_to_equations; lia. Qed.

Lemma ReadFull_exact (s rest buf : list byte) :
  List.length buf = List.length s ->
  ReadFull (s ++ rest) buf = (rest, s, blen s, None).
Proof.
  intros H. unfold ReadFull. rewrite H.
  rewrite firstn_app, firstn_all, Nat.sub_diag, firstn_O, app_nil_r.
  rewrite Nat.eqb_refl.
  rewrite skipn_app, skipn_all, Nat.sub_diag, skipn_O.
  replace (skipn (List.length s) buf) with (@nil byte)
    by (rewrite <- H, skipn_all; reflexivity).
  rewrite app_nil_r. reflexivity.
Qed.

Lemma zeros_length (n : nat) : List.length (zeros n) = n.
Proof. apply repeat_length. Qed.

Lemma padOf_Zlength (n : Z) : blen (padOf n) = (- n) mod 4.
Proof.
  unfold blen, padOf. rewrite zeros_length.
  assert (0 <= (- n) mod 4 < 4) by (apply Z.mod_pos_bound; lia). lia.
Qed.

Lemma DecodeFixedOpaque_padded (s rest buf : list byte) :
  List.length buf = List.length s ->
  DecodeFixedOpaque (s ++ padOf (blen s) ++ rest) buf = (rest, s, None).
Proof.
  intros H. unfold DecodeFixedOpaque.
  rewrite (ReadFull_exact s _ buf H).
  rewrite pad_after.
  destruct (Z.eqb_spec ((- blen s) mod 4) 0) as [E|E]; cbn [negb].
  - unfold padOf. rewrite E. reflexivity.
  - rewrite (ReadFull_exact (padOf (blen s)) rest).
    + reflexivity.
    + unfold padOf. rewrite !zeros_length. reflexivity.
Qed.

Lemma blen_range (s : list byte) : 0 <= blen s.
Proof. unfold blen. lia. Qed.

Lemma blen_app (a b : list byte) : blen (a ++ b) = blen a + blen b.
Proof. unfold blen. rewrite length_app. lia. Qed.

Lemma DecodeOpaque_padded (s rest : list byte) (maxLen : Z) :
  blen s <= maxLen -> blen s < 2^32 -> maxLen < 2^64 ->
  DecodeOpaque (bytes4 (blen s) ++ s ++ padOf (blen s) ++ rest) maxLen
  = (rest, match s with [] => None | _ => Some s end, None).
Proof.
  intros Hmax H32 H64. pose proof (blen_range s) as H0.
  unfold DecodeOpaque. rewrite DecodeUnsignedInt_bytes4.
  rewrite uint32_small by lia.
  destruct (Z.eqb_spec (blen s) 0) as [E|E].
  - destruct s; [|unfold blen in E; cbn in E; lia]. reflexivity.
  - rewrite !uint64_small by lia.
    destruct (Z.ltb_spec maxLen (blen s)); [lia|].
    assert (Hpad : Z.land (blen s + 3) (Z.lnot 3) = blen (s ++ padOf (blen s))).
    { rewrite blen_app, padOf_Zlength, <- pad_after. lia. }
    rewrite Hpad. rewrite app_assoc.
    rewrite (ReadFull_exact (s ++ padOf (blen s)) rest).
    + replace (Z.to_nat (blen s)) with (List.length s)
        by (unfold blen; rewrite Nat2Z.id; reflexivity).
      rewrite firstn_app, firstn_all, Nat.sub_diag, firstn_O, app_nil_r.
      destruct s; [unfold blen in E; cbn in E; lia | reflexivity].
    + unfold blen. rewrite Nat2Z.id, zeros_length. reflexivity.
Qed.

Lemma EncodeOpaque_eq (w : encoder) (s : list byte) :
  blen s < 2^32 ->
  EncodeOpaque w s = (w ++ bytes4 (blen s) ++ s ++ padOf (blen s), None).
Proof.
  intros H. pose proof (blen_range s). unfold EncodeOpaque, MaxUint32.
  rewrite !uint64_small by lia.
  destruct (Z.ltb_spec (2^32 - 1) (blen s)); [lia|].
  rewrite EncodeUnsignedInt_eq, uint32_small by lia.
  rewrite EncodeFixedOpaque_eq, <- app_assoc. reflexivity.
Qed.

Lemma EncodeOpaque_ok (w w' : encoder) (s : list byte) :
  blen s <= maxInt -> EncodeOpaque w s = (w', None) -> blen s < 2^32.
Proof.
  intros Hm H. pose proof (blen_range s). rewrite maxInt_eq in Hm.
  unfold EncodeOpaque, MaxUint32 in H.
  rewrite !uint64_small in H by lia.
  destruct (Z.ltb_spec (2^32 - 1) (blen s)); [discriminate | lia].
Qed.

Lemma EncodeString_is_Opaque w s : EncodeString w s = EncodeOpaque w s.
Proof. reflexivity. Qed.

(** ** C1

    Encoding and then decoding, codec by codec. *)

(** Boolean side conditions of [fits], as hypotheses for [lia]. *)
Ltac bsplit :=
  repeat match goal with
  | H : _ && _ = true |- _ => apply andb_prop in H; destruct H
  | H : inRange _ _ _ = true |- _ => unfold inRange in H
  | H : (_ <=? _) = true |- _ => apply Z.leb_le in H
  | H : (_ <? _) = true |- _ => apply Z.ltb_lt in H
  | H : (_ =? _) = true |- _ => apply Z.eqb_eq in H
  end.

Ltac wraps :=
  unfold int8, int16, int32, int64, uint8, uint16, uint32, uint64;
  Z.div_mod_to_equations; lia.

Ltac leaf_start v Hv He :=
  destruct v; try discriminate Hv;
  cbn [fits] in Hv; bsplit;
  cbn [Encode] in He.

Lemma EncodeBool_eq (e : encoder) (b : bool) :
  EncodeBool e b = (e ++ bytes4 (if b then 1 else 0), None).
Proof. destruct b; reflexivity. Qed.

Lemma roundTrips_bool : roundTrips boolCodec.
Proof.
  intros v dest e e' Hv Hd He. leaf_start v Hv He.
  rewrite EncodeBool_eq in He. cbn [ret] in He.
  inversion He; subst e'; clear He.
  eexists. split; [reflexivity|]. intros rest. cbn [Decode overlay].
  unfold DecodeBool. rewrite DecodeUnsignedInt_bytes4.
  destruct b; reflexivity.
Qed.

(** The integer codecs: one word (or two) there, the same back. *)
Ltac int_leaf :=
  intros v dest e e' Hv Hd He; leaf_start v Hv He;
  rewrite ?EncodeInt_eq, ?EncodeUnsignedInt_eq, ?EncodeHyper_eq,
    ?EncodeUnsignedHyper_eq in He;
  cbn [ret] in He; inversion He; subst; clear He;
  eexists; split; [reflexivity|]; intros rest; cbn [Decode overlay];
  unfold decodeInt, decodeUint, DecodeInt, DecodeHyper, DecodeFloat,
    DecodeDouble;
  rewrite ?DecodeUnsignedInt_bytes4, ?DecodeUnsignedHyper_bytes8;
  repeat f_equal; wraps.

Lemma roundTrips_int8 : roundTrips int8Codec.
Proof. int_leaf. Qed.
Lemma roundTrips_int16 : roundTrips int16Codec.
Proof. int_leaf. Qed.
Lemma roundTrips_int32 : roundTrips int32Codec.
Proof. int_leaf. Qed.
Lemma roundTrips_uint8 : roundTrips uint8Codec.
Proof. int_leaf. Qed.
Lemma roundTrips_uint16 : roundTrips uint16Codec.
Proof. int_leaf. Qed.
Lemma roundTrips_uint32 : roundTrips uint32Codec.
Proof. int_leaf. Qed.
Lemma roundTrips_hyper : roundTrips hyperCodec.
Proof. int_leaf. Qed.
Lemma roundTrips_uhyper : roundTrips uhyperCodec.
Proof. int_leaf. Qed.
Lemma roundTrips_double : roundTrips doubleCodec.
Proof.
  intros v dest e e' Hv Hd He. leaf_start v Hv He.
  unfold EncodeDouble in He. rewrite EncodeUnsignedHyper_eq in He.
  cbn [ret] in He. inversion He; subst; clear He.
  eexists; split; [reflexivity|]; intros rest; cbn [Decode overlay].
  unfold DecodeDouble. rewrite DecodeUnsignedHyper_bytes8.
  repeat f_equal; wraps.
Qed.

(** A [float32] goes through [float64] on its way out and on its way in,
    which quiets a signalling NaN; doing so twice changes nothing more. *)
Lemma lor_bound (a b n : Z) :
  0 <= n -> 0 <= a < 2^n -> 0 <= b < 2^n -> 0 <= Z.lor a b < 2^n.
Proof.
  intros Hn Ha Hb.
  assert (H0 : 0 <= Z.lor a b) by (apply Z.lor_nonneg; lia).
  split; [exact H0|].
  destruct (Z.eq_dec (Z.lor a b) 0) as [E|E].
  - rewrite E. apply Z.pow_pos_nonneg; lia.
  - assert (Hn0 : n <> 0).
    { intros ->. assert (a = 0) by lia. assert (b = 0) by lia. subst.
      apply E. reflexivity. }
    apply Z.log2_lt_pow2; [lia|].
    rewrite Z.log2_lor by lia.
    apply Z.max_lub_lt.
    + destruct (Z.eq_dec a 0) as [->|]; [cbn; lia|].
      apply Z.log2_lt_pow2; lia.
    + destruct (Z.eq_dec b 0) as [->|]; [cbn; lia|].
      apply Z.log2_lt_pow2; lia.
Qed.

Lemma viaFloat64_range (f : Z) : 0 <= f < 2^32 -> 0 <= viaFloat64 f < 2^32.
Proof.
  intros H. unfold viaFloat64. destruct (isNaN32 f); [|exact H].
  apply lor_bound; lia.
Qed.

Lemma viaFloat64_idem (f : Z) : viaFloat64 (viaFloat64 f) = viaFloat64 f.
Proof.
  unfold viaFloat64. destruct (isNaN32 f) eqn:E.
  - destruct (isNaN32 (Z.lor f 4194304)); [|reflexivity].
    rewrite <- Z.lor_assoc, Z.lor_diag. reflexivity.
  - rewrite E. reflexivity.
Qed.

(** What the detour changes is a NaN before and after: the decoded
    [float32] is the encoded one as the claim compares them. *)
Lemma viaFloat64_same (f : Z) : sameFloat32 (viaFloat64 f) f = true.
Proof.
  unfold sameFloat32, viaFloat64. destruct (isNaN32 f) eqn:E.
  - assert (En : isNaN32 (Z.lor f 4194304) = true).
    { unfold isNaN32 in *. apply andb_prop in E as [E1 E2].
      apply andb_true_intro. split.
      - rewrite Z.shiftr_lor, Z.land_lor_distr_l.
        change (Z.land (Z.shiftr 4194304 23) 255) with 0.
        rewrite Z.lor_0_r. exact E1.
      - apply negb_true_iff, Z.eqb_neq. intros H.
        rewrite Z.land_lor_distr_l in H.
        apply Z.lor_eq_0_iff in H. destruct H as [_ H]. discriminate H. }
    rewrite En. reflexivity.
  - unfold feq32. rewrite E, Z.eqb_refl. cbn [negb andb orb].
    reflexivity.
Qed.

Lemma float_there_and_back (f : Z) (rest : list byte) :
  0 <= f < 2^32 ->
  DecodeFloat (bytes4 (viaFloat64 f) ++ rest) = (rest, viaFloat64 f, None).
Proof.
  intros H. unfold DecodeFloat. rewrite DecodeUnsignedInt_bytes4.
  rewrite uint32_small by (apply viaFloat64_range; exact H). reflexivity.
Qed.

Lemma roundTrips_float : roundTrips floatCodec.
Proof.
  intros v dest e e' Hv Hd He. leaf_start v Hv He.
  unfold EncodeFloat in He. rewrite EncodeUnsignedInt_eq in He.
  cbn [ret] in He. inversion He; subst; clear He.
  eexists; split; [reflexivity|]; intros rest; cbn [Decode overlay].
  rewrite float_there_and_back by lia. rewrite viaFloat64_idem. reflexivity.
Qed.

Lemma roundTrips_complex64 : roundTrips complex64Codec.
Proof.
  intros v dest e e' Hv Hd He. leaf_start v Hv He.
  unfold EncodeFloat in He. rewrite !EncodeUnsignedInt_eq in He.
  cbn [ret] in He. inversion He; subst; clear He.
  exists (bytes4 (viaFloat64 re) ++ bytes4 (viaFloat64 im)).
  split; [rewrite app_assoc; reflexivity|]. intros rest.
  cbn [Decode overlay]. rewrite <- app_assoc.
  rewrite float_there_and_back by lia.
  rewrite float_there_and_back by lia.
  rewrite !viaFloat64_idem. reflexivity.
Qed.

Lemma roundTrips_complex128 : roundTrips complex128Codec.
Proof.
  intros v dest e e' Hv Hd He. leaf_start v Hv He.
  unfold EncodeDouble in He. rewrite !EncodeUnsignedHyper_eq in He.
  cbn [ret] in He. inversion He; subst; clear He.
  exists (bytes8 re ++ bytes8 im).
  split; [rewrite app_assoc; reflexivity|]. intros rest.
  cbn [Decode overlay]. rewrite <- app_assoc. unfold DecodeDouble.
  rewrite !DecodeUnsignedHyper_bytes8.
  rewrite !uint64_small by lia. reflexivity.
Qed.

Lemma roundTrips_fixedString len : roundTrips (fixedStringCodec len).
Proof.
  intros v dest e e' Hv Hd He. leaf_start v Hv He.
  pose proof (blen_range s) as Hs0. rewrite maxInt_eq in *.
  rewrite !uint64_small in He by lia.
  destruct (Z.eqb_spec (blen s) len) as [El|El]; [|discriminate].
  rewrite EncodeFixedString_eq in He. cbn [ret] in He.
  inversion He; subst; clear He.
  eexists; split; [reflexivity|]. intros rest. cbn [Decode overlay].
  unfold DecodeFixedString.
  destruct (Z.ltb_spec (blen s) 0); [lia|].
  rewrite <- app_assoc, DecodeFixedOpaque_padded; [reflexivity|].
  rewrite zeros_length. unfold blen. apply Nat2Z.id.
Qed.

Lemma roundTrips_varString maxlen origMax :
  roundTrips (varStringCodec maxlen origMax).
Proof.
  intros v dest e e' Hv Hd He. leaf_start v Hv He.
  pose proof (blen_range s) as Hs0. rewrite maxInt_eq in *.
  rewrite !uint64_small in He by lia.
  destruct (Z.leb_spec (blen s) maxlen) as [El|El]; [|discriminate].
  destruct (EncodeString e s) as [e1 [err|]] eqn:Es; [discriminate|].
  cbn [ret] in He. inversion He; subst e1; clear He.
  rewrite EncodeString_is_Opaque in Es.
  assert (H32 : blen s < 2^32)
    by (apply (EncodeOpaque_ok e e'); [rewrite maxInt_eq; lia | exact Es]).
  rewrite EncodeOpaque_eq in Es by exact H32. injection Es as Es. subst e'.
  exists (bytes4 (blen s) ++ s ++ padOf (blen s)).
  split; [reflexivity|]. intros rest. cbn [Decode overlay].
  unfold DecodeString. rewrite <- !app_assoc.
  rewrite DecodeOpaque_padded by lia.
  destruct s; reflexivity.
Qed.

(** *** Opaque data *)

Lemma bytesOf_bytes (l : list Value) :
  forallb isByteValue l = true ->
  exists s, bytesOf l = Some s /\ ofBytes s = l
            /\ List.length s = List.length l.
Proof.
  induction l as [|x l IH]; intros H.
  - exists []. repeat split.
  - cbn [forallb] in H. apply andb_prop in H. destruct H as [Hx Hl].
    destruct (IH Hl) as (s & Hs & Ho & Hlen).
    destruct x; try discriminate Hx. cbn [isByteValue] in Hx. bsplit.
    exists (z2b u :: s). cbn [bytesOf]. rewrite Hs.
    split; [reflexivity|]. split.
    + cbn [ofBytes map]. rewrite b2z_z2b. fold (ofBytes s). rewrite Ho.
      rewrite Z.mod_small by lia. reflexivity.
    + cbn [List.length]. rewrite Hlen. reflexivity.
Qed.

Lemma roundTrips_opaqueArray len : roundTrips (opaqueArrayCodec len).
Proof.
  intros v dest e e' Hv Hd He.
  destruct v; try discriminate Hv. destruct dest; try discriminate Hd.
  cbn [fits] in Hv, Hd. bsplit. unfold zlength in *.
  destruct (bytesOf_bytes elems) as (s & Hs & Ho & Hlen); [assumption|].
  destruct (bytesOf_bytes elems0) as (sd & Hsd & _ & Hlend); [assumption|].
  cbn [Encode] in He. rewrite Hs, EncodeFixedOpaque_eq in He.
  cbn [ret] in He. injection He as He. subst e'.
  exists (s ++ padOf (blen s)). split; [reflexivity|]. intros rest.
  cbn [Decode overlay]. rewrite Hsd. rewrite <- app_assoc.
  rewrite DecodeFixedOpaque_padded by lia. rewrite Ho. reflexivity.
Qed.

Lemma roundTrips_opaqueSlice maxlen origMax :
  roundTrips (opaqueSliceCodec maxlen origMax).
Proof.
  intros v dest e e' Hv Hd He.
  destruct v as [| | | | | | | | |o| | | |]; try discriminate Hv.
  cbn [fits] in Hv. bsplit. unfold zlength in *.
  destruct (bytesOf_bytes (olist o)) as (s & Hs & Ho & Hlen); [assumption|].
  cbn [Encode] in He. change (match o with Some l => l | None => [] end)
    with (olist o) in He. rewrite Hs in He.
  assert (Hbl : blen s = Z.of_nat (List.length (olist o)))
    by (unfold blen; rewrite Hlen; reflexivity).
  destruct (Z.ltb_spec maxlen (blen s)); [discriminate|].
  destruct (EncodeOpaque e s) as [e1 [err|]] eqn:Es; [discriminate|].
  cbn [ret] in He. injection He as He. subst e1.
  rewrite maxInt_eq in *.
  assert (H32 : blen s < 2^32)
    by (apply (EncodeOpaque_ok e e'); [rewrite maxInt_eq; lia | exact Es]).
  rewrite EncodeOpaque_eq in Es by exact H32. injection Es as Es. subst e'.
  exists (bytes4 (blen s) ++ s ++ padOf (blen s)).
  split; [reflexivity|]. intros rest. cbn [Decode overlay].
  rewrite <- !app_assoc. rewrite DecodeOpaque_padded by lia.
  destruct s as [|b s].
  - destruct o as [[|x l]|]; [reflexivity | discriminate Hlen | reflexivity].
  - destruct o as [[|x l]|]; [discriminate Hlen | | discriminate Hlen].
    cbn [option_map]. cbn [olist] in Ho. rewrite Ho. reflexivity.
Qed.

(** *** Sequences *)

Section Elems.

Variables (fit : Value -> bool) (enc : encFn) (dec : decFn) (ov : ovFn).
Hypothesis IH : roundTripsFn fit enc dec ov.

Lemma elems_there_and_back (lv : list Value) :
  forall ld e e',
    forallb fit lv = true -> forallb fit ld = true ->
    List.length ld = List.length lv ->
    encodeElems enc lv e = (e', Some None) ->
    exists bs,
      e' = e ++ bs
      /\ forall rest,
           decodeElems dec ld (bs ++ rest)
           = (rest, overlayElems ov ld lv, Some None).
Proof.
  induction lv as [|x lv IHl]; intros ld e e' Hv Hd Hlen He.
  - destruct ld; [|discriminate Hlen]. cbn in He. injection He as He.
    exists []. split; [rewrite app_nil_r; congruence | reflexivity].
  - destruct ld as [|d ld]; [discriminate Hlen|].
    cbn [forallb] in Hv, Hd. bsplit. cbn [encodeElems] in He.
    destruct (enc e x) as [e1 [[err|]|]] eqn:Ex; try discriminate He.
    destruct (IH x d e e1) as (b1 & -> & Hdec1); try assumption.
    destruct (IHl ld (e ++ b1) e') as (b2 & -> & Hdec2); try assumption.
    { cbn in Hlen. lia. }
    exists (b1 ++ b2). split; [rewrite app_assoc; reflexivity|].
    intros rest. cbn [decodeElems overlayElems].
    rewrite <- app_assoc, Hdec1, Hdec2. reflexivity.
Qed.

End Elems.

Lemma overlayElems_repeat (ov : ovFn) (z : Value) (lv : list Value) :
  overlayElems ov (repeat z (List.length lv)) lv = map (ov z) lv.
Proof.
  induction lv as [|x lv IH]; [reflexivity|].
  cbn [List.length repeat overlayElems map]. rewrite IH. reflexivity.
Qed.

Lemma forallb_repeat {A} (f : A -> bool) (x : A) (n : nat) :
  f x = true -> forallb f (repeat x n) = true.
Proof.
  intros H. induction n as [|n IH]; [reflexivity|].
  cbn [repeat forallb]. rewrite H, IH. reflexivity.
Qed.

Lemma roundTrips_array elem len :
  roundTrips elem -> roundTrips (arrayCodec elem len).
Proof.
  intros IH v dest e e' Hv Hd He.
  destruct v; try discriminate Hv. destruct dest; try discriminate Hd.
  cbn [fits] in Hv, Hd. bsplit. unfold zlength in *. cbn [Encode] in He.
  destruct (elems_there_and_back _ _ _ _ IH elems elems0 e e')
    as (bs & -> & Hdec); try assumption; [lia|].
  exists bs. split; [reflexivity|]. intros rest. cbn [Decode overlay].
  rewrite Hdec. reflexivity.
Qed.

Lemma roundTrips_slice elem t maxlen origMax :
  roundTrips elem -> roundTrips (sliceCodec elem t maxlen origMax).
Proof.
  intros IH v dest e e' Hv Hd He.
  destruct v as [| | | | | | | | |o| | | |]; try discriminate Hv.
  cbn [fits] in Hv. bsplit. destruct t as [| | et | | |]; try discriminate.
  unfold zlength in *. rewrite maxInt_eq in *.
  cbn [Encode] in He.
  change (match o with Some l => l | None => [] end) with (olist o) in He.
  set (l := olist o) in *.
  rewrite !uint64_small in He by lia.
  destruct (Z.ltb_spec maxlen (Z.of_nat (List.length l))); [discriminate|].
  rewrite EncodeUnsignedInt_eq, uint32_small in He by lia.
  destruct (elems_there_and_back _ _ _ _ IH l (repeat (Zero et) (List.length l))
              (e ++ bytes4 (Z.of_nat (List.length l))) e')
    as (bs & -> & Hdec); try assumption.
  { apply forallb_repeat. assumption. }
  { apply repeat_length. }
  exists (bytes4 (Z.of_nat (List.length l)) ++ bs).
  split; [rewrite app_assoc; reflexivity|]. intros rest.
  cbn [Decode overlay]. rewrite <- app_assoc, DecodeUnsignedInt_bytes4.
  rewrite uint32_small by lia.
  destruct (Z.eqb_spec (Z.of_nat (List.length l)) 0) as [E0|E0].
  - assert (El : l = []) by (destruct l; [reflexivity | cbn in E0; lia]).
    assert (Ebs : bs = []).
    { rewrite El in He. cbn in He. injection He as He.
      rewrite <- (app_nil_r (e ++ bytes4 0)) in He at 1.
      apply app_inv_head in He. congruence. }
    subst bs. subst l.
    destruct o as [[|x l']|]; try discriminate; reflexivity.
  - rewrite uint32_small by lia.
    destruct (Z.ltb_spec maxlen (Z.of_nat (List.length l))); [lia|].
    rewrite Nat2Z.id, Hdec, overlayElems_repeat.
    destruct o as [[|x l']|]; [cbn in E0; lia | reflexivity | cbn in E0; lia].
Qed.

(** *** Maps *)

Section Entries.

Variables (fitk fitv : Value -> bool) (kenc venc : encFn) (kdec vdec : decFn)
          (ovk ovv : ovFn) (kz vz : Value).
Hypothesis IHk : roundTripsFn fitk kenc kdec ovk.
Hypothesis IHv : roundTripsFn fitv venc vdec ovv.
Hypothesis Hkz : fitk kz = true.
Hypothesis Hvz : fitv vz = true.

Lemma entries_there_and_back (m : list (Value * Value)) :
  forall acc e e',
    forallb (fun p => fitk (fst p) && fitv (snd p)) m = true ->
    encodeEntries kenc venc m e = (e', Some None) ->
    exists bs,
      e' = e ++ bs
      /\ forall rest,
           decodeEntries kdec vdec kz vz (List.length m) (bs ++ rest) acc
           = (rest, overlayEntries (ovk kz) (ovv vz) m acc, Some None).
Proof.
  induction m as [|[k x] m IHm]; intros acc e e' Hm He.
  - cbn in He. injection He as He. exists [].
    split; [rewrite app_nil_r; congruence | reflexivity].
  - cbn [forallb fst snd] in Hm. bsplit. cbn [encodeEntries] in He.
    destruct (kenc e k) as [e1 [[err|]|]] eqn:Ek; try discriminate He.
    destruct (venc e1 x) as [e2 [[err|]|]] eqn:Ex; try discriminate He.
    destruct (IHk k kz e e1) as (b1 & -> & Hd1); try assumption.
    destruct (IHv x vz (e ++ b1) e2) as (b2 & -> & Hd2); try assumption.
    destruct (IHm (SetMapIndex acc (ovk kz k) (ovv vz x)) ((e ++ b1) ++ b2) e')
      as (b3 & -> & Hd3); try assumption.
    exists (b1 ++ b2 ++ b3). split; [rewrite !app_assoc; reflexivity|].
    intros rest. cbn [List.length decodeEntries].
    rewrite <- !app_assoc, Hd1, Hd2, Hd3. reflexivity.
Qed.

End Entries.

Lemma roundTrips_map kc vc t kt vt maxlen origMax :
  roundTrips kc -> roundTrips vc ->
  roundTrips (mapCodec kc vc t kt vt maxlen origMax).
Proof.
  intros IHk IHv v dest e e' Hv Hd He.
  destruct v as [| | | | | | | | | |o| | |]; try discriminate Hv.
  cbn [fits] in Hv. bsplit. unfold zlength in *. rewrite maxInt_eq in *.
  cbn [Encode] in He.
  change (match o with Some m => m | None => [] end) with (olist o) in He.
  set (m := olist o) in *.
  rewrite !uint64_small in He by lia.
  destruct (Z.ltb_spec maxlen (Z.of_nat (List.length m))); [discriminate|].
  rewrite EncodeUnsignedInt_eq, uint32_small in He by lia.
  destruct (entries_there_and_back _ _ _ _ _ _ _ _ (Zero kt) (Zero vt)
              IHk IHv ltac:(assumption) ltac:(assumption) m []
              (e ++ bytes4 (Z.of_nat (List.length m))) e')
    as (bs & -> & Hdec); try assumption.
  exists (bytes4 (Z.of_nat (List.length m)) ++ bs).
  split; [rewrite app_assoc; reflexivity|]. intros rest.
  cbn [Decode overlay]. rewrite <- app_assoc, DecodeUnsignedInt_bytes4.
  rewrite !uint32_small by lia.
  destruct (Z.ltb_spec maxlen (Z.of_nat (List.length m))); [lia|].
  rewrite Nat2Z.id, Hdec. reflexivity.
Qed.

(** *** Pointers *)

Lemma DecodeBool_bytes4 (b : bool) (rest : list byte) :
  DecodeBool (bytes4 (if b then 1 else 0) ++ rest) = (rest, b, None).
Proof.
  unfold DecodeBool. rewrite DecodeUnsignedInt_bytes4. destruct b; reflexivity.
Qed.

Lemma roundTrips_opt elem nilp :
  roundTrips elem -> roundTrips (optCodec elem nilp).
Proof.
  intros IH v dest e e' Hv Hd He.
  cbn [fits] in Hv. bsplit. cbn [Encode] in He.
  destruct (IsNil v) as [[|]|] eqn:Hnil; try discriminate.
  - rewrite EncodeBool_eq in He. cbn [negb] in He. injection He as He.
    subst e'. exists (bytes4 0). split; [reflexivity|]. intros rest.
    cbn [Decode overlay]. rewrite Hnil.
    rewrite (DecodeBool_bytes4 false). reflexivity.
  - rewrite EncodeBool_eq in He. cbn [negb] in He.
    destruct (IH v nilp (e ++ bytes4 1) e') as (bs & -> & Hdec);
      try assumption.
    exists (bytes4 1 ++ bs). split; [rewrite app_assoc; reflexivity|].
    intros rest. cbn [Decode overlay]. rewrite Hnil, <- app_assoc.
    rewrite (DecodeBool_bytes4 true). apply Hdec.
Qed.

Lemma roundTrips_ptr elem elemt :
  roundTrips elem -> roundTrips (ptrCodec elem elemt).
Proof.
  intros IH v dest e e' Hv Hd He.
  destruct v as [| | | | | | | | | | |o| |]; try discriminate Hv.
  cbn [fits] in Hv. bsplit. cbn [Encode] in He.
  destruct o as [x|]; [|discriminate].
  destruct (IH x (Zero elemt) e e') as (bs & -> & Hdec); try assumption.
  exists bs. split; [reflexivity|]. intros rest. cbn [Decode overlay].
  rewrite Hdec. reflexivity.
Qed.

(** *** Structs *)

Lemma fits_struct name fields fs :
  fits (structCodec name fields) (VStruct fs)
  = nodupb (map index fields) && fieldsFit fs fields.
Proof.
  cbn [fits]. f_equal. induction fields as [|f l IH]; [reflexivity|].
  cbn [fieldsFit]. rewrite <- IH. reflexivity.
Qed.

Lemma fits_union name sw body cases dflt sk fs :
  fits (unionCodec name sw body cases dflt sk) (VStruct fs)
  = match nth_error fs (index sw) with
    | Some x => fits (codec sw) x
    | None => false
    end && armsFit fs (index sw) body.
Proof.
  cbn [fits]. f_equal. induction body as [|[f|] l IH]; [reflexivity| |].
  - cbn [armsFit]. rewrite <- IH. reflexivity.
  - cbn [armsFit]. rewrite <- IH. reflexivity.
Qed.

Lemma nth_error_setNth_neq {A} (l : list A) (i j : nat) (x : A) :
  i <> j -> nth_error (setNth l i x) j = nth_error l j.
Proof.
  revert i j. induction l as [|a l IH]; intros [|i] [|j] H; cbn;
    try reflexivity; [congruence | apply IH; congruence].
Qed.

Lemma WithFieldError_some (err : error) (parts : list string) :
  errors.WithFieldError (Some err) parts <> Some None.
Proof.
  unfold errors.WithFieldError. destruct parts; [discriminate|].
  destruct err; discriminate.
Qed.

Lemma fieldsFit_setNth (fs : list Value) (i : nat) (x : Value)
  (l : list field) :
  existsb (Nat.eqb i) (map index l) = false ->
  fieldsFit (setNth fs i x) l = fieldsFit fs l.
Proof.
  induction l as [|f l IH]; intros H; [reflexivity|].
  cbn [map existsb] in H. apply orb_false_elim in H. destruct H as [Hi Hl].
  apply Nat.eqb_neq in Hi. cbn [fieldsFit].
  rewrite nth_error_setNth_neq by exact Hi. rewrite IH by exact Hl.
  reflexivity.
Qed.

Lemma fields_there_and_back (name : string) (fs : list Value)
  (fields : list field) :
  Forall (onField roundTrips) fields ->
  forall ds e e',
    nodupb (map index fields) = true ->
    fieldsFit fs fields = true -> fieldsFit ds fields = true ->
    struct_encode name (map (bindEnc Encode) fields) e (VStruct fs)
    = (e', Some None) ->
    exists bs,
      e' = e ++ bs
      /\ forall rest,
           struct_decode name (map (bindDec Decode) fields) (bs ++ rest)
             (VStruct ds)
           = (rest,
              overlayFields (map (bindOv overlay) fields) (VStruct ds)
                (VStruct fs),
              Some None).
Proof.
  induction 1 as [|f fields Hf Hfs IH]; intros ds e e' Hnd Hv Hd He.
  - cbn in He. injection He as He. exists [].
    split; [rewrite app_nil_r; congruence | reflexivity].
  - cbn [map nodupb] in Hnd. cbn [fieldsFit] in Hv, Hd.
    apply andb_prop in Hnd as [Hni Hnd]. apply andb_prop in Hv as [Hvx Hv].
    apply andb_prop in Hd as [Hdx' Hd]. apply negb_true_iff in Hni.
    destruct (nth_error fs (index f)) as [x|] eqn:Hx; [|discriminate].
    destruct (nth_error ds (index f)) as [d|] eqn:Hdx; [|discriminate].
    cbn [map struct_encode] in He. unfold field_encode in He.
    cbn [bindEnc bindex bfn bname Field] in He. rewrite Hx in He.
    destruct (Encode (codec f) e x) as [e1 [[err|]|]] eqn:Ex;
      try discriminate He.
    { exfalso. apply (WithFieldError_some err [name; coder.name f]).
      exact (f_equal snd He). }
    destruct (Hf x d e e1) as (b1 & -> & Hd1); try assumption.
    destruct (IH (setNth ds (index f) (overlay (codec f) d x)) (e ++ b1) e')
      as (b2 & -> & Hd2); try assumption.
    { rewrite fieldsFit_setNth; assumption. }
    exists (b1 ++ b2). split; [rewrite app_assoc; reflexivity|].
    intros rest. cbn [map struct_decode]. unfold field_decode.
    cbn [bindDec bindex bfn bname Field]. rewrite Hdx.
    rewrite <- app_assoc, Hd1. cbn [setField]. rewrite Hd2.
    change (overlayFields (bindOv overlay f :: ?l) ?a ?b)
      with (overlayFields l (overlayField (bindOv overlay f) a b) b).
    unfold overlayField. cbn [bindOv bindex bfn Field setField].
    rewrite Hdx, Hx. reflexivity.
Qed.

Lemma roundTrips_struct name fields :
  Forall (onField roundTrips) fields -> roundTrips (structCodec name fields).
Proof.
  intros IH v dest e e' Hv Hd He.
  destruct v as [| | | | | | | | | | | |fs|]; try discriminate Hv.
  destruct dest as [| | | | | | | | | | | |ds|]; try discriminate Hd.
  rewrite fits_struct in Hv, Hd. bsplit. cbn [Encode] in He.
  destruct (fields_there_and_back name fs fields IH ds e e')
    as (bs & -> & Hdec); try assumption.
  exists bs. split; [reflexivity|]. intros rest. cbn [Decode overlay].
  apply Hdec.
Qed.

(** *** Unions *)

Ltac field_error He :=
  exfalso;
  match type of He with
  | (_, errors.WithFieldError (Some ?err) ?p) = _ =>
      apply (WithFieldError_some err p); exact (f_equal snd He)
  end.

Lemma overlay_switch (c : xCodec) (sk : switchKind) (d v : Value) (z : Z) :
  swValOf sk v = Some z -> fits c v = true -> overlay c d v = v.
Proof.
  intros Hs Hv.
  destruct sk; destruct v; try discriminate Hs;
    destruct c; cbn [fits IsNil] in Hv;
    rewrite ?andb_false_r in Hv; try discriminate Hv;
    try reflexivity; destruct d; reflexivity.
Qed.

Lemma bodyAt_map {A G} (g : A -> bound G) (body : list (option A)) (i : Z) :
  bodyAt (map (option_map g) body) i
  = if i <? 0 then None
    else match nth_error body (Z.to_nat i) with
         | Some (Some f) => Some (g f)
         | _ => None
         end.
Proof.
  unfold bodyAt. destruct (i <? 0); [reflexivity|].
  rewrite nth_error_map.
  destruct (nth_error body (Z.to_nat i)) as [[f|]|]; reflexivity.
Qed.

Lemma armsFit_nth (fs : list Value) (sw : nat) (body : list (option field))
  (i : nat) (f : field) :
  armsFit fs sw body = true -> nth_error body i = Some (Some f) ->
  index f <> sw
  /\ exists x, nth_error fs (index f) = Some x /\ fits (codec f) x = true.
Proof.
  revert i. induction body as [|[g|] body IH]; intros [|i] Ha Hn;
    cbn in Hn; try discriminate; cbn [armsFit] in Ha.
  - injection Hn as ->. apply andb_prop in Ha as [Ha _].
    apply andb_prop in Ha as [Hne Hx]. apply negb_true_iff in Hne.
    apply Nat.eqb_neq in Hne. split; [exact Hne|].
    destruct (nth_error fs (index f)) as [x|]; [|discriminate].
    exists x. split; [reflexivity | exact Hx].
  - apply andb_prop in Ha as [_ Ha]. exact (IH i Ha Hn).
  - exact (IH i Ha Hn).
Qed.

Lemma onArm_nth (P : xCodec -> Prop) (body : list (option field)) (i : nat)
  (f : field) :
  Forall (onArm P) body -> nth_error body i = Some (Some f) -> P (codec f).
Proof.
  intros HF Hn. apply nth_error_In in Hn.
  rewrite Forall_forall in HF. exact (HF _ Hn).
Qed.

Lemma roundTrips_union name sw (body : list (option (field_ xCodec)))
  cases dflt sk :
  roundTrips (codec sw) -> Forall (onArm roundTrips) body ->
  roundTrips (unionCodec name sw body cases dflt sk).
Proof.
  intros IHsw IHbody v dest e e' Hv Hd He.
  destruct v as [| | | | | | | | | | | |fs|]; try discriminate Hv.
  destruct dest as [| | | | | | | | | | | |ds|]; try discriminate Hd.
  rewrite fits_union in Hv, Hd.
  apply andb_prop in Hv as [Hvs Hva]. apply andb_prop in Hd as [Hds Hda].
  destruct (nth_error fs (index sw)) as [swv|] eqn:Hsw; [|discriminate].
  destruct (nth_error ds (index sw)) as [dsw|] eqn:Hdsw; [|discriminate].
  cbn [Encode] in He. unfold union_encode in He.
  unfold field_encode at 1 in He.
  cbn [bindEnc bindex bfn bname Field] in He. rewrite Hsw in He.
  destruct (Encode (codec sw) e swv) as [e1 [[err|]|]] eqn:Esw;
    try discriminate He; [field_error He|].
  destruct (swValOf sk swv) as [swVal|] eqn:Hsv; [|discriminate].
  cbv zeta in He.
  set (caseField := match lookupCase cases swVal with
                    | Some i => i
                    | None => dflt
                    end) in *.
  destruct (caseField =? -1) eqn:Hcf; [field_error He|].
  rewrite bodyAt_map in He.
  destruct (caseField <? 0) eqn:Hneg; [discriminate|].
  destruct (nth_error body (Z.to_nat caseField)) as [[f|]|] eqn:Hb;
    try discriminate He.
  destruct (armsFit_nth _ _ _ _ _ Hva Hb) as (Hne & x & Hx & Hfx).
  destruct (armsFit_nth _ _ _ _ _ Hda Hb) as (_ & df & Hdf & Hfd).
  unfold field_encode in He. cbn [bindEnc bindex bfn bname Field] in He.
  rewrite Hx in He.
  destruct (Encode (codec f) e1 x) as [e2 [[err|]|]] eqn:Ex;
    try discriminate He; [field_error He|].
  injection He as He. subst e2.
  destruct (IHsw swv dsw e e1) as (b1 & -> & Hd1); try assumption.
  destruct (onArm_nth _ _ _ _ IHbody Hb x df (e ++ b1) e')
    as (b2 & -> & Hd2); try assumption.
  exists (b1 ++ b2). split; [rewrite app_assoc; reflexivity|].
  intros rest. cbn [Decode overlay].
  unfold union_decode, overlayUnion.
  unfold field_decode at 1. unfold overlayField at 1 2.
  cbn [bindDec bindOv bindex bfn bname Field setField].
  rewrite Hsw, Hdsw, <- app_assoc, Hd1.
  rewrite (overlay_switch _ _ _ _ _ Hsv Hvs), Hsv.
  cbv zeta. fold caseField. rewrite Hcf, !bodyAt_map, Hneg, Hb.
  unfold field_decode, overlayField.
  cbn [bindDec bindOv bindex bfn bname Field setField].
  rewrite nth_error_setNth_neq by congruence.
  rewrite Hdf, Hx, Hd2. reflexivity.
Qed.

Lemma roundTrips_error err : roundTrips (errorCodec err).
Proof. intros v dest e e' _ _ He. discriminate He. Qed.

Lemma roundTrips_all (c : xCodec) : roundTrips c.
Proof.
  induction c using xCodec_rect'.
  - exact roundTrips_bool.
  - exact roundTrips_int8.
  - exact roundTrips_int16.
  - exact roundTrips_int32.
  - exact roundTrips_uint8.
  - exact roundTrips_uint16.
  - exact roundTrips_uint32.
  - exact roundTrips_hyper.
  - exact roundTrips_uhyper.
  - exact roundTrips_float.
  - exact roundTrips_double.
  - exact roundTrips_complex64.
  - exact roundTrips_complex128.
  - apply roundTrips_fixedString.
  - apply roundTrips_varString.
  - apply roundTrips_opaqueArray.
  - apply roundTrips_array; assumption.
  - apply roundTrips_opaqueSlice.
  - apply roundTrips_slice; assumption.
  - apply roundTrips_map; assumption.
  - apply roundTrips_opt; assumption.
  - apply roundTrips_ptr; assumption.
  - apply roundTrips_struct; assumption.
  - apply roundTrips_union; assumption.
  - apply roundTrips_error.
Qed.

(** C1, as it holds.  Let the type [t] compile to the codec [c], let [v]
    and [dest] be values of the type, and let [Marshal] succeed on [v]
    with the bytes [bs].  Then [Unmarshal] of [bs] into a variable that
    holds [dest] succeeds, the codec consumes exactly [bs] whatever
    follows them, and the variable holds [overlay c dest v] afterwards:
    [dest] with the components the codec transmits taken from [v].  When
    that is [v] itself, decoding gives back [v]. *)
Theorem C1_round_trip_overlays
  (ParseUint : string -> Z -> Z -> Z * option error)
  (t : Type') (c : xCodec) (v dest : Value) (bs : list byte)
  (Hc : getBaseCodec ParseUint t = Some c)
  (Hv : fits c v = true) (Hd : fits c dest = true)
  (Hm : Marshal ParseUint t v = (bs, Some None)) :
  Unmarshal ParseUint t bs dest = (overlay c dest v, Some None)
  /\ (forall rest,
        Decode c (bs ++ rest) dest = (rest, overlay c dest v, Some None))
  /\ (overlay c dest v = v ->
      Unmarshal ParseUint t bs dest = (v, Some None)).
Proof.
  unfold Marshal in Hm. rewrite Hc in Hm.
  destruct (roundTrips_all c v dest [] bs Hv Hd Hm) as (bs' & Hbs & Hdec).
  cbn [app] in Hbs. subst bs'.
  assert (Hu : Unmarshal ParseUint t bs dest = (overlay c dest v, Some None)).
  { unfold Unmarshal. change (getCodec ParseUint t [])
      with (getBaseCodec ParseUint t). rewrite Hc.
    specialize (Hdec []). rewrite app_nil_r in Hdec. rewrite Hdec.
    reflexivity. }
  split; [exact Hu|]. split; [exact Hdec|].
  intros Hov. rewrite Hu, Hov. reflexivity.
Qed.

Lemma C1_witness :
  let c := structCodec "nested"
             [mkField 0 (varStringCodec 16 16) "S";
              mkField 2 int32Codec "I"] in
  let v := VStruct [VString [x68; x69]; VInt 0; VInt 5] in
  let bs := [x00; x00; x00; x02; x68; x69; x00; x00; x00; x00; x00; x05] in
  getBaseCodec strconv.ParseUint nested = Some c
  /\ fits c v = true
  /\ fits c (Zero nested) = true
  /\ Marshal strconv.ParseUint nested v = (bs, Some None)
  /\ Unmarshal strconv.ParseUint nested bs (Zero nested) = (v, Some None).
Proof.
  intros c v bs.
  assert (Hc : getBaseCodec strconv.ParseUint nested = Some c)
    by reflexivity.
  assert (Hv : fits c v = true) by reflexivity.
  assert (Hd : fits c (Zero nested) = true) by reflexivity.
  assert (Hm : Marshal strconv.ParseUint nested v = (bs, Some None))
    by reflexivity.
  repeat (split; [assumption|]).
  destruct (C1_round_trip_overlays strconv.ParseUint nested c v
              (Zero nested) bs Hc Hv Hd Hm) as (_ & _ & Hsame).
  apply Hsame. reflexivity.
Defined.

(** C1 as the claim states it fails on a field the schema skips: a
    [nested] whose [Skip] holds 7 encodes to the twelve bytes of [S] and
    [I], and decoding them into a fresh [nested] gives [Skip] 0. *)
Lemma C1_counterexample :
  let v := VStruct [VString [x68; x69]; VInt 7; VInt 5] in
  let bs := [x00; x00; x00; x02; x68; x69; x00; x00; x00; x00; x00; x05] in
  let v' := VStruct [VString [x68; x69]; VInt 0; VInt 5] in
  Marshal strconv.ParseUint nested v = (bs, Some None)
  /\ Unmarshal strconv.ParseUint nested bs (Zero nested) = (v', Some None)
  /\ sameValue v' v = false
  /\ v' <> v.
Proof.
  cbv zeta. split; [reflexivity|]. split; [reflexivity|].
  split; [reflexivity | discriminate].
Qed.

(** * Properties of the code beyond the specification *)
(** ** The wire layer on its own *)

(** What [io.ReadFull] leaves of a source shorter than the buffer. *)
Lemma ReadFull_short (r buf : list byte) :
  (List.length r < List.length buf)%nat ->
  ReadFull r buf
  = ([], r ++ skipn (List.length r) buf, blen r,
     Some (match r with [] => EOF | _ :: _ => ErrUnexpectedEOF end)).
Proof.
  intros H. unfold ReadFull.
  rewrite firstn_all2 by lia. rewrite skipn_all2 by lia.
  destruct (Nat.eqb_spec (List.length r) (List.length buf)) as [E|_]; [lia|].
  destruct r; reflexivity.
Qed.

Lemma ReadFull_length (r buf : list byte) :
  List.length (snd (fst (fst (ReadFull r buf)))) = List.length buf.
Proof.
  unfold ReadFull. cbn [fst snd].
  rewrite length_app, length_skipn, length_firstn. lia.
Qed.

Lemma ReadFull_enough (r buf : list byte) :
  (List.length buf <= List.length r)%nat ->
  ReadFull r buf
  = (skipn (List.length buf) r, firstn (List.length buf) r,
     blen buf, None).
Proof.
  intros H.
  rewrite <- (firstn_skipn (List.length buf) r) at 1.
  rewrite ReadFull_exact by (rewrite length_firstn; lia).
  unfold blen. rewrite length_firstn.
  replace (Nat.min (List.length buf) (List.length r)) with (List.length buf)
    by lia.
  reflexivity.
Qed.

(** A word on the wire is between 0 and 2^32 whatever was read. *)
Lemma DecodeUnsignedInt_range (d : decoder) :
  0 <= snd (fst (DecodeUnsignedInt d)) < 2^32.
Proof.
  unfold DecodeUnsignedInt.
  pose proof (ReadFull_length d (zeros 4)) as Hl.
  destruct (ReadFull d (zeros 4)) as [[[d' b] n] err]. cbn [fst snd] in *.
  destruct b as [|b0 [|b1 [|b2 [|b3 [|]]]]]; try discriminate Hl.
  cbn [nth]. rewrite word_lor. apply wordValue_range.
Qed.

(** The 32-bit quantities: what the encoder writes for [i] is four bytes
    after what was there, and the decoder reads it back as [i] reduced to
    the type's range ([i] itself when it lies in it), leaving what follows
    the four bytes. *)
Theorem word_there_and_back (e rest : list byte) (i : Z) (b : bool) :
  (EncodeInt e i = (e ++ bytes4 i, None)
   /\ DecodeInt (bytes4 i ++ rest) = (rest, int32 i, None)
   /\ (- 2^31 <= i < 2^31 -> int32 i = i))
  /\ (EncodeUnsignedInt e i = (e ++ bytes4 i, None)
      /\ DecodeUnsignedInt (bytes4 i ++ rest) = (rest, uint32 i, None)
      /\ (0 <= i < 2^32 -> uint32 i = i))
  /\ (exists w,
        EncodeBool e b = (e ++ bytes4 w, None)
        /\ DecodeBool (bytes4 w ++ rest) = (rest, b, None))
  /\ (EncodeFloat e i = (e ++ bytes4 i, None)
      /\ DecodeFloat (bytes4 i ++ rest) = (rest, uint32 i, None)).
Proof.
  split; [split; [|split] | split; [split; [|split] | split; [|split]]].
  - apply EncodeInt_eq.
  - unfold DecodeInt. rewrite DecodeUnsignedInt_bytes4.
    f_equal. f_equal. unfold int32, uint32. Z.div_mod_to_equations; lia.
  - intros H. unfold int32. Z.div_mod_to_equations; lia.
  - apply EncodeUnsignedInt_eq.
  - apply DecodeUnsignedInt_bytes4.
  - apply uint32_small.
  - exists (if b then 1 else 0). split.
    + destruct b; reflexivity.
    + unfold DecodeBool. rewrite DecodeUnsignedInt_bytes4.
      destruct b; reflexivity.
  - unfold EncodeFloat. apply EncodeUnsignedInt_eq.
  - unfold DecodeFloat. apply DecodeUnsignedInt_bytes4.
Qed.

Lemma word_there_and_back_witness :
  DecodeInt (bytes4 (-2) ++ [x07]) = ([x07], -2, None).
Proof.
  destruct (word_there_and_back [] [x07] (-2) true)
    as ((_ & Hd & Hr) & _).
  rewrite Hd, Hr by lia. reflexivity.
Defined.

(** The 64-bit quantities, likewise on eight bytes. *)
Theorem hyper_there_and_back (e rest : list byte) (i : Z) :
  (EncodeHyper e i = (e ++ bytes8 i, None)
   /\ DecodeHyper (bytes8 i ++ rest) = (rest, int64 i, None)
   /\ (- 2^63 <= i < 2^63 -> int64 i = i))
  /\ (EncodeUnsignedHyper e i = (e ++ bytes8 i, None)
      /\ DecodeUnsignedHyper (bytes8 i ++ rest) = (rest, uint64 i, None)
      /\ (0 <= i < 2^64 -> uint64 i = i))
  /\ (EncodeDouble e i = (e ++ bytes8 i, None)
      /\ DecodeDouble (bytes8 i ++ rest) = (rest, uint64 i, None)).
Proof.
  split; [split; [|split] | split; [split; [|split] | split]].
  - apply EncodeHyper_eq.
  - unfold DecodeHyper. rewrite DecodeUnsignedHyper_bytes8.
    f_equal. f_equal. unfold int64, uint64. Z.div_mod_to_equations; lia.
  - intros H. unfold int64. Z.div_mod_to_equations; lia.
  - apply EncodeUnsignedHyper_eq.
  - apply DecodeUnsignedHyper_bytes8.
  - apply uint64_small.
  - unfold EncodeDouble. apply EncodeUnsignedHyper_eq.
  - unfold DecodeDouble. apply DecodeUnsignedHyper_bytes8.
Qed.

Lemma hyper_there_and_back_witness :
  DecodeHyper (bytes8 (- 2^40) ++ []) = ([], - 2^40, None).
Proof.
  destruct (hyper_there_and_back [] [] (- 2^40)) as ((_ & Hd & Hr) & _).
  rewrite Hd, Hr by lia. reflexivity.
Defined.

(** A source that ends before the word is complete: every byte of it is
    consumed, and the error is [io.EOF] when there was none and
    [io.ErrUnexpectedEOF] otherwise; [DecodeInt] and [DecodeHyper] pass the
    error on. *)
Theorem short_word_is_reported (d : decoder) :
  let err := Some (match d with [] => EOF | _ :: _ => ErrUnexpectedEOF end) in
  ((List.length d < 4)%nat ->
   fst (fst (DecodeUnsignedInt d)) = [] /\ snd (DecodeUnsignedInt d) = err
   /\ fst (fst (DecodeInt d)) = [] /\ snd (DecodeInt d) = err
   /\ fst (fst (DecodeBool d)) = [] /\ snd (DecodeBool d) = err)
  /\ ((List.length d < 8)%nat ->
      fst (fst (DecodeUnsignedHyper d)) = []
      /\ snd (DecodeUnsignedHyper d) = err
      /\ fst (fst (DecodeHyper d)) = [] /\ snd (DecodeHyper d) = err).
Proof.
  intros err. split; intros H.
  - assert (Hu : fst (fst (DecodeUnsignedInt d)) = []
                 /\ snd (DecodeUnsignedInt d) = err).
    { unfold DecodeUnsignedInt.
      rewrite ReadFull_short by (rewrite zeros_length; exact H).
      split; reflexivity. }
    unfold DecodeInt, DecodeBool.
    destruct (DecodeUnsignedInt d) as [[d' u] e']. cbn [fst snd] in *.
    destruct Hu as [-> ->]. cbn [fst snd].
    split; [reflexivity|]. split; [reflexivity|].
    split; [reflexivity|]. split; [reflexivity|].
    unfold err. destruct (u =? 0); [split; reflexivity|].
    destruct (u =? 1); split; reflexivity.
  - assert (Hu : fst (fst (DecodeUnsignedHyper d)) = []
                 /\ snd (DecodeUnsignedHyper d) = err).
    { unfold DecodeUnsignedHyper.
      rewrite ReadFull_short by (rewrite zeros_length; exact H).
      split; reflexivity. }
    unfold DecodeHyper.
    destruct (DecodeUnsignedHyper d) as [[d' u] e']. cbn [fst snd] in *.
    destruct Hu as [-> ->].
    split; [reflexivity|]. split; [reflexivity|]. split; reflexivity.
Qed.

Lemma short_word_is_reported_witness :
  snd (DecodeInt [x00; x01]) = Some ErrUnexpectedEOF
  /\ snd (DecodeHyper []) = Some EOF.
Proof.
  split.
  - destruct (short_word_is_reported [x00; x01]) as [H _].
    destruct H as (_ & _ & _ & H & _); [cbn; lia | exact H].
  - destruct (short_word_is_reported []) as [_ H].
    destruct H as (_ & _ & _ & H); [cbn; lia | exact H].
Defined.

(** *** Opaque data on the wire *)

(** The padding is skipped, not checked: whatever the bytes that round
    the body up to a multiple of four are, [DecodeFixedOpaque] fills the
    buffer with the body and stands after them, and [DecodeOpaque] does
    the same after the length word. *)
Theorem padding_is_not_checked (s pad rest buf : list byte) (maxLen : Z)
  (Hbuf : List.length buf = List.length s)
  (Hpad : blen pad = (- blen s) mod 4) :
  DecodeFixedOpaque (s ++ pad ++ rest) buf = (rest, s, None)
  /\ (s <> [] -> blen s <= maxLen -> blen s < 2^32 -> maxLen < 2^64 ->
      DecodeOpaque (bytes4 (blen s) ++ s ++ pad ++ rest) maxLen
      = (rest, Some s, None)).
Proof.
  assert (Hs0 := blen_range s).
  split.
  - unfold DecodeFixedOpaque. rewrite ReadFull_exact by exact Hbuf.
    rewrite pad_after, <- Hpad.
    destruct (Z.eqb_spec (blen pad) 0) as [E|E]; cbn [negb].
    + destruct pad; [reflexivity | discriminate E].
    + rewrite ReadFull_exact; [reflexivity|].
      rewrite zeros_length. unfold blen. apply Nat2Z.id.
  - intros Hne Hmax H32 Hmax64. unfold DecodeOpaque.
    rewrite DecodeUnsignedInt_bytes4, uint32_small by lia.
    destruct (Z.eqb_spec (blen s) 0) as [E|E].
    { destruct s; [contradiction | discriminate E]. }
    rewrite !uint64_small by lia.
    destruct (Z.ltb_spec maxLen (blen s)); [lia|].
    rewrite app_assoc.
    rewrite ReadFull_exact.
    + replace (Z.to_nat (blen s)) with (List.length s)
        by (unfold blen; rewrite Nat2Z.id; reflexivity).
      rewrite firstn_app, firstn_all, Nat.sub_diag, firstn_O, app_nil_r.
      reflexivity.
    + rewrite zeros_length, length_app.
      assert (Hp : Z.land (blen s + 3) (Z.lnot 3) = blen s + blen pad)
        by (rewrite Hpad, <- pad_after; lia).
      rewrite Hp. unfold blen. rewrite <- Nat2Z.inj_add. apply Nat2Z.id.
Qed.

Lemma padding_is_not_checked_witness :
  DecodeFixedOpaque [x41; x42; xff; xfe; x07] [x00; x00]
  = ([x07], [x41; x42], None)
  /\ DecodeOpaque (bytes4 2 ++ [x41; x42; xff; xfe; x07]) 8
     = ([x07], Some [x41; x42], None).
Proof.
  destruct (padding_is_not_checked [x41; x42] [xff; xfe] [x07] [x00; x00] 8)
    as [H1 H2]; [reflexivity | reflexivity |].
  split; [exact H1|]. apply H2; [discriminate | | |]; cbn; lia.
Defined.

(** [DecodeFixedOpaque] succeeds when the source holds the body and its
    padding, and only then: on a shorter source every byte is consumed and
    the error is [io.EOF] or [io.ErrUnexpectedEOF]. *)
Theorem fixed_opaque_needs_body_and_padding (d buf : list byte) :
  let need := (List.length buf + Z.to_nat ((- blen buf) mod 4))%nat in
  ((need <= List.length d)%nat ->
   DecodeFixedOpaque d buf
   = (skipn need d, firstn (List.length buf) d, None))
  /\ ((List.length d < need)%nat ->
      fst (fst (DecodeFixedOpaque d buf)) = []
      /\ (snd (DecodeFixedOpaque d buf) = Some EOF
          \/ snd (DecodeFixedOpaque d buf) = Some ErrUnexpectedEOF)).
Proof.
  intros need.
  assert (Hm : 0 <= (- blen buf) mod 4 < 4) by (apply Z.mod_pos_bound; lia).
  split; intros H.
  - unfold DecodeFixedOpaque. rewrite ReadFull_enough by lia.
    rewrite pad_after.
    destruct (Z.eqb_spec ((- blen buf) mod 4) 0) as [E|E]; cbn [negb].
    + unfold need. rewrite E. cbn [Z.to_nat]. rewrite Nat.add_0_r.
      reflexivity.
    + rewrite ReadFull_enough
        by (rewrite zeros_length, length_skipn; unfold need in H; lia).
      rewrite zeros_length, skipn_skipn.
      unfold need. rewrite Nat.add_comm. reflexivity.
  - unfold DecodeFixedOpaque.
    destruct (Nat.lt_ge_cases (List.length d) (List.length buf)) as [Hl|Hl].
    + rewrite ReadFull_short by exact Hl. cbn [fst snd].
      split; [reflexivity|]. destruct d; [left | right]; reflexivity.
    + rewrite ReadFull_enough by exact Hl. rewrite pad_after.
      destruct (Z.eqb_spec ((- blen buf) mod 4) 0) as [E|E]; cbn [negb].
      { unfold need in H. rewrite E in H. cbn in H. lia. }
      rewrite ReadFull_short
        by (rewrite zeros_length, length_skipn; unfold need in H; lia).
      cbn [fst snd]. split; [reflexivity|].
      destruct (skipn (List.length buf) d); [left | right]; reflexivity.
Qed.

Lemma fixed_opaque_needs_body_and_padding_witness :
  DecodeFixedOpaque [x41; x42; x43; x00; x07] [x00; x00; x00]
  = ([x07], [x41; x42; x43], None)
  /\ snd (DecodeFixedOpaque [x41; x42; x43] [x00; x00; x00]) = Some EOF.
Proof.
  split.
  - destruct (fixed_opaque_needs_body_and_padding
                [x41; x42; x43; x00; x07] [x00; x00; x00]) as [H _].
    apply H. cbn. lia.
  - destruct (fixed_opaque_needs_body_and_padding
                [x41; x42; x43] [x00; x00; x00]) as [_ H].
    destruct H as [_ [H|H]]; [cbn; lia | exact H | discriminate H].
Defined.

Lemma short_word_err (d : decoder) :
  (List.length d < 4)%nat -> exists e, snd (DecodeUnsignedInt d) = Some e.
Proof.
  intros H. unfold DecodeUnsignedInt.
  rewrite ReadFull_short by (rewrite zeros_length; exact H).
  eexists. reflexivity.
Qed.

Lemma full_word_ok (d : decoder) :
  (4 <= List.length d)%nat -> snd (DecodeUnsignedInt d) = None.
Proof.
  intros H. unfold DecodeUnsignedInt.
  rewrite ReadFull_enough by (rewrite zeros_length; exact H).
  reflexivity.
Qed.

(** [DecodeOpaque] never hands out more than [maxLen] bytes, and what it
    hands out has the length the prefix announced; a nil slice stands for
    the empty body and for every error. *)
Theorem opaque_is_bounded (d : decoder) (maxLen : Z)
  (Hmax : 0 <= maxLen < 2^64) :
  let '(_, o, err) := DecodeOpaque d maxLen in
  match o with
  | Some s =>
      err = None /\ 0 < blen s <= maxLen
      /\ blen s = snd (fst (DecodeUnsignedInt d))
  | None =>
      err <> None
      \/ (snd (fst (DecodeUnsignedInt d)) = 0
          /\ (4 <= List.length d)%nat)
  end.
Proof.
  unfold DecodeOpaque.
  pose proof (DecodeUnsignedInt_range d) as Hr.
  destruct (Nat.lt_ge_cases (List.length d) 4) as [Hl|Hl].
  - destruct (short_word_err d Hl) as (e & He).
    destruct (DecodeUnsignedInt d) as [[d1 l] err1]. cbn [fst snd] in *.
    subst err1. left. discriminate.
  - pose proof (full_word_ok d Hl) as He.
    destruct (DecodeUnsignedInt d) as [[d1 l] err1]. cbn [fst snd] in *.
    subst err1.
    destruct (Z.eqb_spec l 0) as [E|E]; [right; split; assumption|].
    rewrite !uint64_small by lia.
    destruct (Z.ltb_spec maxLen l) as [Hlt|Hge]; [left; discriminate|].
    pose proof (ReadFull_length d1
                  (zeros (Z.to_nat (Z.land (l + 3) (Z.lnot 3))))) as Hlen.
    destruct (ReadFull d1 (zeros (Z.to_nat (Z.land (l + 3) (Z.lnot 3)))))
      as [[[d2 buf] n] err2]. cbn [fst snd] in Hlen.
    rewrite zeros_length in Hlen.
    assert (Hp : l <= Z.land (l + 3) (Z.lnot 3)).
    { pose proof (pad_after l). pose proof (Z.mod_pos_bound (- l) 4). lia. }
    assert (Hb : blen (firstn (Z.to_nat l) buf) = l).
    { unfold blen. rewrite length_firstn, Hlen. lia. }
    split; [reflexivity|]. rewrite Hb. lia.
Qed.

Lemma opaque_is_bounded_witness :
  match DecodeOpaque [x00; x00; x00; x02; x41; x42; x00; x00] 8 with
  | (_, Some s, _) => blen s <= 8
  | _ => True
  end.
Proof.
  assert (H := opaque_is_bounded
                 [x00; x00; x00; x02; x41; x42; x00; x00] 8 ltac:(lia)).
  destruct (DecodeOpaque [x00; x00; x00; x02; x41; x42; x00; x00] 8)
    as [[d' o] err].
  destruct o; [destruct H as (_ & H & _); lia | exact I].
Defined.

(** Variable-length opaque data and strings, there and back: a body
    shorter than 2^32 bytes is written as its length, the body and the
    padding; a decoder whose limit admits the length reads the body back
    and stands after the padding, and one whose limit does not admits
    nothing and stands after the length word. *)
Theorem opaque_there_and_back (e s rest : list byte) (maxLen : Z)
  (H32 : blen s < 2^32) (Hmax : 0 <= maxLen < 2^64) :
  let bs := bytes4 (blen s) ++ s ++ padOf (blen s) in
  EncodeOpaque e s = (e ++ bs, None)
  /\ EncodeString e s = (e ++ bs, None)
  /\ (blen s <= maxLen ->
      DecodeOpaque (bs ++ rest) maxLen
      = (rest, match s with [] => None | _ => Some s end, None)
      /\ DecodeString (bs ++ rest) maxLen = (rest, s, None))
  /\ (maxLen < blen s ->
      DecodeOpaque (bs ++ rest) maxLen
      = (s ++ padOf (blen s) ++ rest, None,
         Some (LengthError (blen s) maxLen))
      /\ DecodeString (bs ++ rest) maxLen
         = (s ++ padOf (blen s) ++ rest, [],
            Some (LengthError (blen s) maxLen))).
Proof.
  intros bs. assert (Hs0 := blen_range s).
  split; [apply EncodeOpaque_eq; exact H32|].
  split; [rewrite EncodeString_is_Opaque; apply EncodeOpaque_eq; exact H32|].
  split.
  - intros Hle.
    assert (Hd : DecodeOpaque (bs ++ rest) maxLen
                 = (rest, match s with [] => None | _ => Some s end, None)).
    { unfold bs. rewrite <- !app_assoc. apply DecodeOpaque_padded; lia. }
    split; [exact Hd|]. unfold DecodeString. rewrite Hd.
    destruct s; reflexivity.
  - intros Hlt.
    assert (Hd : DecodeOpaque (bs ++ rest) maxLen
                 = (s ++ padOf (blen s) ++ rest, None,
                    Some (LengthError (blen s) maxLen))).
    { unfold bs, DecodeOpaque. rewrite <- !app_assoc.
      rewrite DecodeUnsignedInt_bytes4, uint32_small by lia.
      destruct (Z.eqb_spec (blen s) 0) as [E|E]; [lia|].
      rewrite !uint64_small by lia.
      destruct (Z.ltb_spec maxLen (blen s)); [reflexivity | lia]. }
    split; [exact Hd|]. unfold DecodeString. rewrite Hd. reflexivity.
Qed.

Lemma opaque_there_and_back_witness :
  EncodeString [] [x68; x69] = ([x00; x00; x00; x02; x68; x69; x00; x00], None)
  /\ DecodeString [x00; x00; x00; x02; x68; x69; x00; x00; x07] 16
     = ([x07], [x68; x69], None).
Proof.
  destruct (opaque_there_and_back [] [x68; x69] [x07] 16)
    as (_ & He & Hd & _); [cbn; lia | lia |].
  split; [exact He|]. apply Hd. cbn. lia.
Defined.

(** ** Strings and opaque data *)

Lemma DecodeFixedOpaque_length (d buf : list byte) :
  List.length (snd (fst (DecodeFixedOpaque d buf))) = List.length buf.
Proof.
  unfold DecodeFixedOpaque.
  pose proof (ReadFull_length d buf) as Hl.
  destruct (ReadFull d buf) as [[[d1 b1] n] [e|]]; cbn [fst snd] in *;
    [exact Hl|].
  destruct (negb (Z.land (n + 3) (Z.lnot 3) - n =? 0)); [|exact Hl].
  destruct (ReadFull d1 _) as [[[d2 b2] n2] e2]. exact Hl.
Qed.

(** A fixed-length string always decodes to exactly its length in bytes:
    the codec returns, whatever the source, and also when it reports an
    error the variable holds a string of that length (what was read,
    filled up with zero bytes). *)
Theorem fixed_string_has_its_length (len : Z) (d : decoder) (v : Value)
  (Hlen : 0 <= len) :
  exists d' s r,
    Decode (fixedStringCodec len) d v = (d', VString s, Some r)
    /\ blen s = len.
Proof.
  cbn [Decode]. unfold DecodeFixedString.
  destruct (Z.ltb_spec len 0); [lia|].
  pose proof (DecodeFixedOpaque_length d (zeros (Z.to_nat len))) as Hl.
  destruct (DecodeFixedOpaque d (zeros (Z.to_nat len))) as [[d' s] r].
  cbn [fst snd] in Hl. exists d', s, r. split; [reflexivity|].
  unfold blen. rewrite Hl, zeros_length. lia.
Qed.

Lemma fixed_string_has_its_length_witness :
  Decode (fixedStringCodec 4) [x41; x42] (VString [])
  = ([], VString [x41; x42; x00; x00], Some (Some ErrUnexpectedEOF)).
Proof.
  destruct (fixed_string_has_its_length 4 [x41; x42] (VString []))
    as (d' & s & r & H & _); [lia|].
  reflexivity.
Defined.

Lemma bytesOf_ofBytes (s : list byte) : bytesOf (ofBytes s) = Some s.
Proof.
  induction s as [|b s IH]; [reflexivity|].
  cbn [ofBytes map bytesOf]. fold (ofBytes s). rewrite IH, z2b_b2z.
  reflexivity.
Qed.

(** A string and the byte slice of its bytes tagged [opaque] are the
    same on the wire, and so are a string of fixed length and the byte
    array: the codecs write the same bytes and refuse the same values with
    the same error. *)
Theorem strings_are_opaque_on_the_wire (s e : list byte)
  (maxlen origMax : Z)
  (Hmax : 0 <= maxlen <= maxInt) (Hs : blen s <= maxInt) :
  Encode (varStringCodec maxlen origMax) e (VString s)
  = Encode (opaqueSliceCodec maxlen origMax) e (VSlice (Some (ofBytes s)))
  /\ Encode (fixedStringCodec (blen s)) e (VString s)
     = Encode (opaqueArrayCodec (blen s)) e (VArray (ofBytes s)).
Proof.
  assert (Hs0 := blen_range s). rewrite maxInt_eq in *.
  split.
  - cbn [Encode]. rewrite bytesOf_ofBytes, !uint64_small by lia.
    rewrite EncodeString_is_Opaque.
    destruct (Z.leb_spec (blen s) maxlen), (Z.ltb_spec maxlen (blen s));
      try lia; reflexivity.
  - cbn [Encode]. rewrite bytesOf_ofBytes, Z.eqb_refl.
    rewrite EncodeFixedString_eq, EncodeFixedOpaque_eq. reflexivity.
Qed.

Lemma strings_are_opaque_on_the_wire_witness :
  Encode (opaqueSliceCodec 16 16) [] (VSlice (Some [VUint 104; VUint 105]))
  = ([x00; x00; x00; x02; x68; x69; x00; x00], Some None).
Proof.
  destruct (strings_are_opaque_on_the_wire [x68; x69] [] 16 16)
    as [H _]; [rewrite maxInt_eq; lia | rewrite maxInt_eq; cbn; lia |].
  exact (eq_trans (eq_sym H) eq_refl).
Defined.

(** ** [OpaqueReader] *)

Lemma int64_small (x : Z) : - 2^63 <= x < 2^63 -> int64 x = x.
Proof. intros H. unfold int64. Z.div_mod_to_equations; lia. Qed.

Lemma uint8_small (x : Z) : 0 <= x < 2^8 -> uint8 x = x.
Proof. intros H. unfold uint8. apply Z.mod_small. exact H. Qed.

Lemma newOpaqueReader_eq (l : Z) :
  0 <= l < 2^32 ->
  FixedOpaqueReader l = mkOpaqueReader l ((- l) mod 4).
Proof.
  intros H. unfold FixedOpaqueReader, newOpaqueReader.
  pose proof (Z.mod_pos_bound (- l) 4 ltac:(lia)) as Hm.
  rewrite (int64_small l) by lia.
  rewrite (int64_small (l + 3)) by lia.
  rewrite pad_after, (int64_small ((- l) mod 4)), uint8_small by lia.
  reflexivity.
Qed.

(** A read takes the bytes at the front of the source, as many as the
    buffer and what is left of the body allow. *)
Lemma limitedRead_eq (o : opaqueReader) (r : Reader) (n : nat) :
  0 <= lrN o < 2^62 ->
  let k := Nat.min (Nat.min n (Z.to_nat (lrN o))) (List.length r) in
  fst (limitedRead o r n)
  = (mkOpaqueReader (lrN o - Z.of_nat k) (padLen o), skipn k r, firstn k r).
Proof.
  intros HN k. unfold limitedRead.
  destruct (Z.leb_spec (lrN o) 0) as [H0|H0].
  - assert (lrN o = 0) by lia.
    replace k with 0%nat by (unfold k; lia).
    cbn [fst skipn firstn]. destruct o as [N p]. cbn [lrN padLen] in *.
    subst N. reflexivity.
  - set (n' := if lrN o <? Z.of_nat n then Z.to_nat (lrN o) else n).
    assert (Hn' : n' = Nat.min n (Z.to_nat (lrN o))).
    { unfold n'. destruct (Z.ltb_spec (lrN o) (Z.of_nat n)); lia. }
    destruct r as [|b r'].
    + replace k with 0%nat by (unfold k; cbn; lia).
      cbn [bytesRead fst List.length skipn firstn].
      rewrite Z.sub_0_r, int64_small by lia.
      destruct o; reflexivity.
    + cbn [bytesRead fst].
      assert (Hk : firstn n' (b :: r') = firstn k (b :: r')
                   /\ skipn n' (b :: r') = skipn k (b :: r')).
      { unfold k. rewrite <- Hn'.
        destruct (Nat.le_gt_cases n' (List.length (b :: r'))) as [Hle|Hgt].
        - rewrite Nat.min_l by exact Hle. split; reflexivity.
        - rewrite Nat.min_r by lia.
          rewrite firstn_all, firstn_all2, skipn_all, skipn_all2 by lia.
          split; reflexivity. }
      destruct Hk as [-> ->].
      assert (Hlen : List.length (firstn k (b :: r')) = k)
        by (rewrite length_firstn; unfold k; lia).
      rewrite Hlen, int64_small by (unfold k; lia).
      reflexivity.
Qed.

Lemma limitedRead_err (o : opaqueReader) (r : Reader) (n : nat) :
  snd (limitedRead o r n)
  = if lrN o <=? 0 then Some EOF
    else match r with [] => Some EOF | _ :: _ => None end.
Proof.
  unfold limitedRead. destruct (lrN o <=? 0); [reflexivity|].
  destruct r; reflexivity.
Qed.

(** The loop of [Close] ends within its fuel, without an error, after
    what is left of the body and the padding, or at the end of the source
    if that comes first. *)
Lemma discardAll_eq (fuel : nat) :
  forall (o : opaqueReader) (r : Reader),
    0 <= lrN o < 2^62 -> (List.length r < fuel)%nat ->
    let k := Nat.min (Z.to_nat (lrN o)) (List.length r) in
    discardAll fuel o r
    = Some (mkOpaqueReader (lrN o - Z.of_nat k) (padLen o), skipn k r, None).
Proof.
  induction fuel as [|fuel IH]; intros o r HN Hfuel k; [lia|].
  cbn [discardAll].
  pose proof (limitedRead_eq o r (Z.to_nat 8192) HN) as Hr.
  pose proof (limitedRead_err o r (Z.to_nat 8192)) as He.
  destruct (limitedRead o r (Z.to_nat 8192)) as [[[o1 r1] got] err].
  cbn [fst snd] in Hr, He. cbv zeta in Hr.
  set (k1 := Nat.min (Nat.min (Z.to_nat 8192) (Z.to_nat (lrN o)))
               (List.length r)) in *.
  injection Hr as Ho1 Hr1 _. subst err.
  destruct (Z.leb_spec (lrN o) 0) as [H0|H0].
  - assert (E1 : k1 = 0%nat) by (unfold k1; lia).
    assert (E2 : k = 0%nat) by (unfold k; lia).
    subst o1 r1. rewrite E1, E2. reflexivity.
  - destruct r as [|b r'].
    + assert (E1 : k1 = 0%nat) by (unfold k1; cbn; lia).
      assert (E2 : k = 0%nat) by (unfold k; cbn; lia).
      subst o1 r1. rewrite E1, E2. reflexivity.
    + assert (Hk1 : (1 <= k1)%nat) by (unfold k1; cbn [List.length]; lia).
      assert (Hk1' : (k1 <= List.length (b :: r'))%nat) by (unfold k1; lia).
      assert (Hk1N : Z.of_nat k1 <= lrN o) by (unfold k1; lia).
      rewrite IH; subst o1 r1; cbn [lrN padLen].
      * rewrite skipn_skipn, length_skipn.
        set (k2 := Nat.min (Z.to_nat (lrN o - Z.of_nat k1))
                     (List.length (b :: r') - k1)).
        assert (Hk : k = (k2 + k1)%nat) by (unfold k, k2; lia).
        rewrite Hk.
        replace (lrN o - Z.of_nat k1 - Z.of_nat k2)
          with (lrN o - Z.of_nat (k2 + k1)) by lia.
        reflexivity.
      * lia.
      * rewrite length_skipn. cbn [List.length] in *. lia.
Qed.

Lemma Close_eq (o : opaqueReader) (r : Reader) :
  0 <= lrN o < 2^61 -> 0 <= padLen o < 4 ->
  let k := Nat.min (Z.to_nat (lrN o + padLen o)) (List.length r) in
  Close o r
  = Some (mkOpaqueReader (lrN o + padLen o - Z.of_nat k) (padLen o),
          skipn k r, None).
Proof.
  intros HN Hp k. unfold Close.
  rewrite (int64_small (padLen o)) by lia.
  rewrite int64_small by lia.
  rewrite discardAll_eq; cbn [lrN padLen]; [reflexivity | lia | lia].
Qed.

Lemma readRun_eq (ns : list nat) :
  forall (o : opaqueReader) (r : Reader),
    0 <= lrN o < 2^61 ->
    let k := Nat.min (Nat.min (list_sum ns) (Z.to_nat (lrN o)))
               (List.length r) in
    exists j,
      (j <= k)%nat
      /\ readRun ns o r
         = (mkOpaqueReader (lrN o - Z.of_nat j) (padLen o), skipn j r,
            firstn j r).
Proof.
  induction ns as [|n ns IH]; intros o r HN k.
  - exists 0%nat. split; [lia|]. cbn [readRun skipn firstn].
    rewrite Z.sub_0_r. destruct o; reflexivity.
  - cbn [readRun].
    pose proof (limitedRead_eq o r n ltac:(lia)) as Hr.
    destruct (limitedRead o r n) as [[[o1 r1] got] err].
    cbn [fst] in Hr. cbv zeta in Hr.
    set (k1 := Nat.min (Nat.min n (Z.to_nat (lrN o))) (List.length r)) in *.
    injection Hr as Ho1 Hr1 Hgot. subst o1 r1 got.
    destruct (IH (mkOpaqueReader (lrN o - Z.of_nat k1) (padLen o))
                (skipn k1 r)) as (j & Hj & ->).
    { cbn [lrN]. unfold k1. lia. }
    cbn [lrN padLen] in *. rewrite length_skipn in Hj.
    exists (k1 + j)%nat. split.
    + unfold k. change (list_sum (n :: ns)) with (n + list_sum ns)%nat.
      unfold k1 in *. lia.
    + rewrite skipn_skipn.
      replace (lrN o - Z.of_nat k1 - Z.of_nat j)
        with (lrN o - Z.of_nat (k1 + j)) by lia.
      replace (j + k1)%nat with (k1 + j)%nat by lia.
      replace (firstn k1 r ++ firstn j (skipn k1 r)) with (firstn (k1 + j) r);
        [reflexivity|].
      rewrite <- (firstn_skipn k1 (firstn (k1 + j) r)).
      rewrite firstn_firstn, Nat.min_l by lia.
      rewrite skipn_firstn_comm.
      replace (k1 + j - k1)%nat with j by lia. reflexivity.
Qed.

(** [OpaqueReader] on an object with its length word: when the limit
    admits the length, it hands out a reader; whatever the buffers of the
    reads made from it, they return bytes of the body only, in order, and
    [Close] then leaves the decoder after the padding, with no error.
    When the limit does not admit the length there is no reader, the error
    is [LengthError], and the decoder stands after the length word. *)
Theorem OpaqueReader_then_Close (body pad rest : list byte) (maxLen : Z)
  (Hpad : blen pad = (- blen body) mod 4)
  (H32 : blen body < 2^32) (Hmax : 0 <= maxLen < 2^32) :
  let src := body ++ pad ++ rest in
  let d := bytes4 (blen body) ++ src in
  (blen body <= maxLen ->
   exists o,
     OpaqueReader d maxLen = (src, blen body, Some o, None)
     /\ forall ns,
          let '(o', r', got) := readRun ns o src in
          (exists j, (j <= List.length body)%nat
                     /\ got = firstn j body /\ r' = skipn j src)
          /\ exists o'', Close o' r' = Some (o'', rest, None))
  /\ (maxLen < blen body ->
      OpaqueReader d maxLen
      = (src, blen body, None, Some (LengthError (blen body) maxLen))).
Proof.
  intros src d. assert (Hb0 := blen_range body).
  pose proof (Z.mod_pos_bound (- blen body) 4 ltac:(lia)) as Hm.
  split.
  - intros Hle. exists (mkOpaqueReader (blen body) ((- blen body) mod 4)).
    split.
    { unfold OpaqueReader, d.
      rewrite DecodeUnsignedInt_bytes4, uint32_small by lia.
      destruct (Z.ltb_spec maxLen (blen body)); [lia|].
      rewrite newOpaqueReader_eq by lia. reflexivity. }
    intros ns.
    destruct (readRun_eq ns (mkOpaqueReader (blen body) ((- blen body) mod 4))
                src) as (j & Hj & ->); [cbn [lrN]; lia|].
    cbn [lrN padLen] in *.
    assert (Hjb : (j <= List.length body)%nat) by (unfold blen in *; lia).
    split.
    + exists j. split; [exact Hjb|]. split; [|reflexivity].
      unfold src. rewrite firstn_app.
      replace (j - List.length body)%nat with 0%nat by lia.
      rewrite firstn_O, app_nil_r. reflexivity.
    + eexists. rewrite Close_eq; cbn [lrN padLen]; [|unfold blen in *; lia|lia].
      rewrite skipn_skipn, length_skipn.
      assert (Hlen : List.length src
                     = (List.length body + List.length pad
                        + List.length rest)%nat)
        by (unfold src; rewrite !length_app; lia).
      replace (Nat.min (Z.to_nat (blen body - Z.of_nat j
                                  + (- blen body) mod 4))
                 (List.length src - j) + j)%nat
        with (List.length (body ++ pad))
        by (rewrite length_app; unfold blen in *; lia).
      unfold src. rewrite app_assoc, skipn_app, skipn_all, Nat.sub_diag.
      reflexivity.
  - intros Hlt. unfold OpaqueReader, d.
    rewrite DecodeUnsignedInt_bytes4, uint32_small by lia.
    destruct (Z.ltb_spec maxLen (blen body)); [|lia].
    rewrite !uint64_small by lia. reflexivity.
Qed.

Lemma OpaqueReader_then_Close_witness :
  exists o,
    OpaqueReader [x00; x00; x00; x03; x41; x42; x43; x00; x07] 8
    = ([x41; x42; x43; x00; x07], 3, Some o, None)
    /\ let '(o', r', _) := readRun [2%nat] o [x41; x42; x43; x00; x07] in
       exists o'', Close o' r' = Some (o'', [x07], None).
Proof.
  destruct (OpaqueReader_then_Close [x41; x42; x43] [x00] [x07] 8)
    as [H _]; [reflexivity | cbn; lia | lia |].
  destruct H as (o & Ho & Hrun); [cbn; lia|].
  exists o. split; [exact Ho|].
  specialize (Hrun [2%nat]).
  change ([x41; x42; x43] ++ [x00] ++ [x07])
    with [x41; x42; x43; x00; x07] in Hrun.
  destruct (readRun [2%nat] o [x41; x42; x43; x00; x07]) as [[o' r'] got].
  exact (proj2 Hrun).
Defined.

(** [Close] reports nothing: when the source ends inside the body or the
    padding, it consumes what there is and returns nil, and the reader is
    left with the count of the bytes that were missing. *)
Theorem Close_on_truncated_source (o : opaqueReader) (r : Reader)
  (HN : 0 <= lrN o < 2^61) (Hp : 0 <= padLen o < 4)
  (Hshort : blen r < lrN o + padLen o) :
  Close o r
  = Some (mkOpaqueReader (lrN o + padLen o - blen r) (padLen o), [], None).
Proof.
  rewrite Close_eq by assumption. unfold blen in *.
  replace (Nat.min (Z.to_nat (lrN o + padLen o)) (List.length r))
    with (List.length r) by lia.
  rewrite skipn_all. reflexivity.
Qed.

Lemma Close_on_truncated_source_witness :
  Close (mkOpaqueReader 3 1) [x41; x42]
  = Some (mkOpaqueReader 2 1, [], None).
Proof.
  exact (Close_on_truncated_source (mkOpaqueReader 3 1) [x41; x42]
           ltac:(cbn; lia) ltac:(cbn; lia) ltac:(cbn; lia)).
Defined.

(** ** The packed tag sequence *)

Lemma at_app_r (pre l : tags.XDRTag) (i : Z) :
  0 <= i -> tags.at_ (pre ++ l) (tags.len pre + i) = tags.at_ l i.
Proof.
  intros Hi. unfold tags.at_, tags.len.
  destruct (Z.ltb_spec (Z.of_nat (List.length pre) + i) 0); [lia|].
  destruct (Z.ltb_spec i 0); [lia|].
  rewrite nth_error_app2 by lia. do 2 f_equal. lia.
Qed.

Lemma valAt_app_r (pre l : tags.XDRTag) (o : Z) :
  0 <= o -> tags.valAt (pre ++ l) (tags.len pre + o) = tags.valAt l o.
Proof.
  intros Ho. unfold tags.valAt.
  replace (tags.len pre + o + 3) with (tags.len pre + (o + 3)) by lia.
  replace (tags.len pre + o + 1) with (tags.len pre + (o + 1)) by lia.
  replace (tags.len pre + o + 2) with (tags.len pre + (o + 2)) by lia.
  rewrite !at_app_r by lia. reflexivity.
Qed.

Lemma valAt_be32_0 (v : Z) (rest : tags.XDRTag) :
  tags.valAt (tags.be32 v ++ rest) 0 = Some (uint32 v).
Proof.
  rewrite <- (valAt_be32 x00 v rest).
  exact (eq_sym (valAt_app_r [x00] (tags.be32 v ++ rest) 0 ltac:(lia))).
Qed.

Lemma at_in_range (t : tags.XDRTag) (i : Z) :
  0 <= i < tags.len t -> exists b, tags.at_ t i = Some b.
Proof.
  intros H. unfold tags.at_, tags.len in *.
  destruct (Z.ltb_spec i 0); [lia|].
  destruct (nth_error t (Z.to_nat i)) as [b|] eqn:E.
  - eexists. reflexivity.
  - apply nth_error_None in E. lia.
Qed.

Lemma b2z_z2b_small (k : Z) : 0 <= k < 256 -> b2z (z2b k) = k.
Proof. intros H. rewrite b2z_z2b. apply Z.mod_small. exact H. Qed.

Lemma fold_be32 (vals : list Z) (init : list byte) :
  fold_left (fun tb v => tb ++ tags.be32 v) vals init
  = init ++ List.concat (map tags.be32 vals).
Proof.
  revert init. induction vals as [|v vals IH]; intros init.
  - cbn. rewrite app_nil_r. reflexivity.
  - cbn [fold_left map List.concat]. rewrite IH, <- app_assoc. reflexivity.
Qed.

Lemma concat_be32_length (vals : list Z) :
  tags.len (List.concat (map tags.be32 vals)) = 4 * Z.of_nat (List.length vals).
Proof.
  unfold tags.len. induction vals as [|v vals IH]; [reflexivity|].
  cbn [map List.concat]. rewrite length_app. cbn [List.length tags.be32].
  lia.
Qed.

Lemma sliceFrom_app (pre t : tags.XDRTag) :
  tags.sliceFrom (pre ++ t) (tags.len pre) = Some t.
Proof.
  unfold tags.sliceFrom, tags.len. rewrite length_app.
  destruct (Z.leb_spec 0 (Z.of_nat (List.length pre))); [|lia].
  destruct (Z.leb_spec (Z.of_nat (List.length pre))
              (Z.of_nat (List.length pre + List.length t))); [|lia].
  cbn [andb]. rewrite Nat2Z.id, skipn_app, skipn_all, Nat.sub_diag.
  reflexivity.
Qed.

(** After an entry that is [l] bytes long comes what follows it. *)
Lemma Next_after (pre t : tags.XDRTag) :
  tags.thisLen (pre ++ t) = Some (tags.len pre) ->
  tags.Next (pre ++ t) = Some t.
Proof.
  intros H. unfold tags.Next. rewrite H.
  destruct (Z.eqb_spec (tags.len (pre ++ t)) (tags.len pre)) as [E|E].
  - unfold tags.len in E. rewrite length_app in E.
    destruct t; [reflexivity | cbn in E; lia].
  - apply sliceFrom_app.
Qed.

(** A flag and a single-valued entry, there and back: [Prepend] puts the
    entry in front of the sequence, [Kind] and [OnlyValue] read it, the
    value range is the one value, and [Next] gives the sequence back. *)
Theorem tag_entry_there_and_back (t : tags.XDRTag) (k v : Z) :
  (0 <= k < 0x80 ->
   let t' := z2b k :: t in
   tags.Prepend t k [] = Some t' /\ tags.Kind t' = k
   /\ tags.ValueRange t' = Some (0, 0) /\ tags.Next t' = Some t)
  /\ (0x80 <= k < 0xC0 -> 0 <= v < 2^32 ->
      let t' := z2b k :: tags.be32 v ++ t in
      tags.Prepend t k [v] = Some t' /\ tags.Kind t' = k
      /\ tags.OnlyValue t' = Some v
      /\ tags.ValueRange t' = Some (0, 1) /\ tags.Value t' 0 = Some v
      /\ tags.Next t' = Some t).
Proof.
  split.
  - intros Hk t'.
    assert (Hb : b2z (z2b k) = k) by (apply b2z_z2b_small; lia).
    split.
    { unfold tags.Prepend, tags.Append.
      destruct (Z.ltb_spec k 0x80); [reflexivity | lia]. }
    split; [exact Hb|]. split.
    { unfold tags.ValueRange, t'.
      change (tags.at_ (z2b k :: t) 0) with (Some (b2z (z2b k))).
      rewrite Hb. destruct (Z.ltb_spec k 0x80); [reflexivity | lia]. }
    apply (Next_after [z2b k] t). cbn [app tags.thisLen]. rewrite Hb.
    destruct (Z.ltb_spec k 0x80); [reflexivity | lia].
  - intros Hk Hv t'.
    assert (Hb : b2z (z2b k) = k) by (apply b2z_z2b_small; lia).
    assert (Hval : tags.valAt t' 1 = Some v)
      by (unfold t'; rewrite valAt_be32, uint32_small by lia; reflexivity).
    split.
    { unfold tags.Prepend, tags.Append.
      destruct (Z.ltb_spec k 0x80); [lia|].
      destruct (Z.ltb_spec k 0xC0); [reflexivity | lia]. }
    split; [exact Hb|]. split; [exact Hval|]. split.
    { unfold tags.ValueRange, t'.
      change (tags.at_ (z2b k :: tags.be32 v ++ t) 0)
        with (Some (b2z (z2b k))).
      rewrite Hb. destruct (Z.ltb_spec k 0x80); [lia|].
      destruct (Z.ltb_spec k 0xC0); [reflexivity | lia]. }
    split; [exact Hval|].
    apply Next_single. rewrite Hb. lia.
Qed.

Lemma tag_entry_there_and_back_witness :
  tags.Next (z2b tags.Opt :: [z2b tags.Opaque]) = Some [z2b tags.Opaque]
  /\ tags.OnlyValue (z2b tags.MaxLen :: tags.be32 16 ++ []) = Some 16.
Proof.
  destruct (tag_entry_there_and_back [z2b tags.Opaque] tags.Opt 0)
    as [H1 _].
  destruct (tag_entry_there_and_back [] tags.MaxLen 16) as [_ H2].
  split.
  - destruct H1 as (_ & _ & _ & H); [unfold tags.Opt; lia | exact H].
  - destruct H2 as (_ & _ & H & _);
      [unfold tags.MaxLen; cbn; lia | lia | exact H].
Defined.

(** A multi-valued entry, there and back: [ValueRange] and [Value]
    enumerate the values [Prepend] stored, in their order, and [Next]
    gives back the sequence the entry was put in front of. *)
Theorem tag_values_there_and_back (t : tags.XDRTag) (k : Z) (vals : list Z)
  (Hk : 0xC0 <= k < 256)
  (Hvals : Forall (fun v => 0 <= v < 2^32) vals)
  (Hn : Z.of_nat (List.length vals) < 2^32) :
  let n := Z.of_nat (List.length vals) in
  let t' := z2b k :: tags.be32 n ++ List.concat (map tags.be32 vals) ++ t in
  tags.Prepend t k vals = Some t' /\ tags.Kind t' = k
  /\ tags.ValueRange t' = Some (1, 1 + n)
  /\ (forall j, (j < List.length vals)%nat ->
        tags.Value t' (1 + Z.of_nat j) = nth_error vals j)
  /\ tags.Next t' = Some t.
Proof.
  intros n t'.
  assert (Hb : b2z (z2b k) = k) by (apply b2z_z2b_small; lia).
  assert (Hval : tags.valAt t' 1 = Some n)
    by (unfold t'; rewrite valAt_be32, uint32_small by lia; reflexivity).
  assert (Hlen : tags.len t' = 5 + 4 * n + tags.len t).
  { unfold t'. change (z2b k :: tags.be32 n ++ List.concat (map tags.be32 vals) ++ t)
      with ((z2b k :: tags.be32 n) ++ List.concat (map tags.be32 vals) ++ t).
    unfold tags.len. rewrite !length_app.
    pose proof (concat_be32_length vals) as Hc. unfold tags.len in Hc.
    cbn [List.length tags.be32]. lia. }
  split.
  { unfold tags.Prepend, tags.Append.
    destruct (Z.ltb_spec k 0x80); [lia|].
    destruct (Z.ltb_spec k 0xC0); [lia|].
    rewrite fold_be32, uint32_small by lia.
    unfold t'. cbn [app]. rewrite <- !app_assoc. reflexivity. }
  split; [exact Hb|]. split.
  { unfold tags.ValueRange.
    change (tags.at_ t' 0) with (Some (b2z (z2b k))). rewrite Hb.
    destruct (Z.ltb_spec k 0x80); [lia|].
    destruct (Z.ltb_spec k 0xC0); [lia|].
    rewrite Hval.
    destruct (at_in_range t' (4 * (1 + n))) as (b & ->); [|reflexivity].
    pose proof (Zle_0_nat (List.length t)). unfold tags.len in *. lia. }
  split.
  { intros j Hj.
    destruct (nth_error vals j) as [vj|] eqn:Ej;
      [|apply nth_error_None in Ej; lia].
    destruct (nth_error_split vals j Ej) as (l1 & l2 & Hsplit & Hl1).
    assert (Hvj : 0 <= vj < 2^32).
    { rewrite Forall_forall in Hvals. apply Hvals.
      eapply nth_error_In. exact Ej. }
    unfold tags.Value, t'. rewrite Hsplit, map_app, concat_app.
    cbn [map List.concat].
    change (z2b k :: tags.be32 n
              ++ (List.concat (map tags.be32 l1)
                    ++ tags.be32 vj ++ List.concat (map tags.be32 l2)) ++ t)
      with ((z2b k :: tags.be32 n)
              ++ (List.concat (map tags.be32 l1)
                    ++ tags.be32 vj ++ List.concat (map tags.be32 l2)) ++ t).
    rewrite <- !app_assoc, app_assoc.
    replace (1 + 4 * (1 + Z.of_nat j))
      with (tags.len ((z2b k :: tags.be32 n) ++ List.concat (map tags.be32 l1))
            + 0).
    - rewrite valAt_app_r by lia. rewrite valAt_be32_0, uint32_small by lia.
      reflexivity.
    - pose proof (concat_be32_length l1) as Hc.
      unfold tags.len in *. rewrite length_app.
      cbn [List.length tags.be32]. lia. }
  unfold t'.
  change (z2b k :: tags.be32 n ++ List.concat (map tags.be32 vals) ++ t)
    with ((z2b k :: tags.be32 n) ++ List.concat (map tags.be32 vals) ++ t).
  rewrite app_assoc. apply Next_after. rewrite <- app_assoc.
  change ((z2b k :: tags.be32 n) ++ List.concat (map tags.be32 vals) ++ t)
    with t'.
  unfold tags.thisLen. unfold t' at 1. rewrite Hb.
  destruct (Z.ltb_spec k 0x80); [lia|].
  destruct (Z.ltb_spec k 0xC0); [lia|].
  rewrite Hval. f_equal.
  pose proof (concat_be32_length vals) as Hc.
  unfold tags.len in *. rewrite length_app.
  cbn [List.length tags.be32]. lia.
Qed.

Lemma tag_values_there_and_back_witness :
  tags.Value (z2b tags.UnionCases :: tags.be32 2
                ++ List.concat (map tags.be32 [7; 9]) ++ [z2b tags.Opt]) 2
  = Some 9.
Proof.
  destruct (tag_values_there_and_back [z2b tags.Opt] tags.UnionCases [7; 9])
    as (_ & _ & _ & H & _).
  - unfold tags.UnionCases. cbn. lia.
  - repeat constructor; lia.
  - cbn. lia.
  - apply (H 1%nat). cbn. lia.
Defined.

(** *** [Trimmed] *)

Lemma at_app_l (e rest : tags.XDRTag) (i b : Z) :
  tags.at_ e i = Some b -> tags.at_ (e ++ rest) i = Some b.
Proof.
  unfold tags.at_. destruct (i <? 0); [discriminate|].
  destruct (nth_error e (Z.to_nat i)) as [x|] eqn:E; [|discriminate].
  intros H. rewrite nth_error_app1 by (apply nth_error_Some; congruence).
  rewrite E. exact H.
Qed.

Lemma valAt_app_l (e rest : tags.XDRTag) (o v : Z) :
  tags.valAt e o = Some v -> tags.valAt (e ++ rest) o = Some v.
Proof.
  unfold tags.valAt.
  destruct (tags.at_ e (o + 3)) as [b3|] eqn:E3; [|discriminate].
  destruct (tags.at_ e o) as [b0|] eqn:E0; [|discriminate].
  destruct (tags.at_ e (o + 1)) as [b1|] eqn:E1; [|discriminate].
  destruct (tags.at_ e (o + 2)) as [b2|] eqn:E2; [|discriminate].
  rewrite (at_app_l _ rest _ _ E3), (at_app_l _ rest _ _ E0),
    (at_app_l _ rest _ _ E1), (at_app_l _ rest _ _ E2).
  intros H. exact H.
Qed.

Lemma thisLen_entry (e rest : tags.XDRTag) :
  isEntry e = true -> tags.thisLen (e ++ rest) = Some (tags.len e).
Proof.
  unfold isEntry. destruct (tags.thisLen e) as [l|] eqn:El; [|discriminate].
  intros H. apply andb_prop in H. destruct H as [H0 H].
  apply Z.eqb_eq in H. subst l.
  destruct e as [|b e']; [discriminate H0|].
  cbn [app tags.thisLen] in *.
  destruct (b2z b <? 128); [exact El|].
  destruct (b2z b <? 192); [exact El|].
  destruct (tags.valAt (b :: e') 1) as [v|] eqn:Ev; [|discriminate].
  change (b :: e' ++ rest) with ((b :: e') ++ rest).
  rewrite (valAt_app_l _ rest _ _ Ev). exact El.
Qed.

Lemma entry_nonempty (e : tags.XDRTag) :
  isEntry e = true -> exists b e', e = b :: e'.
Proof.
  destruct e as [|b e']; [discriminate|]. intros _. eauto.
Qed.

Lemma trimLoop_noops (n fuel : nat) (e mark : Z) :
  (n <= fuel)%nat -> tags.trimLoop fuel (zeros n) e mark = Some mark.
Proof.
  revert fuel e mark. induction n as [|n IH]; intros fuel e mark H.
  - destruct fuel; reflexivity.
  - destruct fuel as [|fuel]; [lia|].
    change (zeros (S n)) with ([x00] ++ zeros n).
    cbn [tags.trimLoop].
    change (tags.Empty ([x00] ++ zeros n)) with false. cbv iota.
    change (tags.thisLen ([x00] ++ zeros n)) with (Some 1).
    rewrite (Next_after [x00] (zeros n)) by reflexivity.
    change (tags.Kind ([x00] ++ zeros n) =? tags.Noop) with true.
    cbv iota beta zeta. apply IH. lia.
Qed.

Lemma trimLoop_entries (es : list tags.XDRTag) (n : nat) :
  Forall (fun e => isEntry e = true) es -> es <> [] ->
  (tags.Kind (last es []) =? tags.Noop) = false ->
  forall fuel e mark,
    (List.length (List.concat es) + n <= fuel)%nat ->
    tags.trimLoop fuel (List.concat es ++ zeros n) e mark
    = Some (e + tags.len (List.concat es)).
Proof.
  induction 1 as [|x es' Hx Hes IH]; intros Hne Hlast fuel e mark Hfuel;
    [contradiction|].
  destruct (entry_nonempty x Hx) as (b & x' & Ex).
  cbn [List.concat] in *. rewrite <- app_assoc.
  assert (Hlx : tags.len x = Z.of_nat (List.length x)) by reflexivity.
  destruct fuel as [|fuel]; [rewrite length_app, Ex in Hfuel; cbn in Hfuel; lia|].
  cbn [tags.trimLoop].
  assert (HE : tags.Empty (x ++ List.concat es' ++ zeros n) = false)
    by (rewrite Ex; reflexivity).
  rewrite HE. rewrite (thisLen_entry x _ Hx).
  rewrite (Next_after x _ (thisLen_entry x _ Hx)).
  assert (HK : tags.Kind (x ++ List.concat es' ++ zeros n) = tags.Kind x)
    by (rewrite Ex; reflexivity).
  rewrite HK. cbv zeta.
  assert (Hlen : tags.len (x ++ List.concat es')
                 = tags.len x + tags.len (List.concat es'))
    by (unfold tags.len; rewrite length_app; lia).
  rewrite length_app in Hfuel.
  assert (Hx1 : (1 <= List.length x)%nat) by (rewrite Ex; cbn; lia).
  destruct es' as [|y es''].
  - cbn [last] in Hlast. rewrite Hlast. cbn [List.concat app].
    rewrite trimLoop_noops by (cbn in Hfuel; lia).
    rewrite app_nil_r. reflexivity.
  - rewrite IH.
    + rewrite Hlen. f_equal. lia.
    + discriminate.
    + exact Hlast.
    + lia.
Qed.

(** [Trimmed] drops the [Noop] entries at the end of a sequence and
    nothing else: of whole entries the last of which is not a [Noop],
    followed by any number of [Noop]s, it returns the entries.  So it
    leaves a sequence without trailing [Noop]s as it is, and maps a
    sequence of [Noop]s to the empty one. *)
Theorem Trimmed_drops_trailing_noops (es : list tags.XDRTag) (n : nat)
  (Hes : Forall (fun e => isEntry e = true) es)
  (Hlast : es = [] \/ (tags.Kind (last es []) =? tags.Noop) = false) :
  tags.Trimmed (List.concat es ++ zeros n) = Some (List.concat es)
  /\ tags.Trimmed (List.concat es) = Some (List.concat es).
Proof.
  assert (H : forall k,
             tags.Trimmed (List.concat es ++ zeros k)
             = Some (List.concat es)).
  { intros k. unfold tags.Trimmed.
    destruct es as [|x es'].
    - cbn [List.concat app].
      rewrite trimLoop_noops by (rewrite zeros_length; lia).
      unfold tags.sliceTo, tags.len.
      destruct (Z.leb_spec 0 (Z.of_nat (List.length (zeros k)))); [|lia].
      reflexivity.
    - destruct Hlast as [Hl|Hl]; [discriminate|].
      rewrite (trimLoop_entries (x :: es') k Hes ltac:(discriminate) Hl)
        by (rewrite length_app, zeros_length; lia).
      unfold tags.sliceTo, tags.len. rewrite length_app.
      destruct (Z.leb_spec 0 (0 + Z.of_nat (List.length (List.concat (x :: es')))));
        [|lia].
      destruct (Z.leb_spec
                  (0 + Z.of_nat (List.length (List.concat (x :: es'))))
                  (Z.of_nat (List.length (List.concat (x :: es'))
                             + List.length (zeros k)))); [|lia].
      cbn [andb]. rewrite Z.add_0_l, Nat2Z.id.
      rewrite firstn_app, firstn_all, Nat.sub_diag, firstn_O, app_nil_r.
      reflexivity. }
  split; [apply H|].
  specialize (H 0%nat). cbn [zeros repeat] in H. rewrite app_nil_r in H.
  exact H.
Qed.

Lemma Trimmed_drops_trailing_noops_witness :
  tags.Trimmed ([z2b tags.Noop] ++ maxlenTag 4 ++ [z2b tags.Noop; z2b tags.Noop])
  = Some ([z2b tags.Noop] ++ maxlenTag 4).
Proof.
  destruct (Trimmed_drops_trailing_noops [[z2b tags.Noop]; maxlenTag 4] 2)
    as [H _].
  - repeat constructor.
  - right. reflexivity.
  - exact H.
Defined.

(** ** The struct-tag parser *)

Section ParserProperties.

Variable ParseUint : string -> Z -> Z -> Z * option error.

(** [opaque] is for bytes: on an array or slice it stands for the empty
    layer and [opaque] on the element, and whether on the element of one or
    on a type by itself, it is accepted for the kinds [int8] and [uint8]
    and refused for every other. *)
Theorem ParseTag_opaque (t : Type') (isU : tags.IsInUnion)
  (HisU : isU <> tags.InUnion) :
  let bytes (e : Type') :=
    match kindOf e with Int8 | Uint8 => true | _ => false end in
  let err (e : Type') :=
    Errorf "'opaque' label applied to %s, but only applicable to bytes"
      [AType e] in
  tags.ParseTag ParseUint t "opaque" isU
  = match t with
    | ArrayOf _ e | SliceOf e =>
        if bytes e then
          Some ([z2b tags.Noop; z2b tags.Opaque], None, tags.NotInUnion)
        else Some ([z2b tags.Noop], Some (err e), tags.NotInUnion)
    | _ =>
        if bytes t then Some ([z2b tags.Opaque], None, tags.NotInUnion)
        else Some ([], Some (err t), tags.NotInUnion)
    end.
Proof.
  destruct isU; try contradiction;
    destruct t as [s|n e|e|k e|e|nm fs];
    try destruct s; try (destruct e as [s'| | | | |]; try destruct s');
    reflexivity.
Qed.



End ParserProperties.


Lemma ParseTag_opaque_witness :
  tags.ParseTag strconv.ParseUint (SliceOf (Scalar SUint8)) "opaque" tags.MaybeInUnion
  = Some ([z2b tags.Noop; z2b tags.Opaque], None, tags.NotInUnion).
Proof.
  exact (ParseTag_opaque strconv.ParseUint (SliceOf (Scalar SUint8)) tags.MaybeInUnion
           ltac:(discriminate)).
Defined.


(** ** The parser returns *)

Lemma TrimLeftSpace_length (s : string) :
  (String.length (strings.TrimLeftSpace s) <= String.length s)%nat.
Proof.
  induction s as [|a r IH]; [reflexivity|].
  cbn [strings.TrimLeftSpace]. destruct (strings.isSpace a); cbn; lia.
Qed.

Lemma TrimRightSpace_length (s : string) :
  (String.length (strings.TrimRightSpace s) <= String.length s)%nat.
Proof.
  induction s as [|a r IH]; [reflexivity|].
  cbn [strings.TrimRightSpace].
  destruct (strings.TrimRightSpace r) as [|b r'].
  - destruct (strings.isSpace a); cbn; lia.
  - cbn in *. lia.
Qed.

Lemma TrimSpace_length (s : string) :
  (String.length (strings.TrimSpace s) <= String.length s)%nat.
Proof.
  unfold strings.TrimSpace.
  pose proof (TrimRightSpace_length (strings.TrimLeftSpace s)).
  pose proof (TrimLeftSpace_length s). lia.
Qed.

Lemma Split_shape (s : string) (sep : ascii) :
  exists p parts,
    strings.Split s sep = p :: parts
    /\ (String.length p <= String.length s)%nat
    /\ (List.length parts <= String.length s)%nat.
Proof.
  induction s as [|a r (p & parts & E & Hp & Hn)].
  - exists EmptyString, []. repeat split; cbn; lia.
  - cbn [strings.Split]. destruct (Ascii.eqb a sep).
    + exists EmptyString, (strings.Split r sep). rewrite E.
      repeat split; cbn; lia.
    + rewrite E. exists (String.String a p), parts. repeat split; cbn; lia.
Qed.

Lemma from_length (n : nat) (s : string) :
  (String.length (strings.from n s) <= String.length s)%nat.
Proof.
  revert s. induction n as [|n IH]; intros s; [reflexivity|].
  destruct s as [|a r]; [reflexivity|]. cbn [strings.from String.length].
  specialize (IH r). lia.
Qed.

Lemma TrimPrefix_length (s p : string) :
  (String.length (strings.TrimPrefix s p) <= String.length s)%nat.
Proof.
  unfold strings.TrimPrefix. destruct (strings.HasPrefix s p); [|lia].
  apply from_length.
Qed.

Lemma wellFormed_nil : wellFormed [].
Proof. exists []. split; [constructor | reflexivity]. Qed.

Lemma wellFormed_app (xt e : tags.XDRTag) :
  wellFormed xt -> isEntry e = true -> wellFormed (xt ++ e).
Proof.
  intros (es & Hes & ->) He. exists (es ++ [e]). split.
  - apply Forall_app. split; [exact Hes | repeat constructor; exact He].
  - rewrite concat_app. cbn. rewrite app_nil_r. reflexivity.
Qed.

Lemma isEntry_flag (k : Z) : 0 <= k < 0x80 -> isEntry [z2b k] = true.
Proof.
  intros H. unfold isEntry. cbn [tags.thisLen].
  rewrite b2z_z2b_small by lia.
  destruct (Z.ltb_spec k 128); [reflexivity | lia].
Qed.

Lemma isEntry_single (k v : Z) :
  0x80 <= k < 0xC0 -> isEntry (z2b k :: tags.be32 v) = true.
Proof.
  intros H. unfold isEntry. cbn [tags.thisLen].
  rewrite b2z_z2b_small by lia.
  destruct (Z.ltb_spec k 128); [lia|].
  destruct (Z.ltb_spec k 192); [reflexivity | lia].
Qed.

Lemma isEntry_multi (k : Z) (vals : list Z) :
  0xC0 <= k < 256 -> Z.of_nat (List.length vals) < 2^32 ->
  isEntry (z2b k :: tags.be32 (Z.of_nat (List.length vals))
             ++ List.concat (map tags.be32 vals)) = true.
Proof.
  intros Hk Hn. unfold isEntry. cbn [tags.thisLen].
  rewrite b2z_z2b_small by lia.
  destruct (Z.ltb_spec k 128); [lia|].
  destruct (Z.ltb_spec k 192); [lia|].
  rewrite valAt_be32, uint32_small by lia.
  pose proof (concat_be32_length vals) as Hc. unfold tags.len in *.
  cbn [List.length]. rewrite length_app. cbn [tags.be32 List.length].
  apply andb_true_intro. split; [apply Z.ltb_lt | apply Z.eqb_eq]; lia.
Qed.

Lemma Append_flag (xt : tags.XDRTag) (k : Z) :
  0 <= k < 0x80 -> wellFormed xt ->
  exists xt', tags.Append xt k [] = Some xt' /\ wellFormed xt'.
Proof.
  intros Hk Hwf. exists (xt ++ [z2b k]). split.
  - unfold tags.Append. destruct (Z.ltb_spec k 128); [reflexivity | lia].
  - apply wellFormed_app; [exact Hwf | apply isEntry_flag; exact Hk].
Qed.

Lemma Append_single (xt : tags.XDRTag) (k v : Z) :
  0x80 <= k < 0xC0 -> wellFormed xt ->
  exists xt', tags.Append xt k [v] = Some xt' /\ wellFormed xt'.
Proof.
  intros Hk Hwf. exists (xt ++ z2b k :: tags.be32 v). split.
  - unfold tags.Append. destruct (Z.ltb_spec k 128); [lia|].
    destruct (Z.ltb_spec k 192); [reflexivity | lia].
  - apply wellFormed_app; [exact Hwf | apply isEntry_single; exact Hk].
Qed.

Lemma Append_multi (xt : tags.XDRTag) (k : Z) (vals : list Z) :
  0xC0 <= k < 256 -> Z.of_nat (List.length vals) < 2^32 ->
  wellFormed xt ->
  exists xt', tags.Append xt k vals = Some xt' /\ wellFormed xt'.
Proof.
  intros Hk Hn Hwf.
  assert (Hn0 := Zle_0_nat (List.length vals)).
  eexists. split.
  - unfold tags.Append. destruct (Z.ltb_spec k 128); [lia|].
    destruct (Z.ltb_spec k 192); [lia|].
    rewrite fold_be32, uint32_small by lia. reflexivity.
  - rewrite <- app_assoc. apply wellFormed_app; [exact Hwf|].
    apply (isEntry_multi k vals Hk Hn).
Qed.

(** [Trimmed] returns on every sequence of whole entries. *)
Lemma trimLoop_total (es : list tags.XDRTag) :
  Forall (fun e => isEntry e = true) es ->
  forall fuel e mark,
    0 <= mark <= e ->
    exists m,
      tags.trimLoop fuel (List.concat es) e mark = Some m
      /\ 0 <= m <= e + tags.len (List.concat es).
Proof.
  induction 1 as [|x es' Hx Hes IH]; intros fuel e mark Hm.
  - exists mark. split; [destruct fuel; reflexivity|].
    cbn. unfold tags.len. cbn. lia.
  - destruct (entry_nonempty x Hx) as (b & x' & Ex).
    cbn [List.concat].
    assert (Hlen : tags.len (x ++ List.concat es')
                   = tags.len x + tags.len (List.concat es'))
      by (unfold tags.len; rewrite length_app; lia).
    assert (Hx1 : 1 <= tags.len x)
      by (rewrite Ex; unfold tags.len; cbn [List.length]; lia).
    assert (Hl0 : 0 <= tags.len (List.concat es'))
      by (unfold tags.len; lia).
    destruct fuel as [|fuel].
    + exists mark. split; [|lia].
      cbn [tags.trimLoop]. destruct (tags.Empty _); reflexivity.
    + cbn [tags.trimLoop].
      assert (HE : tags.Empty (x ++ List.concat es') = false)
        by (rewrite Ex; reflexivity).
      rewrite HE, (thisLen_entry x _ Hx).
      rewrite (Next_after x _ (thisLen_entry x _ Hx)). cbv zeta.
      destruct (IH fuel (e + tags.len x)
                  (if tags.Kind (x ++ List.concat es') =? tags.Noop
                   then mark else e + tags.len x)) as (m & -> & Hmm).
      { destruct (tags.Kind (x ++ List.concat es') =? tags.Noop); lia. }
      exists m. split; [reflexivity | lia].
Qed.

Lemma Trimmed_total (xt : tags.XDRTag) :
  wellFormed xt -> exists xt', tags.Trimmed xt = Some xt'.
Proof.
  intros (es & Hes & ->). unfold tags.Trimmed.
  destruct (trimLoop_total es Hes (List.length (List.concat es)) 0 0)
    as (m & -> & Hm); [lia|].
  unfold tags.sliceTo.
  destruct (Z.leb_spec 0 m); [|lia].
  destruct (Z.leb_spec m (tags.len (List.concat es))); [|lia].
  eexists. reflexivity.
Qed.

Ltac kind_range := vm_compute; split; [discriminate | reflexivity].

Section ParserReturns.

Variable ParseUint : string -> Z -> Z -> Z * option error.

Lemma layerStep_total (p : string) (xt : tags.XDRTag) (t : Type') :
  wellFormed xt ->
  exists xt' t' err,
    tags.layerStep ParseUint p xt t = Some (xt', t', err)
    /\ wellFormed xt'.
Proof.
  intros Hwf. unfold tags.layerStep.
  destruct (Append_flag xt tags.Noop ltac:(kind_range) Hwf)
    as (xn & Hn & Hwn).
  destruct (Append_flag xt tags.Opt ltac:(kind_range) Hwf)
    as (xo & Ho & Hwo).
  destruct (Append_flag xt tags.Opaque ltac:(kind_range) Hwf)
    as (xq & Hq & Hwq).
  destruct (Append_flag xn tags.Opaque ltac:(kind_range) Hwn)
    as (xnq & Hnq & Hwnq).
  destruct (p =? "")%string; [rewrite Hn; eauto|].
  destruct (p =? "opt")%string.
  { destruct (tags.canBeOpt t); cbn [negb]; [rewrite Ho|]; eauto. }
  destruct (p =? "opaque")%string.
  { destruct t as [s|n el|el|k el|el|nm fs]; cbn [kindOf];
      try (destruct s; cbn [kindOf]); rewrite ?Hn, ?Hq; cbn [tags.Elem];
      try (destruct (kindOf el); rewrite ?Hnq); eauto. }
  destruct (strings.HasPrefix p "len:").
  { unfold tags.parseU32.
    destruct (ParseUint (strings.from 4 p) 0 32) as [u [e|]]; [eauto|].
    destruct (Append_single xt tags.Len (uint32 u) ltac:(kind_range) Hwf)
      as (xl & Hl & Hwl).
    destruct (kindOf t); rewrite ?Hl; eauto. }
  destruct (strings.HasPrefix p "maxlen:").
  { unfold tags.parseU32.
    destruct (ParseUint (strings.from 7 p) 0 32) as [u [e|]]; [eauto|].
    destruct (Append_single xt tags.MaxLen (uint32 u) ltac:(kind_range) Hwf)
      as (xl & Hl & Hwl).
    destruct (kindOf t); rewrite ?Hl; eauto. }
  eauto.
Qed.

Lemma layers_total (parts : list string) :
  forall (xt : tags.XDRTag) (t : Type'),
    wellFormed xt ->
    exists xt' err, tags.layers ParseUint parts xt t = Some (xt', err).
Proof.
  induction parts as [|part rest IH]; intros xt t Hwf.
  - cbn [tags.layers]. destruct (Trimmed_total xt Hwf) as (xt' & ->). eauto.
  - cbn [tags.layers].
    destruct (layerStep_total (strings.TrimSpace part) xt t Hwf)
      as (xt1 & t1 & err & -> & Hwf1).
    destruct err as [e|]; [eauto|].
    destruct rest as [|r rest'].
    + apply (IH xt1 t1 Hwf1).
    + destruct t1 as [s|n el|el|k el|el|nm fs]; cbn [kindOf tags.Elem];
        try (destruct s; cbn [kindOf]); eauto.
Qed.

Lemma parseU32s_loop_length (vals : list string) :
  forall acc us,
    tags.parseU32s_loop ParseUint vals acc = (us, None) ->
    List.length us = (List.length acc + List.length vals)%nat.
Proof.
  induction vals as [|v vals IH]; intros acc us H.
  - cbn in H. injection H as <-. cbn. lia.
  - cbn [tags.parseU32s_loop] in H.
    destruct (tags.parseU32 ParseUint v) as [u [e|]]; [discriminate|].
    rewrite (IH _ _ H), length_app. cbn. lia.
Qed.

Lemma ParseTag_total (t : Type') (stags : string)
  (isU : tags.IsInUnion)
  (Hlen : Z.of_nat (String.length stags) < 2^32 - 1) :
  exists xt err isU',
    tags.ParseTag ParseUint t stags isU = Some (xt, err, isU')
    /\ (err = None -> isU' = tags.MaybeInUnion -> xt = tags.skipTag).
Proof.
  unfold tags.ParseTag.
  pose proof (TrimSpace_length stags) as Htrim.
  set (s := strings.TrimSpace stags) in *.
  destruct (s =? "-")%string; [do 3 eexists; split; [reflexivity|]; reflexivity|].
  destruct (Split_shape s "/") as (p & parts & -> & Hp & _).
  assert (Hcont : forall xt isU1 ps,
            wellFormed xt -> isU1 <> tags.MaybeInUnion ->
            exists xt' err isU',
              (' (xt0, err0) <- tags.layers ParseUint ps xt t ;;
               Some (xt0, err0, isU1)) = Some (xt', err, isU')
              /\ (err = None -> isU' = tags.MaybeInUnion
                  -> xt' = tags.skipTag)).
  { intros xt isU1 ps Hwf Hne.
    destruct (layers_total ps xt t Hwf) as (xt' & err & ->).
    do 3 eexists. split; [reflexivity|]. intros _ E. contradiction. }
  assert (Herr : forall (xt : tags.XDRTag) (e : error)
                         (isU1 : tags.IsInUnion),
            exists xt' err isU',
              Some (xt, Some e, isU1) = Some (xt', err, isU')
              /\ (err = None -> isU' = tags.MaybeInUnion
                  -> xt' = tags.skipTag)).
  { intros. do 3 eexists. split; [reflexivity|]. discriminate. }
  destruct (Append_flag [] tags.UnionSwitch ltac:(kind_range) wellFormed_nil)
    as (xs & Hs & Hws).
  destruct (Append_flag [] tags.UnionDefault ltac:(kind_range) wellFormed_nil)
    as (xd & Hd & Hwd).
  destruct (Append_multi [] tags.UnionCases [0] ltac:(kind_range)
              ltac:(cbn; lia) wellFormed_nil) as (x0 & H0 & Hw0).
  destruct (Append_multi [] tags.UnionCases [1] ltac:(kind_range)
              ltac:(cbn; lia) wellFormed_nil) as (x1 & H1 & Hw1).
  cbv zeta.
  destruct (strings.HasPrefix p "union:").
  - destruct (p =? "union:switch")%string.
    + destruct (negb (tags.IsInUnion_eqb isU tags.MaybeInUnion));
        [apply Herr|].
      destruct (negb (tags.validForUnionSwitch t)); [apply Herr|].
      rewrite Hs. apply Hcont; [exact Hws | discriminate].
    + destruct isU; cbn [tags.IsInUnion_eqb negb]; try apply Herr.
      destruct (p =? "union:false")%string;
        [rewrite H0; apply Hcont; [exact Hw0 | discriminate]|].
      destruct (p =? "union:true")%string;
        [rewrite H1; apply Hcont; [exact Hw1 | discriminate]|].
      destruct (p =? "union:default")%string;
        [rewrite Hd; apply Hcont; [exact Hwd | discriminate]|].
      unfold tags.parseU32s.
      destruct (tags.parseU32s_loop ParseUint
                  (strings.Split (strings.TrimPrefix p "union:") ",") [])
        as [vals [e|]] eqn:Ev; [apply Herr|].
      apply parseU32s_loop_length in Ev. cbn [List.length Nat.add] in Ev.
      destruct (Split_shape (strings.TrimPrefix p "union:") ",")
        as (q & qs & Eq & _ & Hqs).
      rewrite Eq in Ev. cbn [List.length] in Ev.
      pose proof (TrimPrefix_length p "union:") as Htp.
      destruct (Append_multi [] tags.UnionCases vals ltac:(kind_range)
                  ltac:(lia) wellFormed_nil) as (xv & Hv & Hwv).
      rewrite Hv. apply Hcont; [exact Hwv | discriminate].
  - destruct isU; cbn [tags.IsInUnion_eqb]; try apply Herr;
      (apply Hcont; [apply wellFormed_nil | discriminate]).
Qed.

(** [ParseTag] returns on every tag string (of fewer than 2^32 - 1
    characters): none of the panics of [Append], of indexing or of
    [Elem] is reached.  And when it returns without an error while it is
    still open whether the struct is a union, the tag is the skip tag:
    every other field decides the question. *)
Theorem ParseTag_returns (t : Type') (stags : string)
  (isU : tags.IsInUnion)
  (Hlen : Z.of_nat (String.length stags) < 2^32 - 1) :
  exists xt err isU',
    tags.ParseTag ParseUint t stags isU = Some (xt, err, isU')
    /\ (err = None -> isU' = tags.MaybeInUnion -> xt = tags.skipTag).
Proof. exact (ParseTag_total t stags isU Hlen). Qed.

(** The first loop of [makeStructCodec] never reaches its panic: it
    returns having found out whether the struct is a union, or that every
    field is skipped, or with the error of a tag. *)
Theorem classify_returns (t : Type') (fs : list (StructField * getCodecFn))
  (i : nat)
  (Hlen : Forall (fun fg => Z.of_nat (String.length (Tag (fst fg)))
                            < 2^32 - 1) fs) :
  exists r,
    classify ParseUint t fs i = Some r
    /\ match r with
       | Determined isUnion _ _ _ _ _ => isUnion <> tags.MaybeInUnion
       | _ => True
       end.
Proof.
  revert i. induction Hlen as [|[f get] fs' Hf Hfs IH]; intros i.
  - exists Undetermined. split; [reflexivity | exact I].
  - cbn [classify]. unfold tags.ParseStructTag.
    destruct (ParseTag_total (Type_ f) (Tag f) tags.MaybeInUnion Hf)
      as (xt & err & isU' & -> & Hskip).
    destruct err as [e|]; [eexists; split; [reflexivity | exact I]|].
    destruct isU'.
    + rewrite (Hskip eq_refl eq_refl).
      change (tags.Kind tags.skipTag =? tags.Skip) with true.
      cbn [negb andb tags.IsInUnion_eqb]. apply IH.
    + cbn [tags.IsInUnion_eqb]. rewrite andb_false_r.
      eexists. split; [reflexivity | discriminate].
    + cbn [tags.IsInUnion_eqb]. rewrite andb_false_r.
      eexists. split; [reflexivity | discriminate].
Qed.

End ParserReturns.

Lemma ParseTag_returns_witness :
  exists r,
    tags.ParseTag strconv.ParseUint (Scalar SUint32) "union:1,2,0x10"
      tags.InUnion = Some r.
Proof.
  destruct (ParseTag_returns strconv.ParseUint (Scalar SUint32)
              "union:1,2,0x10" tags.InUnion)
    as (xt & err & isU' & H & _); [cbn; lia|].
  eexists. exact H.
Defined.

Lemma classify_returns_witness :
  exists r,
    classify strconv.ParseUint nested
      (map (fun f => (f, buildCodec strconv.ParseUint (Type_ f)))
         [mkStructField "Skip" (Scalar SInt32) "-";
          mkStructField "I" (Scalar SInt32) EmptyString]) 0
    = Some r.
Proof.
  destruct (classify_returns strconv.ParseUint nested
              (map (fun f => (f, buildCodec strconv.ParseUint (Type_ f)))
                 [mkStructField "Skip" (Scalar SInt32) "-";
                  mkStructField "I" (Scalar SInt32) EmptyString]) 0)
    as (r & H & _).
  - repeat constructor; cbn; lia.
  - eexists. exact H.
Defined.

(** ** Errors and their paths *)

(** [WithFieldError] lets nil through, and wraps an error so that the
    cause stays in reach: the [FieldError] it returns has the original
    cause underneath, also when the error was a [FieldError] already (the
    paths are joined, outer first, not nested), and it matches the
    sentinels the error matched. *)
Theorem WithFieldError_keeps_the_cause (err : error) (a b c d : string)
  (target : xerror)
  (Ha : (a =? "")%string = false) (Hc : (c =? "")%string = false)
  (Hflat : errors.Unwrap err = None) :
  errors.WithFieldError None [a; b] = Some None
  /\ errors.WithFieldError (Some err) [a; b]
     = Some (Some (FieldError err (a ++ "." ++ b)%string))
  /\ errors.WithFieldError (Some (FieldError err (a ++ "." ++ b)%string)) [c; d]
     = Some (Some (FieldError err ((c ++ "." ++ d) ++ " " ++ a ++ "." ++ b)%string))
  /\ errors.Is (FieldError err ((c ++ "." ++ d) ++ " " ++ a ++ "." ++ b)%string)
       target
     = errors.Is err target.
Proof.
  split; [reflexivity|]. split.
  - unfold errors.WithFieldError. rewrite Ha.
    cbn [strings.Join]. destruct err; try reflexivity; discriminate Hflat.
  - split; [|reflexivity].
    unfold errors.WithFieldError. rewrite Hc. reflexivity.
Qed.

Lemma WithFieldError_keeps_the_cause_witness :
  errors.WithFieldError
    (Some (FieldError (Xerror ErrNilPointer) "Inner.P"))
    ["Outer"%string; "F"%string]
  = Some (Some (FieldError (Xerror ErrNilPointer) "Outer.F Inner.P")).
Proof.
  destruct (WithFieldError_keeps_the_cause (Xerror ErrNilPointer)
              "Inner" "P" "Outer" "F" ErrNilPointer)
    as (_ & _ & H & _); [reflexivity | reflexivity | reflexivity |].
  exact H.
Defined.

(** Wrapping never changes which sentinel an error matches, whatever the
    error and the path parts. *)
Theorem WithFieldError_Is (err : error) (p0 : string) (ps : list string)
  (target : xerror) :
  exists e',
    errors.WithFieldError (Some err) (p0 :: ps) = Some (Some e')
    /\ errors.Is e' target = errors.Is err target
    /\ errors.Unwrap e'
       = Some (match errors.Unwrap err with Some u => u | None => err end).
Proof.
  unfold errors.WithFieldError.
  destruct err; eexists; (split; [reflexivity|]); split; reflexivity.
Qed.

(** ** The codecs of the types *)

Section BuilderProperties.

Variable ParseUint : string -> Z -> Z -> Z * option error.

(** The kinds without a codec: [int], [uint] and [uintptr], whose size
    is the platform's, and channels, functions, interfaces and unsafe
    pointers.  [Marshal] of a value of such a type writes nothing and
    returns [InvalidTypeError] with the type, and [Unmarshal] leaves the
    variable as it is and returns the same. *)
Theorem unsupported_kinds (s : scalar) (o v : Value) (buf : list byte)
  (Hs : In s [SInt; SUint; SUintptr; SChan; SFunc; SInterface;
              SUnsafePointer]) :
  getBaseCodec ParseUint (Scalar s)
  = Some (errorCodec (InvalidTypeError (Scalar s)))
  /\ Marshal ParseUint (Scalar s) o
     = ([], Some (Some (InvalidTypeError (Scalar s))))
  /\ Unmarshal ParseUint (Scalar s) buf v
     = (v, Some (Some (InvalidTypeError (Scalar s)))).
Proof.
  cbn [In] in Hs.
  repeat (destruct Hs as [<-|Hs]; [split; [|split]; reflexivity|]).
  contradiction.
Qed.

(** Only pointers, strings, arrays, slices and maps take a tag: for a
    type of any other kind, a tag that is not empty and does not start
    with [opt] compiles to the error codec of [InvalidTagForTypeError],
    which fails every encode and decode without writing or reading. *)
Theorem tag_on_untaggable_type (t : Type') (tag : tags.XDRTag)
  (e d : list byte) (v : Value)
  (Ht : match kindOf t with
        | Ptr | String | Array | Slice | Map => False
        | _ => True
        end)
  (Htag : tag <> []) (Hopt : tags.Kind tag <> tags.Opt) :
  let err := InvalidTagForTypeError t tag in
  getCodec ParseUint t tag = Some (errorCodec err)
  /\ Encode (errorCodec err) e v = (e, Some (Some err))
  /\ Decode (errorCodec err) d v = (d, v, Some (Some err)).
Proof.
  intros err. split; [|split; reflexivity].
  unfold getCodec.
  assert (Ek : (tags.Kind tag =? tags.Opt) = false)
    by (apply Z.eqb_neq; exact Hopt).
  assert (Ee : tags.Empty tag = false)
    by (destruct tag; [contradiction | reflexivity]).
  destruct t as [s|n el|el|k el|el|nm fs]; try contradiction;
    [destruct s; try contradiction|];
    cbn [buildCodec]; rewrite Ek, Ee; reflexivity.
Qed.


End BuilderProperties.

Lemma unsupported_kinds_witness :
  Marshal strconv.ParseUint (Scalar SInt) (VInt 5)
  = ([], Some (Some (InvalidTypeError (Scalar SInt)))).
Proof.
  destruct (unsupported_kinds strconv.ParseUint SInt (VInt 5) (VInt 0) [])
    as (_ & H & _); [left; reflexivity | exact H].
Defined.

Lemma tag_on_untaggable_type_witness :
  getCodec strconv.ParseUint (Scalar SInt32) (maxlenTag 4)
  = Some (errorCodec (InvalidTagForTypeError (Scalar SInt32) (maxlenTag 4))).
Proof.
  destruct (tag_on_untaggable_type strconv.ParseUint (Scalar SInt32)
              (maxlenTag 4) [] [] (VInt 0)) as [H _];
    [exact I | discriminate | discriminate | exact H].
Defined.


(** ** The codec compiler returns *)


Lemma wellFormed_cons (xt : tags.XDRTag) :
  wellFormed xt -> xt <> [] ->
  exists x rest,
    xt = x ++ rest /\ isEntry x = true /\ wellFormed rest
    /\ tags.Kind x = tags.Kind xt.
Proof.
  intros (es & Hes & ->) Hne.
  destruct Hes as [|x es' Hx Hes']; [contradiction|].
  exists x, (List.concat es'). split; [reflexivity|]. split; [exact Hx|].
  split; [exists es'; split; [exact Hes' | reflexivity]|].
  destruct (entry_nonempty x Hx) as (b & x' & ->). reflexivity.
Qed.

Lemma Next_total (xt : tags.XDRTag) :
  wellFormed xt -> exists n, tags.Next xt = Some n /\ wellFormed n.
Proof.
  intros Hwf. destruct xt as [|b xt'].
  - exists []. split; [reflexivity | apply wellFormed_nil].
  - destruct (wellFormed_cons _ Hwf ltac:(discriminate))
      as (x & rest & -> & Hx & Hrest & _).
    exists rest. split; [|exact Hrest].
    apply Next_after. apply thisLen_entry. exact Hx.
Qed.

(** Where the mark of [Trimmed] ends up: at the end of an entry, and
    past the first one if that is not a [Noop]. *)
Lemma trimLoop_boundary (es : list tags.XDRTag) :
  Forall (fun e => isEntry e = true) es ->
  forall fuel e mark,
    (List.length (List.concat es) <= fuel)%nat ->
    exists j,
      (j <= List.length es)%nat
      /\ tags.trimLoop fuel (List.concat es) e mark
         = Some (if Nat.eqb j 0 then mark
                 else e + tags.len (List.concat (firstn j es)))
      /\ (match es with
          | x :: _ => (tags.Kind x =? tags.Noop) = false -> (1 <= j)%nat
          | [] => True
          end).
Proof.
  induction 1 as [|x es' Hx Hes IH]; intros fuel e mark Hfuel.
  - exists 0%nat. split; [reflexivity|]. split; [|exact I].
    destruct fuel; reflexivity.
  - destruct (entry_nonempty x Hx) as (b & x' & Ex).
    cbn [List.concat] in *.
    assert (Hx1 : (1 <= List.length x)%nat) by (rewrite Ex; cbn; lia).
    rewrite length_app in Hfuel.
    destruct fuel as [|fuel]; [lia|].
    cbn [tags.trimLoop].
    assert (HE : tags.Empty (x ++ List.concat es') = false)
      by (rewrite Ex; reflexivity).
    rewrite HE, (thisLen_entry x _ Hx).
    rewrite (Next_after x _ (thisLen_entry x _ Hx)). cbv zeta.
    assert (HK : tags.Kind (x ++ List.concat es') = tags.Kind x)
      by (rewrite Ex; reflexivity).
    rewrite HK.
    destruct (IH fuel (e + tags.len x)
                (if tags.Kind x =? tags.Noop then mark else e + tags.len x))
      as (j & Hj & -> & _); [lia|].
    destruct j as [|j].
    + cbn [Nat.eqb]. destruct (tags.Kind x =? tags.Noop) eqn:EK.
      * exists 0%nat. split; [lia|]. split; [reflexivity | discriminate].
      * exists 1%nat. split; [cbn; lia|]. split; [|intros _; lia].
        cbn [Nat.eqb firstn List.concat]. rewrite app_nil_r. reflexivity.
    + exists (S (S j)). split; [cbn [List.length]; lia|].
      split; [|intros _; lia].
      cbn [Nat.eqb]. f_equal.
      change (firstn (S (S j)) (x :: es')) with (x :: firstn (S j) es').
      cbn [List.concat]. unfold tags.len. rewrite length_app. lia.
Qed.

Lemma concat_firstn_prefix (j : nat) (es : list tags.XDRTag) :
  firstn (List.length (List.concat (firstn j es))) (List.concat es)
  = List.concat (firstn j es).
Proof.
  revert j. induction es as [|x es IH]; intros [|j]; try reflexivity.
  cbn [firstn List.concat]. rewrite length_app, firstn_app.
  replace (List.length x + List.length (List.concat (firstn j es))
           - List.length x)%nat
    with (List.length (List.concat (firstn j es))) by lia.
  rewrite IH. rewrite firstn_all2 by lia. reflexivity.
Qed.

Lemma Trimmed_post (xt : tags.XDRTag) :
  wellFormed xt ->
  exists xt',
    tags.Trimmed xt = Some xt' /\ wellFormed xt'
    /\ ((tags.Kind xt =? tags.Noop) = false -> tags.Kind xt' = tags.Kind xt).
Proof.
  intros (es & Hes & ->). unfold tags.Trimmed.
  destruct (trimLoop_boundary es Hes (List.length (List.concat es)) 0 0
              (Nat.le_refl _)) as (j & Hj & -> & Hfirst).
  set (m := if Nat.eqb j 0 then 0
            else 0 + tags.len (List.concat (firstn j es))).
  assert (Hm : m = tags.len (List.concat (firstn j es))).
  { unfold m. destruct j; [reflexivity | cbn [Nat.eqb]; lia]. }
  assert (Hle : (List.length (List.concat (firstn j es))
                 <= List.length (List.concat es))%nat).
  { rewrite <- (firstn_skipn j es) at 2. rewrite concat_app, length_app.
    lia. }
  exists (List.concat (firstn j es)). split.
  - unfold tags.sliceTo. rewrite Hm. unfold tags.len.
    destruct (Z.leb_spec 0 (Z.of_nat (List.length (List.concat (firstn j es)))));
      [|lia].
    destruct (Z.leb_spec
                (Z.of_nat (List.length (List.concat (firstn j es))))
                (Z.of_nat (List.length (List.concat es)))); [|lia].
    cbn [andb]. rewrite Nat2Z.id, concat_firstn_prefix. reflexivity.
  - split.
    + exists (firstn j es). split; [|reflexivity].
      rewrite Forall_forall in *. intros e' Hin. apply Hes.
      rewrite <- (firstn_skipn j es). apply in_or_app. left. exact Hin.
    + intros HK. destruct es as [|x es']; [discriminate HK|].
      destruct (entry_nonempty x (Forall_inv Hes)) as (b & x' & Ex).
      assert (HKx : (tags.Kind x =? tags.Noop) = false)
        by (rewrite Ex in *; exact HK).
      specialize (Hfirst HKx). destruct j as [|j]; [lia|].
      cbn [firstn List.concat]. rewrite Ex. reflexivity.
Qed.

Lemma valAt_in_range (t : tags.XDRTag) (o : Z) :
  0 <= o -> o + 3 < tags.len t -> exists v, tags.valAt t o = Some v.
Proof.
  intros Ho Hlen. unfold tags.valAt.
  destruct (at_in_range t (o + 3)) as (b3 & ->); [lia|].
  destruct (at_in_range t o) as (b0 & ->); [lia|].
  destruct (at_in_range t (o + 1)) as (b1 & ->); [lia|].
  destruct (at_in_range t (o + 2)) as (b2 & ->); [lia|].
  eexists. reflexivity.
Qed.

(** The value of a single-valued entry at the front can be read. *)
Lemma OnlyValue_total (xt : tags.XDRTag) :
  wellFormed xt -> 0x80 <= tags.Kind xt < 0xC0 ->
  exists v, tags.OnlyValue xt = Some v.
Proof.
  intros Hwf HK.
  destruct xt as [|b xt']; [cbn in HK; lia|].
  destruct (wellFormed_cons _ Hwf ltac:(discriminate))
    as (x & rest & E & Hx & _ & HKx).
  rewrite E in *. unfold tags.OnlyValue.
  apply valAt_in_range; [lia|].
  unfold isEntry in Hx. destruct x as [|b0 x']; [discriminate|].
  cbn [tags.thisLen] in Hx. cbn [tags.Kind] in HKx.
  cbn [app tags.Kind] in HK.
  destruct (Z.ltb_spec (b2z b0) 128); [lia|].
  destruct (Z.ltb_spec (b2z b0) 192); [|lia].
  apply andb_prop in Hx. destruct Hx as [_ Hx]. apply Z.eqb_eq in Hx.
  unfold tags.len in *. rewrite length_app. lia.
Qed.




Section CompilerReturns.

Variable ParseUint : string -> Z -> Z -> Z * option error.















(** *** Structs and unions *)







(** The values of a [UnionCases] entry at the front can all be read. *)
Lemma cases_readable (tag : tags.XDRTag) :
  wellFormed tag -> tags.Kind tag = tags.UnionCases ->
  exists e,
    tags.ValueRange tag = Some (1, e) /\ 1 <= e
    /\ forall j, 1 <= j < e -> exists v, tags.Value tag j = Some v.
Proof.
  intros Hwf HK.
  destruct tag as [|b tag']; [discriminate HK|].
  destruct (wellFormed_cons _ Hwf ltac:(discriminate))
    as (x & rest & E & Hx & _ & HKx).
  rewrite E in *. rewrite <- HKx in HK.
  unfold isEntry in Hx. destruct x as [|b0 x']; [discriminate|].
  cbn [tags.thisLen tags.Kind] in Hx, HK.
  destruct (Z.ltb_spec (b2z b0) 128) as [H1|H1];
    [rewrite HK in H1; vm_compute in H1; discriminate|].
  destruct (Z.ltb_spec (b2z b0) 192) as [H2|H2];
    [rewrite HK in H2; vm_compute in H2; discriminate|].
  destruct (tags.valAt (b0 :: x') 1) as [v|] eqn:Ev; [|discriminate].
  apply andb_prop in Hx. destruct Hx as [_ Hx]. apply Z.eqb_eq in Hx.
  assert (Hv0 : 0 <= v).
  { unfold tags.len in Hx. cbn [List.length] in Hx.
    assert (Hlor : forall p q r s, 0 <= p -> 0 <= q -> 0 <= r -> 0 <= s ->
              0 <= Z.lor (Z.lor (Z.shiftl p 24) (Z.shiftl q 16))
                     (Z.shiftl r 8) + s).
    { intros p q r s Hp Hq Hr Hs.
      assert (0 <= Z.lor (Z.lor (Z.shiftl p 24) (Z.shiftl q 16))
                     (Z.shiftl r 8)); [|lia].
      rewrite !Z.lor_nonneg, !Z.shiftl_nonneg. auto. }
    unfold tags.valAt in Ev.
    destruct (tags.at_ (b0 :: x') (1 + 3)) as [a3|] eqn:E3; [|discriminate].
    destruct (tags.at_ (b0 :: x') 1) as [a0|] eqn:E0; [|discriminate].
    destruct (tags.at_ (b0 :: x') (1 + 1)) as [a1|] eqn:E1; [|discriminate].
    destruct (tags.at_ (b0 :: x') (1 + 2)) as [a2|] eqn:E2; [|discriminate].
    injection Ev as <-.
    assert (Hat : forall i a, tags.at_ (b0 :: x') i = Some a -> 0 <= a).
    { intros i a. unfold tags.at_. destruct (i <? 0); [discriminate|].
      destruct (nth_error (b0 :: x') (Z.to_nat i)) as [y|]; [|discriminate].
      intros Ha. injection Ha as <-. apply b2z_range. }
    apply Hlor; eapply Hat; eassumption. }
  assert (Hlen : tags.len ((b0 :: x') ++ rest)
                 = 5 + v * 4 + tags.len rest)
    by (unfold tags.len in *; rewrite length_app; lia).
  assert (Hr0 : 0 <= tags.len rest) by (unfold tags.len; lia).
  exists (1 + v). split; [|split; [lia|]].
  - unfold tags.ValueRange.
    change (tags.at_ ((b0 :: x') ++ rest) 0) with (Some (b2z b0)).
    cbv iota beta.
    destruct (Z.ltb_spec (b2z b0) 128); [lia|].
    destruct (Z.ltb_spec (b2z b0) 192); [lia|].
    rewrite (valAt_app_l _ rest _ _ Ev). cbv iota beta zeta.
    destruct (at_in_range ((b0 :: x') ++ rest) (4 * (1 + v))) as (a & ->);
      [lia | reflexivity].
  - intros j Hj. unfold tags.Value. apply valAt_in_range; lia.
Qed.




End CompilerReturns.

Section CompilerReturns2.

Variable ParseUint : string -> Z -> Z -> Z * option error.



End CompilerReturns2.

(** A tag made of complete entries is read within its bounds.  On such a
    tag [Next] returns the tag after the first entry, again made of
    complete entries; [Trimmed] returns such a tag with the same kind in
    front, unless that was [Noop]; [OnlyValue] returns when the first
    entry is of a kind with one value; and when it is [UnionCases],
    [ValueRange] is [1, e) and [Value] returns at every index of it. *)
Theorem complete_entries_are_read_in_range (xt : tags.XDRTag)
  (Hwf : wellFormed xt) :
  (exists n, tags.Next xt = Some n /\ wellFormed n)
  /\ (exists xt',
        tags.Trimmed xt = Some xt' /\ wellFormed xt'
        /\ (tags.Kind xt <> tags.Noop -> tags.Kind xt' = tags.Kind xt))
  /\ (0x80 <= tags.Kind xt < 0xC0 -> exists v, tags.OnlyValue xt = Some v)
  /\ (tags.Kind xt = tags.UnionCases ->
      exists e,
        tags.ValueRange xt = Some (1, e) /\ 1 <= e
        /\ forall j, 1 <= j < e -> exists v, tags.Value xt j = Some v).
Proof.
  split; [apply Next_total; exact Hwf|].
  split; [|split; [apply OnlyValue_total; exact Hwf
                  | apply cases_readable; exact Hwf]].
  destruct (Trimmed_post xt Hwf) as (xt' & Ht & Hw & HK).
  exists xt'. split; [exact Ht|]. split; [exact Hw|].
  intros Hne. apply HK. apply Z.eqb_neq. exact Hne.
Qed.

Lemma complete_entries_are_read_in_range_witness :
  exists v,
    tags.OnlyValue (z2b tags.MaxLen :: tags.be32 16 ++ [z2b tags.Opaque])
    = Some v.
Proof.
  apply (complete_entries_are_read_in_range
           (z2b tags.MaxLen :: tags.be32 16 ++ [z2b tags.Opaque])).
  - exists [z2b tags.MaxLen :: tags.be32 16; [z2b tags.Opaque]].
    split; [|reflexivity].
    constructor; [reflexivity|]. constructor; [reflexivity|]. constructor.
  - vm_compute. split; [discriminate | reflexivity].
Defined.





(** ** Structs, field by field *)

Lemma struct_encode_app (name : string) (pre post : list (bound encFn))
  (v : Value) :
  forall e,
    struct_encode name (pre ++ post) e v
    = match struct_encode name pre e v with
      | (e1, Some None) => struct_encode name post e1 v
      | r => r
      end.
Proof.
  induction pre as [|f pre IH]; intros e; [reflexivity|].
  cbn [app struct_encode].
  destruct (field_encode f e v) as [e1 [[x [err|]]|]]; cbn [fst snd].
  - destruct (errors.WithFieldError (Some err) [name; bname f])
      as [[err'|]|] eqn:E; try reflexivity.
    exfalso. exact (WithFieldError_some _ _ E).
  - apply IH.
  - reflexivity.
Qed.

Lemma struct_decode_app (name : string) (pre post : list (bound decFn)) :
  forall d v,
    struct_decode name (pre ++ post) d v
    = match struct_decode name pre d v with
      | (d1, v1, Some None) => struct_decode name post d1 v1
      | r => r
      end.
Proof.
  induction pre as [|f pre IH]; intros d v; [reflexivity|].
  cbn [app struct_decode].
  destruct (field_decode f d v) as [[d1 v1] [[x [err|]]|]].
  - destruct (errors.WithFieldError (Some err) [name; bname f])
      as [[err'|]|] eqn:E; try reflexivity.
    exfalso. exact (WithFieldError_some _ _ E).
  - apply IH.
  - reflexivity.
Qed.

Lemma Encode_struct (name : string) (fields : list field) (e : encoder)
  (v : Value) :
  Encode (structCodec name fields) e v
  = struct_encode name (map (bindEnc Encode) fields) e v.
Proof. reflexivity. Qed.

Lemma Decode_struct (name : string) (fields : list field) (d : decoder)
  (v : Value) :
  Decode (structCodec name fields) d v
  = struct_decode name (map (bindDec Decode) fields) d v.
Proof. reflexivity. Qed.

(** A struct is its fields one after the other: the codec of the fields
    [pre ++ post] encodes as the codec of [pre] does and, if that
    returned no error, goes on from there as the codec of [post]; it
    decodes in the same way, [post] into the value [pre] left.  An error
    or a panic of [pre] is the result, with what was written, read and
    stored up to it. *)
Theorem struct_codec_is_sequential (name : string)
  (pre post : list field) (e : encoder) (d : decoder) (v : Value) :
  Encode (structCodec name (pre ++ post)) e v
  = match Encode (structCodec name pre) e v with
    | (e1, Some None) => Encode (structCodec name post) e1 v
    | r => r
    end
  /\ Decode (structCodec name (pre ++ post)) d v
     = match Decode (structCodec name pre) d v with
       | (d1, v1, Some None) => Decode (structCodec name post) d1 v1
       | r => r
       end.
Proof.
  rewrite !Encode_struct, !Decode_struct, !map_app. split.
  - apply struct_encode_app.
  - apply struct_decode_app.
Qed.

(** The field that fails ends the struct.  When the fields before [f]
    encode without error and the codec of [f] returns [err], the struct's
    [Encode] returns with the encoder as [f] left it (the fields before
    stay written, those after are not encoded) and with [err] under the
    path of the struct's and the field's names.  [Decode] does the same:
    the fields before [f] keep what was decoded, the field [f] holds what
    its codec left, and the fields after are not touched. *)
Theorem struct_stops_at_the_failing_field (name : string)
  (pre post : list field) (f : field) (err : error) :
  (forall e e1 e2 v x,
     Encode (structCodec name pre) e v = (e1, Some None) ->
     Field v (index f) = Some x ->
     Encode (codec f) e1 x = (e2, Some (Some err)) ->
     exists err',
       errors.WithFieldError (Some err) [name; coder.name f]
       = Some (Some err')
       /\ Encode (structCodec name (pre ++ f :: post)) e v
          = (e2, Some (Some err')))
  /\ (forall d d1 d2 v v1 x x',
        Decode (structCodec name pre) d v = (d1, v1, Some None) ->
        Field v1 (index f) = Some x ->
        Decode (codec f) d1 x = (d2, x', Some (Some err)) ->
        exists err',
          errors.WithFieldError (Some err) [name; coder.name f]
          = Some (Some err')
          /\ Decode (structCodec name (pre ++ f :: post)) d v
             = (d2, setField v1 (index f) x', Some (Some err'))).
Proof.
  assert (Herr : exists err',
            errors.WithFieldError (Some err) [name; coder.name f]
            = Some (Some err')).
  { unfold errors.WithFieldError.
    destruct err; eexists; reflexivity. }
  destruct Herr as (err' & Herr).
  split.
  - intros e e1 e2 v x Hpre Hx Hf. exists err'. split; [exact Herr|].
    rewrite Encode_struct, map_app, struct_encode_app.
    rewrite Encode_struct in Hpre. unfold field in *. rewrite Hpre.
    cbn [map struct_encode]. unfold field_encode, bindEnc.
    cbn [bindex bfn bname]. rewrite Hx, Hf, Herr. reflexivity.
  - intros d d1 d2 v v1 x x' Hpre Hx Hf. exists err'.
    split; [exact Herr|].
    rewrite Decode_struct, map_app, struct_decode_app.
    rewrite Decode_struct in Hpre. unfold field in *. rewrite Hpre.
    cbn [map struct_decode]. unfold field_decode, bindDec.
    cbn [bindex bfn bname]. rewrite Hx, Hf, Herr. reflexivity.
Qed.

Lemma struct_stops_at_the_failing_field_witness :
  exists err',
    Encode (structCodec "nested"
              ([mkField 2%nat int32Codec "I"]
               ++ mkField 0%nat (varStringCodec 1 1) "S"
               :: [mkField 1%nat int32Codec "J"]))
      [] (VStruct [VString [x41; x42]; VInt 7; VInt 5])
    = ([x00; x00; x00; x05], Some (Some err')).
Proof.
  destruct (struct_stops_at_the_failing_field "nested"
              [mkField 2%nat int32Codec "I"]
              [mkField 1%nat int32Codec "J"]
              (mkField 0%nat (varStringCodec 1 1) "S")
              (LengthError 2 1)) as [Henc _].
  destruct (Henc [] [x00; x00; x00; x05] [x00; x00; x00; x05]
              (VStruct [VString [x41; x42]; VInt 7; VInt 5])
              (VString [x41; x42])) as (err' & _ & H);
    [reflexivity | reflexivity | reflexivity |].
  exists err'. exact H.
Defined.
